(** * alsa-sound-playground: ring segmentation, byte order and bit depth

    A shallow embedding of the sample-handling code of the four ALSA demo
    programs, and the properties of it that the specification states.

    - [minPcmBitDepthConv.cpp]: 24 bit to 16 bit reduction, byte swapping,
      the synthesis and the write loop of [main];
    - [minPcmStereo.cpp]: the computing stereo generator, the printing of
      its table and its wraparound aware frame loop;
    - [minPcmStereoOpt.c]: the table driven stereo generator ([fillBuffer],
      [prepWriteBuffer], [monoSine1kHzLoopUp]) and its write loops;
    - the plain mono generator.

    The calls into ALSA are represented by what they return: a run takes
    the list of the replies of [snd_pcm_writei] and [snd_pcm_recover] and
    yields the blocks of samples handed over.  [listdev], which only
    talks to ALSA and prints, is left out.

    Part I holds the embedding, Part II the properties. *)

From Stdlib Require Import ZArith List Lia Bool Reals Lra Machin.
From Stdlib Require String Ascii DecimalString DecimalZ.
Import ListNotations.
Local Open Scope Z_scope.

(** * Part I: the embedding *)

(** ** Fixed width integers

    Values of the C++ integer types are integers in [Z]; a conversion to a
    narrower or signed type is written out as its wrap-around. *)

Module Machine.

Definition INT16_MIN : Z := -32768.
Definition INT16_MAX : Z := 32767.
Definition INT24_MAX : Z := 8388607.
Definition INT24_MIN : Z := -8388608.

(** Two's complement reading of the low [w] bits of [x]. *)
Definition wrap_signed (w : Z) (x : Z) : Z :=
  (x + 2 ^ (w - 1)) mod 2 ^ w - 2 ^ (w - 1).

Definition to_int32 (x : Z) : Z := wrap_signed 32 x.
Definition to_int16 (x : Z) : Z := wrap_signed 16 x.
Definition to_uint16 (x : Z) : Z := x mod 65536.
Definition to_uint32 (x : Z) : Z := x mod 4294967296.
Definition to_size_t (x : Z) : Z := x mod 2 ^ 64.
Definition INT_MAX : Z := 2147483647.

Definition is_uint16 (x : Z) : Prop := 0 <= x < 65536.

End Machine.

(** ** Host byte order

    [htons] and [htonl] come from the C library: the identity on a host
    that stores integers most significant byte first, the reversal of the
    two (four) bytes on a host that stores them least significant byte
    first.  The byte order of the host is a parameter of every function that
    depends on it. *)

Module ByteOrder.

Inductive endianness : Type := LittleEndian | BigEndian.

Definition lo_byte (x : Z) : Z := x mod 256.
Definition hi_byte (x : Z) : Z := (x / 256) mod 256.

Definition bswap16 (x : Z) : Z :=
  Z.lor (Z.shiftl (Z.land x 255) 8) (Z.land (Z.shiftr x 8) 255).

Definition bswap32 (x : Z) : Z :=
  Z.lor (Z.lor (Z.shiftl (Z.land x 255) 24)
               (Z.shiftl (Z.land (Z.shiftr x 8) 255) 16))
        (Z.lor (Z.shiftl (Z.land (Z.shiftr x 16) 255) 8)
               (Z.land (Z.shiftr x 24) 255)).

Definition htons (host : endianness) (x : Z) : Z :=
  match host with LittleEndian => bswap16 x | BigEndian => x end.

Definition htonl (host : endianness) (x : Z) : Z :=
  match host with LittleEndian => bswap32 x | BigEndian => x end.

End ByteOrder.

(** ** Double precision arithmetic

    The generators compute in [double] and call the C library's [sin].
    A double is represented by the real number it denotes.  What the
    machine adds to the exact operations is a parameter: [rnd] rounds an
    exact result to a double and [libm_sin] is the library's sine.  The
    properties are proved for every such pair that is [admissible]: each
    rounding is off by at most a relative [unit_roundoff] plus an absolute
    [tiny] as long as nothing overflows, and the library sine is within
    [sin_error] of the sine.  Round to nearest in binary64 and a sine good
    to a few units in the last place satisfy this with room to spare.
    Integers below 2^53 are doubles, so a conversion from an integer type
    is exact. *)

Module DoubleModel.
Local Open Scope R_scope.

Record arithmetic : Type := { rnd : R -> R; libm_sin : R -> R }.

Definition unit_roundoff : R := / 2 ^ 52.
Definition tiny : R := 1e-300.
Definition huge : R := 1e300.
Definition sin_error : R := / 2 ^ 50.

Definition admissible (fa : arithmetic) : Prop :=
  (forall x, Rabs x <= huge ->
             Rabs (rnd fa x - x) <= unit_roundoff * Rabs x + tiny) /\
  (forall x, Rabs (libm_sin fa x - sin x) <= sin_error).

Definition fmul (fa : arithmetic) (x y : R) : R := rnd fa (x * y).
Definition fdiv (fa : arithmetic) (x y : R) : R := rnd fa (x / y).

(** The conversion of a double to an integer type drops the fraction. *)
Definition Rtrunc (x : R) : Z := if Rle_dec 0 x then Zfloor x else Zceil x.

(** Arithmetic without error. *)
Definition exact_arithmetic : arithmetic :=
  {| rnd := fun x => x; libm_sin := sin |}.

End DoubleModel.

(** ** Arrays *)

Module Arrays.

(** [l[i] = v]; a position outside the array is not written *)
Fixpoint store (l : list Z) (i : nat) (v : Z) : list Z :=
  match l, i with
  | [], _ => []
  | _ :: r, O => v :: r
  | x :: r, S j => x :: store r j v
  end.

End Arrays.

(** ** minPcmBitDepthConv.cpp *)

Module BitDepthConv.
Import Machine ByteOrder.

(** [getTruncatedSample]: [res] is an [int32_t]; [>>] on a negative value is
    the arithmetic shift, [/] is the truncating division of C++, and the
    result is converted to [int16_t] on return. *)
Definition getTruncatedSample (audioSample24bit : Z) : Z :=
  let res := audioSample24bit in
  let res := Z.shiftr (to_int32 (res + 128)) 8 in
  let res :=
    if res <? INT16_MIN then INT16_MIN
    else if res >? INT16_MAX then INT16_MAX
    else res in
  let res := to_int32 (Z.quot (to_int32 (res * 29204)) 32768) in
  to_int16 res.

Definition runningOnLittleEndianHost (host : endianness) : bool :=
  negb (htonl host 23 =? 23).

(** [std::for_each] over the array with [i = htons(i)] *)
Definition convToBigEndian (host : endianness) (buff : list Z) : list Z :=
  map (htons host) buff.

(** [main], lines 89-92 *)
Definition normalize (host : endianness) (_buffer : list Z) : list Z :=
  if runningOnLittleEndianHost host then convToBigEndian host _buffer
  else _buffer.

End BitDepthConv.

(** ** minPcmStereo.cpp, the computing stereo generator *)

Module Stereo.
Import Machine ByteOrder DoubleModel Arrays.

Definition BUFFER_SIZE : Z := 48000 * 2.
Definition PROC_SIN_FRAME_SIZE : Z := 1152.
Definition _simulationDurSec : nat := 30.

Definition runningOnLittleEndianHost (host : endianness) : bool :=
  negb (htonl host 23 =? 23).

Definition convToBigEndian (host : endianness) (buff : list Z) : list Z :=
  map (htons host) buff.

(** [main], lines 114-117 *)
Definition normalize (host : endianness) (_buffer : list Z) : list Z :=
  if runningOnLittleEndianHost host then convToBigEndian host _buffer
  else _buffer.

(** *** The frame loop of [main], lines 119-178

    [writeFrameSize] is [PROC_SIN_FRAME_SIZE]; [channels] stands for the
    literal [2] of [writeFrameSize*2] and [frames*2], the samples of one
    stereo frame.  [writePos], [nextFramePosEnd] and [writePosReminder] are
    [int], the sample counts are [size_t]; a comparison of the two is made
    in [size_t]. *)

Record SinkReply : Type := {
  written : Z;     (* what [snd_pcm_writei] returned *)
  recovered : Z    (* what [snd_pcm_recover] returns when it is called *)
}.

Record Cursor : Type := { writePos : Z; writePosReminder : Z }.

(** [n] elements read from position [from] on *)
Definition copy_n (l : list Z) (from n : Z) : list Z :=
  firstn (Z.to_nat n) (skipn (Z.to_nat from) l).

Section FrameLoop.
Variable writeFrameSize : Z.
Variable channels : Z.
Variable _buffer : list Z.

Definition buffSampleCount : Z := to_size_t (Z.of_nat (length _buffer)).

(** lines 132-153: the samples [snd_pcm_writei] is pointed at, and the
    reminder after the branch *)
Definition nextFrame (c : Cursor) : list Z * Z :=
  let nextFramePosEnd :=
    to_int32 (to_size_t (to_size_t (writePos c)
                         + to_size_t (writeFrameSize * channels))) in
  if to_size_t nextFramePosEnd >? buffSampleCount then
    let lastBuffSamplesAmount :=
      to_size_t (buffSampleCount - to_size_t (writePos c)) in
    let _tempWriteBuff := copy_n _buffer (writePos c) lastBuffSamplesAmount in
    let firstBuffSamplesAmount :=
      to_size_t (to_size_t (writeFrameSize * channels) - lastBuffSamplesAmount) in
    let _tempWriteBuff :=
      _tempWriteBuff ++ copy_n _buffer 0 firstBuffSamplesAmount in
    (copy_n _tempWriteBuff 0 (writeFrameSize * channels),
     to_int32 firstBuffSamplesAmount)
  else
    (copy_n _buffer (writePos c) (writeFrameSize * channels),
     writePosReminder c).

(** lines 155-158 *)
Definition frames_of (r : SinkReply) : Z :=
  if written r <? 0 then recovered r else written r.

(** One turn of the inner loop: the frame offered, the cursor after it, and
    whether the loop was left by [break]. *)
Definition iteration (c : Cursor) (r : SinkReply) : list Z * Cursor * bool :=
  let '(frame, reminder) := nextFrame c in
  let frames := frames_of r in
  if frames <? 0 then
    (frame, {| writePos := writePos c; writePosReminder := reminder |}, true)
  else
    (frame,
     {| writePos := to_int32 (writePos c + frames * channels);
        writePosReminder := reminder |},
     false).

(** The two loops.  Every turn of the inner loop takes one reply of the
    sink; the frames offered are collected, and the record stops where the
    replies end.  [passes] counts the turns left of the outer loop. *)
Fixpoint playback (passes : nat) (replies : list SinkReply)
  (reminder : Z) {struct passes} : list (list Z) :=
  match passes with
  | O => []
  | S passes' =>
    (fix inner (replies : list SinkReply) (c : Cursor) {struct replies}
       : list (list Z) :=
       if to_size_t (writePos c) <? buffSampleCount then
         match replies with
         | [] => []
         | r :: rest =>
           let '(frame, c', broke) := iteration c r in
           frame :: (if broke then playback passes' rest (writePosReminder c')
                     else inner rest c')
         end
       else playback passes' replies (writePosReminder c))
      replies {| writePos := reminder; writePosReminder := reminder |}
  end.

End FrameLoop.

(** *** The synthesis loop of [main], lines 75-94

    [tempVal] is [static_cast<int16_t>(INT16_MAX * (DAMPENING_FACTOR *
    amplitudeVal))]; the decimal constants are rounded to doubles, the
    integers 1000, 48000, 2 and 32767 are doubles as they stand. *)

Section Synthesis.
Local Open Scope R_scope.
Variable fa : arithmetic.

Definition DAMPENING_FACTOR : R :=
  rnd fa 0.70794578438413791080221494218931.
Definition _samplingRate : R := 48000.
Definition _sineFrequency : R := 1000.
Definition _PI : R := rnd fa 3.14159265.

Definition angleIncrement : R :=
  fmul fa (fmul fa (fdiv fa _sineFrequency _samplingRate) 2) _PI.

Definition scaled_sine (iii : nat) : R :=
  let probedFreq := fmul fa (INR iii) angleIncrement in
  let amplitudeVal := libm_sin fa probedFreq in
  fmul fa (IZR INT16_MAX) (fmul fa DAMPENING_FACTOR amplitudeVal).

Definition tempVal (iii : nat) : Z := to_int16 (Rtrunc (scaled_sine iii)).

(** [n] turns of the loop from [a], [iii] on; the state is the pair of
    [monoSine1kHzLoopUp] and [_buffer] *)
Fixpoint synthesis_loop (n : nat) (a iii : nat) (st : list Z * list Z)
  : list Z * list Z :=
  match n with
  | O => st
  | S n' =>
    let t := tempVal iii in
    let table := if (iii <? 48)%nat then store (fst st) iii t else fst st in
    let buffer :=
      store (store (snd st) a (to_uint16 t)) (a + 1) (to_uint16 t) in
    synthesis_loop n' (a + 2) (S iii) (table, buffer)
  end.

Definition synthesis : list Z * list Z :=
  synthesis_loop (Z.to_nat 48000) 0 0
    (repeat 0%Z 48, repeat 0%Z (Z.to_nat BUFFER_SIZE)).

End Synthesis.

(** [main]: the loops started with [writePosReminder = 0] *)
Definition frame_loop (_buffer : list Z) (replies : list SinkReply)
  : list (list Z) :=
  playback PROC_SIN_FRAME_SIZE 2 _buffer _simulationDurSec replies 0.

End Stereo.

(** ** minPcmStereoOpt.c, the table driven stereo generator *)

Module StereoOpt.
Import Machine ByteOrder.

(** namespace [params]; the values are [uint32_t] constants *)
Record Params : Type := {
  SAMPLE_RATE : Z;
  AUD_CHANNELS : Z;
  SINE_FREQ : Z;
  PROC_FRAME_SIZE : Z
}.

Definition params : Params :=
  {| SAMPLE_RATE := 48000; AUD_CHANNELS := 2; SINE_FREQ := 1000;
     PROC_FRAME_SIZE := 1152 |}.

Definition SAMPLES_PER_SINE (p : Params) : Z := SAMPLE_RATE p / SINE_FREQ p.
Definition SINES_IN_FRAME (p : Params) : Z :=
  PROC_FRAME_SIZE p / SAMPLES_PER_SINE p.

(** the two [static_assert]s of the namespace *)
Definition static_asserts (p : Params) : bool :=
  (SINE_FREQ p <? SAMPLE_RATE p / 2) &&
  (PROC_FRAME_SIZE p mod SAMPLES_PER_SINE p =? 0).

Definition runningOnLittleEndianHost (host : endianness) : bool :=
  negb (htonl host 23 =? 23).

(** [for (o = 0u; o < AUD_CHANNELS; ++o) buf.push_back(s)]: [s] is an
    [int16_t], the vector holds [uint16_t] *)
Fixpoint push_channels (o : nat) (s : Z) (buf : list Z) : list Z :=
  match o with
  | O => buf
  | S o' => push_channels o' s (buf ++ [to_uint16 s])
  end.

(** [std::for_each] over [monoSigBuff] *)
Definition push_period (p : Params) (monoSigBuff buf : list Z) : list Z :=
  fold_left (fun b s => push_channels (Z.to_nat (AUD_CHANNELS p)) s b)
            monoSigBuff buf.

Fixpoint fillBuffer_loop (p : Params) (i : nat) (monoSigBuff buf : list Z)
  : list Z :=
  match i with
  | O => buf
  | S i' => fillBuffer_loop p i' monoSigBuff (push_period p monoSigBuff buf)
  end.

Definition fillBuffer (p : Params) (monoSigBuff buf : list Z) : list Z :=
  fillBuffer_loop p (Z.to_nat (SINES_IN_FRAME p)) monoSigBuff buf.

Definition convToBigEndian (host : endianness) (buff : list Z) : list Z :=
  map (htons host) buff.

(** In [prepWriteBuffer] the condition is [if(runningOnLittleEndianHost)],
    the function's name without a call: a function converts to a pointer
    that is not null, so the condition is true on every host. *)
Definition function_name_as_condition : bool := true.

Definition prepWriteBuffer (p : Params) (host : endianness)
  (sigBuff : list Z) : list Z :=
  let buff := [] in
  let buff := fillBuffer p sigBuff buff in
  let buff :=
    if function_name_as_condition then convToBigEndian host buff else buff in
  buff.

Definition monoSine1kHzLoopUp : list Z :=
  [ 0; 3027; 6003; 8877; 11598; 14121; 16402; 18403; 20089; 21431; 22406;
    22998; 23197; 22998; 22406; 21431; 20089; 18403; 16402; 14121; 11598;
    8877; 6003; 3027; 0; -3027; -6003; -8877; -11598; -14121; -16402;
    -18403; -20089; -21431; -22406; -22998; -23197; -22998; -22406; -21431;
    -20089; -18403; -16402; -14121; -11598; -8877; -6003; -3027 ].

End StereoOpt.

(** ** The plain mono generator

    [static_cast<short>(SHRT_MAX * amplitudeVal)], no damping. *)

Module Mono.
Import Machine DoubleModel Arrays.

Section Synthesis.
Local Open Scope R_scope.
Variable fa : arithmetic.

Definition _samplingRate : R := 48000.
Definition _sineFrequency : R := 1000.
Definition _PI : R := rnd fa 3.14159265.

Definition angleIncrement : R :=
  fmul fa (fmul fa (fdiv fa _sineFrequency _samplingRate) 2) _PI.

Definition scaled_sine (a : nat) : R :=
  let probedFreq := fmul fa (INR a) angleIncrement in
  let amplitudeVal := libm_sin fa probedFreq in
  fmul fa (IZR INT16_MAX) amplitudeVal.

Definition tempVal (a : nat) : Z := to_int16 (Rtrunc (scaled_sine a)).

End Synthesis.

End Mono.

(** ** The bit depth reducer as the specification words it *)

Module ReducerSpec.
Import Machine.

Definition round_shift (x : Z) : Z := Z.shiftr (x + 128) 8.
Definition clamp16 (r : Z) : Z := Z.max INT16_MIN (Z.min INT16_MAX r).
Definition damp (r : Z) : Z := Z.quot (r * 29204) 32768.

(** shift, then clamp, then damp *)
Definition reduce (x : Z) : Z := damp (clamp16 (round_shift x)).

(** the other order: shift, then damp, then clamp *)
Definition reduce_damp_first (x : Z) : Z := clamp16 (damp (round_shift x)).

End ReducerSpec.

(** ** Fixed point enclosures

    The values of the sine that the statements need are enclosed by
    interval arithmetic on integers: [{| lo; hi |}] stands for the reals
    [x] with [lo <= x * scale <= hi]. *)

Module Enclosure.

Definition scale : Z := 2 ^ 80.

Record ival : Type := { lo : Z; hi : Z }.

Definition floor_scale (z : Z) : Z := z / scale.
Definition ceil_scale (z : Z) : Z := - ((- z) / scale).

Definition izero : ival := {| lo := 0; hi := 0 |}.
Definition ione : ival := {| lo := scale; hi := scale |}.
Definition iadd (a b : ival) : ival :=
  {| lo := lo a + lo b; hi := hi a + hi b |}.
Definition isub (a b : ival) : ival :=
  {| lo := lo a - hi b; hi := hi a - lo b |}.
Definition ineg (a : ival) : ival := {| lo := - hi a; hi := - lo a |}.
Definition idouble (a : ival) : ival := {| lo := 2 * lo a; hi := 2 * hi a |}.
Definition min4 (a b c d : Z) : Z := Z.min (Z.min a b) (Z.min c d).
Definition max4 (a b c d : Z) : Z := Z.max (Z.max a b) (Z.max c d).
Definition imul (a b : ival) : ival :=
  {| lo := floor_scale
             (min4 (lo a * lo b) (lo a * hi b) (hi a * lo b) (hi a * hi b));
     hi := ceil_scale
             (max4 (lo a * lo b) (lo a * hi b) (hi a * lo b) (hi a * hi b)) |}.
Definition idiv_pos (a : ival) (d : Z) : ival :=
  {| lo := lo a / d; hi := - ((- hi a) / d) |}.

(** the lower end of [a] with the upper end of [b] *)
Definition imeet (a b : ival) : ival := {| lo := lo a; hi := hi b |}.

(** [i] encloses [x]; a pair encloses the sine and the cosine of [x] *)
Definition contains (i : ival) (x : R) : Prop :=
  (IZR (lo i) <= x * IZR scale <= IZR (hi i))%R.
Definition encloses (sc : ival * ival) (x : R) : Prop :=
  contains (fst sc) (sin x) /\ contains (snd sc) (cos x).

(** the rational [p / q], [0 < q] *)
Definition of_ratio (p q : Z) : ival :=
  {| lo := (p * scale) / q; hi := - ((- (p * scale)) / q) |}.

(** [term] encloses the Taylor term of index [i] of the sine; the result
    encloses the sum of the terms [i .. i + n]. *)
Fixpoint taylor_sin (xsq term : ival) (i : Z) (n : nat) : ival :=
  match n with
  | O => term
  | S m =>
    iadd term
      (taylor_sin xsq
         (ineg (idiv_pos (imul term xsq) ((2 * i + 2) * (2 * i + 3))))
         (i + 1) m)
  end.

(** the sine of an angle in [0, 4], between two partial sums *)
Definition isin (x : ival) : ival :=
  imeet (taylor_sin (imul x x) x 0 7) (taylor_sin (imul x x) x 0 8).

(** sine and cosine of an angle in [0, 4] *)
Definition sincos_base (x : ival) : ival * ival :=
  let h := isin (idiv_pos x 2) in
  (isin x, isub ione (idouble (imul h h))).

(** from sine and cosine of [x] to those of [2 * x] *)
Definition double_angle (sc : ival * ival) : ival * ival :=
  (idouble (imul (fst sc) (snd sc)),
   isub ione (idouble (imul (fst sc) (fst sc)))).

(** from sine and cosine of [x] to those of [x + a], [base] for [a] *)
Definition next_angle (base sc : ival * ival) : ival * ival :=
  (iadd (imul (fst sc) (snd base)) (imul (snd sc) (fst base)),
   isub (imul (snd sc) (snd base)) (imul (fst sc) (fst base))).

(** sine and cosine of [p * a] *)
Fixpoint sincos_pos (base : ival * ival) (p : positive) : ival * ival :=
  match p with
  | xH => base
  | xO q => double_angle (sincos_pos base q)
  | xI q => next_angle base (double_angle (sincos_pos base q))
  end.

(** the tolerance of the checks, [1e-6], in fixed point *)
Definition tol : Z := scale / 1000000 + 1.

(** every real within the tolerance of [v] truncates to [t] *)
Definition truncates_to (v : ival) (t : Z) : bool :=
  if 0 <? t then
    (t * scale + tol <=? lo v) && (hi v + tol <? (t + 1) * scale)
  else if t <? 0 then
    ((t - 1) * scale <? lo v - tol) && (hi v + tol <=? t * scale)
  else (- scale <? lo v - tol) && (hi v + tol <? scale).

(** every real of [v] rounds to [t] *)
Definition rounds_to (v : ival) (t : Z) : bool :=
  ((2 * t - 1) * scale <=? 2 * lo v) && (2 * hi v <? (2 * t + 1) * scale).

(** [sc] encloses sine and cosine of the angle of the first entry of [l];
    every entry is checked against the scaled sine, and the angle moves on
    by the angle that [base] encloses. *)
Fixpoint check_run (base : ival * ival) (amp : ival) (sc : ival * ival)
  (l : list Z) : bool :=
  match l with
  | [] => true
  | t :: r =>
    truncates_to (imul amp (fst sc)) t
    && check_run base amp (next_angle base sc) r
  end.

(** The angle increment of the generators, [(1000 / 48000) * 2 * 3.14159265],
    and an interval that also holds [(1000 / 48000) * 2 * PI]. *)
Definition angle_ival : ival :=
  of_ratio (1000 * 2 * 314159265) (48000 * 100000000).
Definition angle_pi_ival : ival :=
  imeet angle_ival (of_ratio (1000 * 2 * 31415926536) (48000 * 10000000000)).

(** [32767 * 0.70794578438413791080221494218931] *)
Definition amp_ival : ival :=
  of_ratio (32767 * 70794578438413791080221494218931)
           100000000000000000000000000000000.
Definition amp_mono_ival : ival := of_ratio 32767 1.

End Enclosure.

(** ** Vocabulary of the statements *)

Module Vocabulary.
Import Machine.

(** One period with every sample repeated on each channel. *)
Definition interleaved_period (N : nat) (monoSigBuff : list Z) : list Z :=
  flat_map (fun s => repeat (to_uint16 s) N) monoSigBuff.

(** [buffer[a, b)]: the elements at positions [a <= i < b] *)
Definition slice (l : list Z) (a b : Z) : list Z :=
  firstn (Z.to_nat (b - a)) (skipn (Z.to_nat a) l).

(** The ring repeated [k] times and cut to [len] samples from offset 0. *)
Definition cyclic_stream (ring : list Z) (k : nat) (len : Z) : list Z :=
  firstn (Z.to_nat len) (concat (repeat ring k)).

(** A sink that takes every frame whole. *)
Definition full_write (writeFrameSize : Z) : Stereo.SinkReply :=
  {| Stereo.written := writeFrameSize; Stereo.recovered := 0 |}.

(** The reminder that [Stereo.nextFrame] leaves, from the sizes alone. *)
Definition reminder_after (writeFrameSize channels count : Z)
  (c : Stereo.Cursor) : Z :=
  let nextFramePosEnd :=
    to_int32 (to_size_t (to_size_t (Stereo.writePos c)
                         + to_size_t (writeFrameSize * channels))) in
  if to_size_t nextFramePosEnd >? count then
    to_int32 (to_size_t (to_size_t (writeFrameSize * channels)
                         - to_size_t (count - to_size_t (Stereo.writePos c))))
  else Stereo.writePosReminder c.

(** The cursors at which [Stereo.playback] takes its frames, from the sizes
    and the replies alone. *)
Fixpoint cursors (writeFrameSize channels count : Z) (passes : nat)
  (replies : list Stereo.SinkReply) (reminder : Z) {struct passes}
  : list Stereo.Cursor :=
  match passes with
  | O => []
  | S passes' =>
    (fix inner (replies : list Stereo.SinkReply) (c : Stereo.Cursor)
       {struct replies} : list Stereo.Cursor :=
       if to_size_t (Stereo.writePos c) <? count then
         match replies with
         | [] => []
         | r :: rest =>
           let reminder' := reminder_after writeFrameSize channels count c in
           let frames := Stereo.frames_of r in
           c :: (if frames <? 0
                 then cursors writeFrameSize channels count passes' rest reminder'
                 else inner rest
                        {| Stereo.writePos :=
                             to_int32 (Stereo.writePos c + frames * channels);
                           Stereo.writePosReminder := reminder' |})
         end
       else cursors writeFrameSize channels count passes' replies
              (Stereo.writePosReminder c))
      replies {| Stereo.writePos := reminder; Stereo.writePosReminder := reminder |}
  end.

(** A buffer of [n] samples counting up from [z]. *)
Fixpoint ramp (n : nat) (z : Z) : list Z :=
  match n with
  | O => []
  | S n' => z :: ramp n' (z + 1)
  end.

(** The sample as the specification words it: the scaled sine of the
    angle [2 * PI * toneFrequency / sampleRate * k], rounded to the nearest
    integer and clamped to the 16 bit range. *)
Definition synth_angle (k : nat) : R :=
  (2 * PI * (1000 / 48000) * INR k)%R.
Definition round_nearest (x : R) : Z := Zfloor (x + / 2)%R.
Definition rounded_sample (damping : R) (k : nat) : Z :=
  ReducerSpec.clamp16
    (round_nearest (32767 * damping * sin (synth_angle k))%R).

(** The same value with the fraction dropped. *)
Definition truncated_sample (damping : R) (k : nat) : Z :=
  DoubleModel.Rtrunc (32767 * damping * sin (synth_angle k))%R.

Definition damping_3dB : R := 0.70794578438413791080221494218931%R.

(** The angle step as the program computes it, with [_PI]; the angle step
    with the true [PI]; the full scale of the stereo generator. *)
Definition angleR : R := (1000 / 48000 * 2 * 3.14159265)%R.
Definition anglePI : R := (2 * PI * (1000 / 48000))%R.
Definition ampR : R := (32767 * 0.70794578438413791080221494218931)%R.

(** The distance that the checks of [Enclosure] leave between the real value
    and the value a double computation returns. *)
Definition tolR : R := 1e-6%R.

End Vocabulary.

(** ** Vocabulary of the runs *)

Module RunVocabulary.
Import Machine.

(** A reply that [snd_pcm_writei] can give when handed [writeFrameSize]
    frames: an error, or a count of at most that many frames. *)
Definition sane (writeFrameSize : Z) (r : Stereo.SinkReply) : Prop :=
  Stereo.frames_of r <= writeFrameSize.

(** A write that fails and is not recovered. *)
Definition failing (r : Stereo.SinkReply) : Prop := Stereo.frames_of r < 0.

(** A write that succeeds or is recovered. *)
Definition accepting (r : Stereo.SinkReply) : Prop := 0 <= Stereo.frames_of r.

(** Frame [i] of the cyclic reading of the ring in frames of [len]
    samples. *)
Definition cyclic_frame (ring : list Z) (len : Z) (i : nat) : list Z :=
  let start := (Z.of_nat i * len) mod Z.of_nat (length ring) in
  Vocabulary.slice ring start (start + len).

(** Frame [i] of the cyclic reading when a frame may run over the end of
    the ring: [len] samples from [(i * len) mod C] on, continued at the
    ring's beginning. *)
Definition wrapped_frame (ring : list Z) (len : Z) (i : nat) : list Z :=
  let start := (Z.of_nat i * len) mod Z.of_nat (length ring) in
  Vocabulary.slice (ring ++ ring) start (start + len).

(** What the sink takes of a frame it is offered: the first [frames]
    frames of [channels] samples. *)
Definition accepted (channels : Z) (frame : list Z) (r : Stereo.SinkReply)
  : list Z :=
  firstn (Z.to_nat (Stereo.frames_of r * channels)) frame.

(** The stream that reaches the device: of every frame offered, the part
    its reply accepts. *)
Definition delivered (channels : Z) (frames : list (list Z))
  (replies : list Stereo.SinkReply) : list Z :=
  concat (map (fun fr => accepted channels (fst fr) (snd fr))
              (combine frames replies)).

(** The frames the sink has taken in all. *)
Definition frames_taken (replies : list Stereo.SinkReply) : Z :=
  fold_right (fun r acc => Stereo.frames_of r + acc) 0 replies.

(** The two bytes of a [uint16_t] in the order the host stores them; this
    is what the device, set to [SND_PCM_FORMAT_S16_BE], reads. *)
Definition bytes_in_memory (host : ByteOrder.endianness) (v : Z) : list Z :=
  match host with
  | ByteOrder.LittleEndian => [ByteOrder.lo_byte v; ByteOrder.hi_byte v]
  | ByteOrder.BigEndian => [ByteOrder.hi_byte v; ByteOrder.lo_byte v]
  end.

(** Most significant byte first. *)
Definition big_endian_bytes (v : Z) : list Z :=
  [ByteOrder.hi_byte v; ByteOrder.lo_byte v].

Definition is_int16 (s : Z) : Prop := INT16_MIN <= s <= INT16_MAX.

(** One period with every sample repeated on each channel, as signed
    samples. *)
Definition replicated_period (N : nat) (monoSigBuff : list Z) : list Z :=
  flat_map (fun s => repeat s N) monoSigBuff.

End RunVocabulary.

(** ** minPcmStereoOpt.c, the write loops of [main], lines 162-185

    Every write hands [tempWriteBuff.data()] and [PROC_FRAME_SIZE] frames
    to [snd_pcm_writei]: the device reads [PROC_FRAME_SIZE * AUD_CHANNELS]
    samples from the start of the vector.  A failed write that is not
    recovered leaves the inner loop. *)

Module StereoOptMain.
Import Machine ByteOrder StereoOpt.

Definition PLAYBACK_TIME_SEC : Z := 40.

Section Loops.
Variable p : Params.
Variable tempWriteBuff : list Z.

Definition offered : list Z :=
  Stereo.copy_n tempWriteBuff 0 (PROC_FRAME_SIZE p * AUD_CHANNELS p).

(** [j] counts the turns left of the inner loop; the result is the frames
    offered and the replies not yet taken *)
Fixpoint inner_loop (j : nat) (replies : list Stereo.SinkReply)
  : list (list Z) * list Stereo.SinkReply :=
  match j, replies with
  | S j', r :: rest =>
    if Stereo.frames_of r <? 0 then ([offered], rest)
    else let '(frames, unread) := inner_loop j' rest in
         (offered :: frames, unread)
  | _, _ => ([], replies)
  end.

Fixpoint playback (passes : nat) (replies : list Stereo.SinkReply)
  : list (list Z) :=
  match passes with
  | O => []
  | S passes' =>
    let '(frames, unread) :=
      inner_loop (Z.to_nat (SAMPLE_RATE p / PROC_FRAME_SIZE p)) replies in
    frames ++ playback passes' unread
  end.

End Loops.

(** [main] from [prepWriteBuffer] on *)
Definition main (host : endianness) (replies : list Stereo.SinkReply)
  : list (list Z) :=
  playback params (prepWriteBuffer params host monoSine1kHzLoopUp)
    (Z.to_nat PLAYBACK_TIME_SEC) replies.

End StereoOptMain.

(** ** The write loop of the mono programs

    [minPcmBitDepthConv.cpp], lines 94-112, and the plain mono generator,
    lines 71-89: every turn hands the whole [_buffer] to [snd_pcm_writei];
    a failed write that is not recovered leaves the loop. *)

Module MonoMain.
Import Machine DoubleModel Arrays.

Definition BitDepthConv_simulationDurSec : nat := 20.
Definition Mono_simulationDurSec : nat := 10.

Fixpoint write_loop (_buffer : list Z) (i : nat)
  (replies : list Stereo.SinkReply) : list (list Z) :=
  match i, replies with
  | S i', r :: rest =>
    _buffer :: (if Stereo.frames_of r <? 0 then []
                else write_loop _buffer i' rest)
  | _, _ => []
  end.

(** [_buffer[a] = ...] for [a] from 0 while [a < _samplingRate], [n] turns
    from [a] on; [sample a] is the value stored *)
Fixpoint synthesis_loop (sample : nat -> Z) (n a : nat) (_buffer : list Z)
  : list Z :=
  match n with
  | O => _buffer
  | S n' => synthesis_loop sample n' (S a) (store _buffer a (sample a))
  end.

(** the plain mono generator, lines 39-48: [uint16_t _buffer[48*1000]] *)
Definition Mono_synthesis (fa : arithmetic) : list Z :=
  synthesis_loop (fun a => to_uint16 (Mono.tempVal fa a))
    (Z.to_nat 48000) 0 (repeat 0 (Z.to_nat (48 * 1000))).

Section BitDepthConvSynthesis.
Local Open Scope R_scope.
Variable fa : arithmetic.

Definition _samplingRate : R := 48000.
Definition _sineFrequency : R := 1000.
Definition _PI : R := rnd fa 3.14159265.

Definition angleIncrement : R :=
  fmul fa (fmul fa (fdiv fa _sineFrequency _samplingRate) 2) _PI.

(** [INT24_MAX * amplitudeVal], a double *)
Definition scaled_sine (a : nat) : R :=
  let probedFreq := fmul fa (INR a) angleIncrement in
  let amplitudeVal := libm_sin fa probedFreq in
  fmul fa (IZR INT24_MAX) amplitudeVal.

(** [(short) getTruncatedSample(INT24_MAX * amplitudeVal)]: the double is
    converted to the [int32_t] parameter *)
Definition truncatedSample (a : nat) : Z :=
  to_int16 (BitDepthConv.getTruncatedSample (to_int32 (Rtrunc (scaled_sine a)))).

End BitDepthConvSynthesis.

(** [minPcmBitDepthConv.cpp], lines 62-72 *)
Definition BitDepthConv_synthesis (fa : arithmetic) : list Z :=
  synthesis_loop (fun a => to_uint16 (truncatedSample fa a))
    (Z.to_nat 48000) 0 (repeat 0 (Z.to_nat (48 * 1000))).

End MonoMain.

(** ** minPcmStereo.cpp, the printing of the table, lines 33-55 and 96

    [strToInt] writes its argument to a [std::stringstream]: an [int16_t]
    comes out in decimal, with a minus sign if it is negative.
    [getCommaSepNumString] counts the elements in an [int] and compares the
    count with the [size_t] size of the array. *)

Module StereoText.
Import Machine DoubleModel.
Import String.StringSyntax.
Local Open Scope string_scope.
Local Open Scope Z_scope.

Definition strToInt (i : Z) : String.string :=
  DecimalString.NilZero.string_of_int (Z.to_int i).

Definition getCommaSepNumString (bytes : list Z) : String.string :=
  let size := to_size_t (Z.of_nat (length bytes)) in
  fst (fold_left
         (fun (st : String.string * Z) (c : Z) =>
            let i := to_int32 (snd st + 1) in
            let res := String.append (fst st) (strToInt c) in
            if to_size_t i <? size then (String.append res ", ", i)
            else (res, i))
         bytes (String.EmptyString, 0)).

(** line 96: what [main] writes to [std::cout] before the device is opened *)
Definition table_line (fa : arithmetic) : String.string :=
  String.append "int16_t monoSine1kHzLoopUp[48] { "
    (String.append (getCommaSepNumString (fst (Stereo.synthesis fa))) "};").

End StereoText.

(** ** The programs from the synthesis to the device

    Each [main] fills its buffer, normalises the byte order and runs its
    write loop; the result is the sequence of sample blocks handed to
    [snd_pcm_writei]. *)

Module Programs.
Import Machine ByteOrder DoubleModel.

(** minPcmStereo.cpp *)
Definition Stereo_main (fa : arithmetic) (host : endianness)
  (replies : list Stereo.SinkReply) : list (list Z) :=
  Stereo.frame_loop (Stereo.normalize host (snd (Stereo.synthesis fa))) replies.

(** minPcmBitDepthConv.cpp *)
Definition BitDepthConv_main (fa : arithmetic) (host : endianness)
  (replies : list Stereo.SinkReply) : list (list Z) :=
  MonoMain.write_loop
    (BitDepthConv.normalize host (MonoMain.BitDepthConv_synthesis fa))
    MonoMain.BitDepthConv_simulationDurSec replies.

(** the plain mono generator; its [runningOnLittleEndianHost] and
    [convToBigEndian] are those of minPcmBitDepthConv.cpp *)
Definition Mono_main (fa : arithmetic) (host : endianness)
  (replies : list Stereo.SinkReply) : list (list Z) :=
  MonoMain.write_loop
    (BitDepthConv.normalize host (MonoMain.Mono_synthesis fa))
    MonoMain.Mono_simulationDurSec replies.

End Programs.

(** ** Vocabulary of the byte order *)

Module ByteOrderVocabulary.
Import Machine.

(** The two bytes exchanged: [w] is the 16 bit value whose low byte is the
    high byte of [v] and whose high byte is the low byte of [v]. *)
Definition bytes_swapped (v w : Z) : Prop :=
  is_uint16 w /\
  ByteOrder.lo_byte w = ByteOrder.hi_byte v /\
  ByteOrder.hi_byte w = ByteOrder.lo_byte v.

End ByteOrderVocabulary.

(** ** Vocabulary of the cursor *)

Module CursorVocabulary.
Import Machine.

(** Where the frame loop reads next after a turn at cursor [c] that the
    sink answered with [r], if it reads again: at the advanced write
    position while that is inside the ring and the write did not fail, at
    the reminder (the start of the next pass) otherwise. *)
Definition next_cursor (writeFrameSize channels count : Z)
  (c : Stereo.Cursor) (r : Stereo.SinkReply) : Stereo.Cursor :=
  let reminder' :=
    Vocabulary.reminder_after writeFrameSize channels count c in
  let frames := Stereo.frames_of r in
  let writePos' := to_int32 (Stereo.writePos c + frames * channels) in
  if (frames <? 0) || negb (to_size_t writePos' <? count)
  then {| Stereo.writePos := reminder'; Stereo.writePosReminder := reminder' |}
  else {| Stereo.writePos := writePos'; Stereo.writePosReminder := reminder' |}.

End CursorVocabulary.

(** * Part II: properties *)

(** ** Fixed width integers *)

Module MachineFacts.
Import Machine.

Lemma wrap_signed_small (w x : Z) :
  0 < w -> - 2 ^ (w - 1) <= x < 2 ^ (w - 1) -> wrap_signed w x = x.
Proof.
  intros Hw Hx. unfold wrap_signed.
  assert (E : 2 ^ w = 2 * 2 ^ (w - 1)).
  { replace w with (Z.succ (w - 1)) at 1 by lia. apply Z.pow_succ_r. lia. }
  rewrite Z.mod_small; lia.
Qed.

Lemma to_int32_small (x : Z) :
  -2147483648 <= x < 2147483648 -> to_int32 x = x.
Proof. intros H. apply wrap_signed_small; [lia | exact H]. Qed.

Lemma to_int16_small (x : Z) : -32768 <= x < 32768 -> to_int16 x = x.
Proof. intros H. apply wrap_signed_small; [lia | exact H]. Qed.

End MachineFacts.

(** ** The bit depth reducer *)

Module BitDepthFacts.
Import Machine MachineFacts BitDepthConv ReducerSpec.

Lemma round_shift_range (x : Z) :
  INT24_MIN <= x <= INT24_MAX -> -32768 <= round_shift x <= 32768.
Proof.
  unfold INT24_MIN, INT24_MAX, round_shift. intros H.
  rewrite Z.shiftr_div_pow2 by lia. change (2 ^ 8) with 256.
  split.
  - apply Z.div_le_lower_bound; lia.
  - enough ((x + 128) / 256 < 32769) by lia.
    apply Z.div_lt_upper_bound; lia.
Qed.

Lemma clamp16_range (r : Z) : -32768 <= clamp16 r <= 32767.
Proof. unfold clamp16, INT16_MIN, INT16_MAX. lia. Qed.

Lemma clamp16_code (r : Z) :
  (if r <? INT16_MIN then INT16_MIN
   else if r >? INT16_MAX then INT16_MAX else r) = clamp16 r.
Proof.
  unfold clamp16, INT16_MIN, INT16_MAX.
  destruct (Z.ltb_spec r (-32768)); [lia|].
  rewrite Z.gtb_ltb. destruct (Z.ltb_spec 32767 r); lia.
Qed.

Lemma damp_range (r : Z) :
  -32768 <= r <= 32767 -> -29204 <= damp r <= 29203.
Proof.
  intros H. unfold damp. split.
  - change (-29204) with (Z.quot (-32768 * 29204) 32768).
    apply Z.quot_le_mono; lia.
  - change 29203 with (Z.quot (32767 * 29204) 32768).
    apply Z.quot_le_mono; lia.
Qed.

Lemma getTruncatedSample_reduce (x : Z) :
  INT24_MIN <= x <= INT24_MAX -> getTruncatedSample x = reduce x.
Proof.
  intros H. pose proof (round_shift_range x H) as Hs.
  unfold getTruncatedSample, reduce.
  unfold INT24_MIN, INT24_MAX in H.
  rewrite (to_int32_small (x + 128)) by lia.
  fold (round_shift x). rewrite clamp16_code.
  pose proof (clamp16_range (round_shift x)) as Hc.
  pose proof (damp_range _ Hc) as Hd.
  rewrite (to_int32_small (clamp16 (round_shift x) * 29204)) by lia.
  fold (damp (clamp16 (round_shift x))).
  rewrite to_int32_small by lia.
  apply to_int16_small. lia.
Qed.

(** C3. For every input of the signed 24 bit range, [getTruncatedSample]
    computes, in this order: the shift right by 8 of [x + 128], the clamp of
    that to the 16 bit range, and the damping [(r * 29204) / 32768] (the
    truncating division of C++) of the clamped value; no conversion on the
    way wraps. *)
Theorem getTruncatedSample_shift_clamp_damp (x : Z) :
  INT24_MIN <= x <= INT24_MAX ->
  getTruncatedSample x =
  Z.quot (Z.max INT16_MIN (Z.min INT16_MAX (Z.shiftr (x + 128) 8)) * 29204) 32768.
Proof. intros H. rewrite getTruncatedSample_reduce by exact H. reflexivity. Qed.

Lemma getTruncatedSample_shift_clamp_damp_witness :
  INT24_MIN <= 8388607 <= INT24_MAX /\
  getTruncatedSample 8388607 =
  Z.quot (Z.max INT16_MIN (Z.min INT16_MAX (Z.shiftr (8388607 + 128) 8)) * 29204) 32768.
Proof.
  split.
  - unfold INT24_MIN, INT24_MAX. lia.
  - apply (getTruncatedSample_shift_clamp_damp 8388607).
    unfold INT24_MIN, INT24_MAX. lia.
Defined.

(** The order is observable inside the 24 bit range: at the largest input
    the shifted value is 32768, which the clamp cuts to 32767 before the
    damping; damping first would give one count more. *)
Lemma clamp_before_damp_observable :
  getTruncatedSample INT24_MAX = 29203 /\ reduce_damp_first INT24_MAX = 29204.
Proof. split; reflexivity. Qed.

(** C9. For every input of the signed 24 bit range the result lies in
    [-29204, 29203], so it fits 16 bits with more than 3500 counts of
    headroom on either side; both ends are reached. *)
Theorem getTruncatedSample_range (x : Z) :
  INT24_MIN <= x <= INT24_MAX ->
  -29204 <= getTruncatedSample x <= 29203 /\
  INT16_MIN + 3500 < getTruncatedSample x < INT16_MAX - 3500.
Proof.
  intros H. rewrite getTruncatedSample_reduce by exact H.
  pose proof (damp_range _ (clamp16_range (round_shift x))) as Hd.
  unfold reduce, INT16_MIN, INT16_MAX. lia.
Qed.

Lemma getTruncatedSample_range_witness :
  INT24_MIN <= -8388608 <= INT24_MAX /\
  (-29204 <= getTruncatedSample (-8388608) <= 29203 /\
   INT16_MIN + 3500 < getTruncatedSample (-8388608) < INT16_MAX - 3500).
Proof.
  split.
  - unfold INT24_MIN, INT24_MAX. lia.
  - apply (getTruncatedSample_range (-8388608)).
    unfold INT24_MIN, INT24_MAX. lia.
Defined.

Lemma getTruncatedSample_extremes :
  getTruncatedSample INT24_MIN = -29204 /\
  getTruncatedSample INT24_MAX = 29203 /\
  getTruncatedSample 0 = 0.
Proof. repeat split; reflexivity. Qed.

End BitDepthFacts.

(** ** Lists made of repeated blocks *)

Module BlockFacts.

Section Blocks.
Context {A B : Type}.

Lemma nth_error_repeat_lt (x : A) (n i : nat) :
  (i < n)%nat -> nth_error (repeat x n) i = Some x.
Proof.
  revert i. induction n as [|n IH]; intros i Hi; [lia|].
  destruct i as [|i]; [reflexivity|]. simpl. apply IH. lia.
Qed.

Lemma length_flat_map_repeat (f : B -> A) (N : nat) (l : list B) :
  length (flat_map (fun s => repeat (f s) N) l) = (length l * N)%nat.
Proof.
  induction l as [|s l IH]; [reflexivity|].
  simpl. rewrite length_app, repeat_length, IH. reflexivity.
Qed.

Lemma nth_error_flat_map_repeat (f : B -> A) (N : nat) (l : list B) (q : nat) :
  (0 < N)%nat ->
  nth_error (flat_map (fun s => repeat (f s) N) l) q =
  option_map f (nth_error l (q / N)).
Proof.
  intros HN. revert q. induction l as [|s l IH]; intros q.
  - simpl. rewrite !nth_error_nil. reflexivity.
  - simpl flat_map. destruct (Nat.lt_ge_cases q N) as [Hlt | Hge].
    + rewrite nth_error_app1 by (rewrite repeat_length; exact Hlt).
      rewrite Nat.div_small by exact Hlt.
      simpl. apply nth_error_repeat_lt. exact Hlt.
    + rewrite nth_error_app2 by (rewrite repeat_length; exact Hge).
      rewrite repeat_length, IH.
      replace q with ((q - N) + 1 * N)%nat at 2 by lia.
      rewrite Nat.div_add by lia.
      rewrite Nat.add_1_r. reflexivity.
Qed.

Lemma length_concat_repeat (b : list A) (k : nat) :
  length (concat (repeat b k)) = (k * length b)%nat.
Proof.
  induction k as [|k IH]; [reflexivity|].
  simpl. rewrite length_app, IH. reflexivity.
Qed.

Lemma nth_error_concat_repeat (b : list A) (k q : nat) :
  (q < k * length b)%nat ->
  nth_error (concat (repeat b k)) q = nth_error b (q mod length b).
Proof.
  revert q. induction k as [|k IH]; intros q Hq; [lia|].
  simpl concat. destruct (Nat.lt_ge_cases q (length b)) as [Hlt | Hge].
  - rewrite nth_error_app1 by exact Hlt.
    rewrite Nat.mod_small by exact Hlt. reflexivity.
  - rewrite nth_error_app2 by exact Hge.
    rewrite IH by (simpl in Hq; lia).
    replace q with ((q - length b) + 1 * length b)%nat at 2 by lia.
    rewrite Nat.Div0.mod_add. reflexivity.
Qed.

End Blocks.

End BlockFacts.

(** ** Byte order *)

Module ByteOrderFacts.
Import Machine ByteOrder.

Lemma lor_disjoint_add (a b : Z) : Z.land a b = 0 -> Z.lor a b = a + b.
Proof. intros H. pose proof (Z.add_lor_land a b) as E. rewrite H in E. lia. Qed.

Lemma land_shifted_low (a b : Z) : Z.land (Z.shiftl a 8) (b mod 256) = 0.
Proof.
  apply Z.bits_inj'. intros n Hn.
  rewrite Z.land_spec, Z.bits_0.
  destruct (Z.lt_ge_cases n 8) as [Hlt | Hge].
  - rewrite Z.shiftl_spec_low by exact Hlt. reflexivity.
  - change 256 with (2 ^ 8).
    rewrite Z.mod_pow2_bits_high by lia. apply andb_false_r.
Qed.

(** The swap in terms of the two bytes of the value. *)
Lemma bswap16_arith (x : Z) : bswap16 x = lo_byte x * 256 + hi_byte x.
Proof.
  unfold bswap16, lo_byte, hi_byte.
  change 255 with (Z.ones 8).
  rewrite !Z.land_ones by lia.
  rewrite Z.shiftr_div_pow2 by lia.
  change (2 ^ 8) with 256.
  rewrite lor_disjoint_add by apply land_shifted_low.
  rewrite Z.shiftl_mul_pow2 by lia. reflexivity.
Qed.

Lemma bswap16_uint16 (x : Z) : is_uint16 (bswap16 x).
Proof.
  unfold is_uint16. rewrite bswap16_arith. unfold lo_byte, hi_byte.
  Z.to_euclidean_division_equations. lia.
Qed.

Lemma bswap16_bytes (x : Z) :
  is_uint16 x ->
  lo_byte (bswap16 x) = hi_byte x /\ hi_byte (bswap16 x) = lo_byte x.
Proof.
  unfold is_uint16. intros H. rewrite bswap16_arith. unfold lo_byte, hi_byte.
  Z.to_euclidean_division_equations. lia.
Qed.

Lemma bswap16_involutive (x : Z) : is_uint16 x -> bswap16 (bswap16 x) = x.
Proof.
  unfold is_uint16. intros H.
  rewrite (bswap16_arith (bswap16 x)), (bswap16_arith x).
  unfold lo_byte, hi_byte.
  Z.to_euclidean_division_equations. lia.
Qed.

Lemma htons_involutive (host : endianness) (x : Z) :
  is_uint16 x -> htons host (htons host x) = x.
Proof.
  intros H. destruct host; simpl; [apply bswap16_involutive; exact H | reflexivity].
Qed.

Lemma htons_uint16 (host : endianness) (x : Z) :
  is_uint16 x -> is_uint16 (htons host x).
Proof. intros H. destruct host; simpl; [apply bswap16_uint16 | exact H]. Qed.

Lemma map_htons_involutive (host : endianness) (buff : list Z) :
  Forall is_uint16 buff -> map (htons host) (map (htons host) buff) = buff.
Proof.
  induction 1 as [|x l Hx Hl IH]; [reflexivity|].
  simpl. rewrite htons_involutive by exact Hx. rewrite IH. reflexivity.
Qed.

Lemma map_htons_uint16 (host : endianness) (buff : list Z) :
  Forall is_uint16 buff -> Forall is_uint16 (map (htons host) buff).
Proof.
  induction 1 as [|x l Hx Hl IH]; simpl; constructor;
    [apply htons_uint16; exact Hx | exact IH].
Qed.

(** The query [htonl(23) != 23] tells the byte order of the host. *)
Lemma htonl_query (host : endianness) :
  negb (htonl host 23 =? 23) =
  match host with LittleEndian => true | BigEndian => false end.
Proof. destruct host; reflexivity. Qed.

(** C8. Normalizing twice gives the array back: for every array of 16 bit
    values, [convToBigEndian] applied twice is the identity, on either
    host, and so is the guarded normalization step. *)
Theorem convToBigEndian_involutive (host : endianness) (x : list Z) :
  Forall is_uint16 x ->
  Stereo.convToBigEndian host (Stereo.convToBigEndian host x) = x /\
  BitDepthConv.convToBigEndian host (BitDepthConv.convToBigEndian host x) = x /\
  Stereo.normalize host (Stereo.normalize host x) = x.
Proof.
  intros H.
  unfold Stereo.normalize, Stereo.convToBigEndian, BitDepthConv.convToBigEndian.
  repeat split; try (apply map_htons_involutive; exact H).
  destruct (Stereo.runningOnLittleEndianHost host);
    [apply map_htons_involutive; exact H | reflexivity].
Qed.

Lemma convToBigEndian_involutive_witness :
  Forall is_uint16 [1; 258; 65535] /\
  (Stereo.convToBigEndian LittleEndian
     (Stereo.convToBigEndian LittleEndian [1; 258; 65535]) = [1; 258; 65535] /\
   BitDepthConv.convToBigEndian LittleEndian
     (BitDepthConv.convToBigEndian LittleEndian [1; 258; 65535])
     = [1; 258; 65535] /\
   Stereo.normalize LittleEndian
     (Stereo.normalize LittleEndian [1; 258; 65535]) = [1; 258; 65535]).
Proof.
  assert (H : Forall is_uint16 [1; 258; 65535])
    by (repeat constructor; unfold is_uint16; lia).
  split; [exact H | exact (convToBigEndian_involutive LittleEndian _ H)].
Defined.

Example convToBigEndian_swaps :
  Stereo.convToBigEndian LittleEndian [1; 258; 65535] = [256; 513; 65535].
Proof. reflexivity. Qed.

End ByteOrderFacts.

(** ** The table driven generator: [fillBuffer] *)

Module FillBufferFacts.
Import Machine ByteOrder StereoOpt Vocabulary BlockFacts.

Lemma push_channels_app (o : nat) (s : Z) (buf : list Z) :
  push_channels o s buf = buf ++ repeat (to_uint16 s) o.
Proof.
  revert buf. induction o as [|o IH]; intros buf; simpl.
  - rewrite app_nil_r. reflexivity.
  - rewrite IH, <- app_assoc. reflexivity.
Qed.

Lemma push_period_app (p : Params) (monoSigBuff buf : list Z) :
  push_period p monoSigBuff buf =
  buf ++ interleaved_period (Z.to_nat (AUD_CHANNELS p)) monoSigBuff.
Proof.
  unfold push_period, interleaved_period.
  revert buf. induction monoSigBuff as [|s l IH]; intros buf; simpl.
  - rewrite app_nil_r. reflexivity.
  - rewrite IH, push_channels_app, <- app_assoc. reflexivity.
Qed.

Lemma fillBuffer_loop_app (p : Params) (i : nat) (monoSigBuff buf : list Z) :
  fillBuffer_loop p i monoSigBuff buf =
  buf ++ concat (repeat (interleaved_period (Z.to_nat (AUD_CHANNELS p))
                           monoSigBuff) i).
Proof.
  revert buf. induction i as [|i IH]; intros buf; simpl.
  - rewrite app_nil_r. reflexivity.
  - rewrite IH, push_period_app, <- app_assoc. reflexivity.
Qed.

Lemma fillBuffer_blocks (p : Params) (monoSigBuff : list Z) :
  fillBuffer p monoSigBuff [] =
  concat (repeat (interleaved_period (Z.to_nat (AUD_CHANNELS p)) monoSigBuff)
            (Z.to_nat (SINES_IN_FRAME p))).
Proof. unfold fillBuffer. rewrite fillBuffer_loop_app. reflexivity. Qed.

Lemma length_interleaved_period (N : nat) (monoSigBuff : list Z) :
  length (interleaved_period N monoSigBuff) = (length monoSigBuff * N)%nat.
Proof. apply length_flat_map_repeat. Qed.

Lemma length_fillBuffer (p : Params) (monoSigBuff : list Z) :
  length (fillBuffer p monoSigBuff []) =
  (Z.to_nat (SINES_IN_FRAME p) *
   (length monoSigBuff * Z.to_nat (AUD_CHANNELS p)))%nat.
Proof.
  rewrite fillBuffer_blocks, length_concat_repeat, length_interleaved_period.
  reflexivity.
Qed.

Lemma nth_error_fillBuffer (p : Params) (monoSigBuff : list Z) (q : nat) :
  (q < length (fillBuffer p monoSigBuff []))%nat ->
  nth_error (fillBuffer p monoSigBuff []) q =
  option_map to_uint16
    (nth_error monoSigBuff
       ((q mod (length monoSigBuff * Z.to_nat (AUD_CHANNELS p)))
        / Z.to_nat (AUD_CHANNELS p))).
Proof.
  intros Hq. rewrite length_fillBuffer in Hq.
  rewrite fillBuffer_blocks.
  rewrite nth_error_concat_repeat
    by (rewrite length_interleaved_period; exact Hq).
  rewrite length_interleaved_period.
  unfold interleaved_period. apply nth_error_flat_map_repeat.
  destruct (Z.to_nat (AUD_CHANNELS p)); lia.
Qed.

(** Under the [static_assert] on the frame size, a period table of
    [SAMPLES_PER_SINE] entries fills one frame for all channels. *)
Lemma fillBuffer_capacity (p : Params) (monoSigBuff : list Z) :
  (0 <= PROC_FRAME_SIZE p)%Z -> (0 <= AUD_CHANNELS p)%Z ->
  (PROC_FRAME_SIZE p mod SAMPLES_PER_SINE p = 0)%Z ->
  Z.of_nat (length monoSigBuff) = SAMPLES_PER_SINE p ->
  Z.of_nat (length (fillBuffer p monoSigBuff [])) =
  (PROC_FRAME_SIZE p * AUD_CHANNELS p)%Z.
Proof.
  intros HF HN Hmod Hlen. rewrite length_fillBuffer.
  unfold SINES_IN_FRAME.
  set (sps := SAMPLES_PER_SINE p) in *.
  assert (Hsps : (0 <= sps)%Z) by lia.
  assert (Hq : (0 <= PROC_FRAME_SIZE p / sps)%Z).
  { destruct (Z.eq_dec sps 0) as [E | NE];
      [rewrite E, Z.div_0_r; lia | apply Z.div_pos; lia]. }
  rewrite !Nat2Z.inj_mul, !Z2Nat.id, Hlen by lia.
  destruct (Z.eq_dec sps 0) as [E | NE].
  - rewrite E in *. rewrite Z.mod_0_r in Hmod. rewrite Hmod. reflexivity.
  - pose proof (Z.div_mod (PROC_FRAME_SIZE p) sps NE) as D.
    rewrite Hmod in D. rewrite Z.mul_assoc.
    replace (PROC_FRAME_SIZE p / sps * sps)%Z with (PROC_FRAME_SIZE p) by lia.
    reflexivity.
Qed.

Lemma interleaved_index (n N j o : nat) :
  (o < N)%nat -> (0 < n)%nat ->
  (((j * N + o) mod (n * N)) / N = j mod n)%nat.
Proof.
  intros Ho Hn.
  pose proof (Nat.div_mod_eq j n) as Ej.
  pose proof (Nat.mod_upper_bound j n ltac:(lia)) as Hr.
  set (a := (j / n)%nat) in *. set (r := (j mod n)%nat) in *.
  assert (E : (j * N + o = (r * N + o) + a * (n * N))%nat) by nia.
  rewrite E, Nat.Div0.mod_add.
  rewrite Nat.mod_small by nia.
  rewrite Nat.div_add_l by lia.
  rewrite Nat.div_small by exact Ho. lia.
Qed.

(** [fillBuffer] fills the buffer exactly and periodically: under the
    frame size [static_assert] a table of one period yields
    [PROC_FRAME_SIZE * AUD_CHANNELS] samples; for every channel count [N]
    source sample [j] occupies the [N] slots [j*N .. j*N+N-1], all with the
    value of the table entry [j mod n]; and every position holds what
    position [q mod (n * N)] holds. *)
Lemma fillBuffer_replicates (p : Params) (monoSigBuff : list Z) :
  let N := Z.to_nat (AUD_CHANNELS p) in
  let n := length monoSigBuff in
  let ring := fillBuffer p monoSigBuff [] in
  ((0 <= PROC_FRAME_SIZE p)%Z -> (0 <= AUD_CHANNELS p)%Z ->
   static_asserts p = true ->
   Z.of_nat n = SAMPLES_PER_SINE p ->
   Z.of_nat (length ring) = (PROC_FRAME_SIZE p * AUD_CHANNELS p)%Z) /\
  (forall j o : nat,
     (j < Z.to_nat (SINES_IN_FRAME p) * n)%nat -> (o < N)%nat ->
     nth_error ring (j * N + o) =
     Some (to_uint16 (nth (j mod n) monoSigBuff 0%Z))) /\
  (forall q : nat,
     (q < length ring)%nat ->
     nth_error ring q = nth_error ring (q mod (n * N))).
Proof.
  cbv zeta. repeat split.
  - intros HF HN Hsa Hlen. apply fillBuffer_capacity; try assumption.
    unfold static_asserts in Hsa.
    apply andb_true_iff in Hsa. destruct Hsa as [_ Hsa].
    apply Z.eqb_eq. exact Hsa.
  - intros j o Hj Ho.
    assert (Hn : (0 < length monoSigBuff)%nat) by nia.
    rewrite nth_error_fillBuffer by (rewrite length_fillBuffer; nia).
    rewrite interleaved_index by assumption.
    rewrite (nth_error_nth' monoSigBuff 0%Z)
      by (apply Nat.mod_upper_bound; lia).
    reflexivity.
  - intros q Hq.
    assert (Hpos : (0 < length monoSigBuff * Z.to_nat (AUD_CHANNELS p))%nat)
      by (rewrite length_fillBuffer in Hq; nia).
    set (m := (length monoSigBuff * Z.to_nat (AUD_CHANNELS p))%nat) in *.
    assert (Hm : (q mod m < m)%nat) by (apply Nat.mod_upper_bound; lia).
    rewrite (nth_error_fillBuffer p monoSigBuff q) by exact Hq.
    rewrite (nth_error_fillBuffer p monoSigBuff (q mod m))
      by (rewrite length_fillBuffer in *; fold m in Hq |- *; nia).
    fold m.
    rewrite Nat.Div0.mod_mod. reflexivity.
Qed.

(** The program's own parameters: 24 periods of 48 samples on 2 channels. *)
Example fillBuffer_program_ring :
  length (fillBuffer params monoSine1kHzLoopUp []) = 2304%nat /\
  nth_error (fillBuffer params monoSine1kHzLoopUp []) (49 * 2 + 1) = Some 3027%Z /\
  nth_error (fillBuffer params monoSine1kHzLoopUp []) 2001 =
  nth_error (fillBuffer params monoSine1kHzLoopUp []) (2001 mod (48 * 2)).
Proof.
  destruct (fillBuffer_replicates params monoSine1kHzLoopUp)
    as [Hcap [Hch Hper]].
  assert (Hlen : length (fillBuffer params monoSine1kHzLoopUp []) = 2304%nat).
  { apply Nat2Z.inj. rewrite Hcap; [reflexivity | | | reflexivity | reflexivity];
      simpl; lia. }
  split; [exact Hlen|]. split.
  - assert (E : (Z.to_nat (SINES_IN_FRAME params) * length monoSine1kHzLoopUp
                 = 1152)%nat) by reflexivity.
    assert (E2 : Z.to_nat (AUD_CHANNELS params) = 2%nat) by reflexivity.
    exact (Hch 49%nat 1%nat ltac:(rewrite E; lia) ltac:(rewrite E2; lia)).
  - apply (Hper 2001%nat). rewrite Hlen. lia.
Qed.

End FillBufferFacts.

(** ** The normalisation of the byte order *)

Module NormalizationFacts.
Import Machine MachineFacts ByteOrder StereoOpt Vocabulary ByteOrderVocabulary
  BlockFacts ByteOrderFacts FillBufferFacts.

Lemma to_uint16_is_uint16 (s : Z) : is_uint16 (to_uint16 s).
Proof. unfold is_uint16, to_uint16. apply Z.mod_pos_bound. lia. Qed.

Lemma fillBuffer_is_uint16 (p : Params) (monoSigBuff : list Z) :
  Forall is_uint16 (fillBuffer p monoSigBuff []).
Proof.
  rewrite fillBuffer_blocks.
  apply Forall_concat, Forall_forall. intros b Hb.
  apply repeat_spec in Hb. subst b.
  unfold interleaved_period. apply Forall_flat_map, Forall_forall.
  intros s _. apply Forall_forall. intros v Hv.
  apply repeat_spec in Hv. subst v. apply to_uint16_is_uint16.
Qed.

(** [htons] on a little endian host exchanges the two bytes. *)
Lemma htons_swaps (v : Z) :
  is_uint16 v -> bytes_swapped v (htons LittleEndian v).
Proof.
  intros Hv. cbn [htons]. unfold bytes_swapped.
  destruct (bswap16_bytes v Hv) as [Hlo Hhi].
  split; [apply bswap16_uint16 | split; assumption].
Qed.

Lemma map_htons_swaps (buf : list Z) :
  Forall is_uint16 buf ->
  Forall2 bytes_swapped buf (map (htons LittleEndian) buf).
Proof.
  induction 1 as [|v l Hv Hl IH]; cbn [map]; constructor;
    [apply htons_swaps; exact Hv | exact IH].
Qed.

(** C6. The normalisation follows the byte order of the host.  The query
    [htonl(23) != 23] is true exactly on a little endian host.  On a little
    endian host every element of a 16 bit sample array is replaced, at its
    place, by the value with its two bytes exchanged (the low byte of the
    new value is the high byte of the old one and the other way round); on
    a big endian host the array is left as it is.  So it is in the programs
    that test [runningOnLittleEndianHost()] before they call
    [convToBigEndian], and in [prepWriteBuffer], whose condition is always
    true but whose [htons] does nothing on a big endian host. *)
Theorem normalization_follows_host_byte_order
  (host : endianness) (buf : list Z) (p : Params) (sigBuff : list Z) :
  Forall is_uint16 buf ->
  (Stereo.runningOnLittleEndianHost host =
     match host with LittleEndian => true | BigEndian => false end /\
   BitDepthConv.runningOnLittleEndianHost host =
     match host with LittleEndian => true | BigEndian => false end /\
   StereoOpt.runningOnLittleEndianHost host =
     match host with LittleEndian => true | BigEndian => false end) /\
  match host with
  | LittleEndian =>
    Forall2 bytes_swapped buf (Stereo.normalize host buf) /\
    Forall2 bytes_swapped buf (BitDepthConv.normalize host buf) /\
    Forall2 bytes_swapped (fillBuffer p sigBuff [])
                          (prepWriteBuffer p host sigBuff)
  | BigEndian =>
    Stereo.normalize host buf = buf /\
    BitDepthConv.normalize host buf = buf /\
    prepWriteBuffer p host sigBuff = fillBuffer p sigBuff []
  end.
Proof.
  intros Hbuf. split.
  - unfold Stereo.runningOnLittleEndianHost,
      BitDepthConv.runningOnLittleEndianHost,
      StereoOpt.runningOnLittleEndianHost.
    rewrite htonl_query. repeat split; reflexivity.
  - unfold Stereo.normalize, BitDepthConv.normalize, prepWriteBuffer,
      Stereo.runningOnLittleEndianHost,
      BitDepthConv.runningOnLittleEndianHost,
      function_name_as_condition,
      Stereo.convToBigEndian, BitDepthConv.convToBigEndian, convToBigEndian.
    rewrite htonl_query.
    destruct host.
    + repeat split.
      * apply map_htons_swaps. exact Hbuf.
      * apply map_htons_swaps. exact Hbuf.
      * apply map_htons_swaps. apply fillBuffer_is_uint16.
    + cbn [htons]. rewrite map_id. repeat split; reflexivity.
Qed.

(** The samples 1, 258 and 65535 on a little endian host, and the
    program's table. *)
Lemma normalization_follows_host_byte_order_witness :
  Forall is_uint16 [1; 258; 65535] /\
  Stereo.normalize LittleEndian [1; 258; 65535] = [256; 513; 65535] /\
  Forall2 bytes_swapped [1; 258; 65535]
    (Stereo.normalize LittleEndian [1; 258; 65535]) /\
  Forall2 bytes_swapped [1; 258; 65535]
    (BitDepthConv.normalize LittleEndian [1; 258; 65535]) /\
  Forall2 bytes_swapped (fillBuffer params monoSine1kHzLoopUp [])
    (prepWriteBuffer params LittleEndian monoSine1kHzLoopUp).
Proof.
  assert (H : Forall is_uint16 [1; 258; 65535])
    by (repeat constructor; unfold is_uint16; lia).
  split; [exact H|]. split; [reflexivity|].
  exact (proj2 (normalization_follows_host_byte_order LittleEndian
                  [1; 258; 65535] params monoSine1kHzLoopUp H)).
Defined.

End NormalizationFacts.

(** ** The frame loop of the stereo generator *)

Module FrameLoopFacts.
Import Machine MachineFacts Stereo Vocabulary.

Lemma to_size_t_small (x : Z) : 0 <= x < 2 ^ 64 -> to_size_t x = x.
Proof. intros H. apply Z.mod_small. exact H. Qed.

Lemma length_slice (l : list Z) (a b : Z) :
  0 <= a <= b -> b <= Z.of_nat (length l) ->
  Z.of_nat (length (slice l a b)) = b - a.
Proof.
  intros Hab Hb. unfold slice.
  rewrite length_firstn, length_skipn. lia.
Qed.

Lemma nth_error_slice (l : list Z) (a b : Z) (j : nat) :
  0 <= a -> Z.of_nat j < b - a ->
  nth_error (slice l a b) j = nth_error l (Z.to_nat a + j).
Proof.
  intros Ha Hj. unfold slice.
  rewrite nth_error_firstn.
  destruct (Nat.ltb_spec j (Z.to_nat (b - a))) as [_ | H]; [|lia].
  apply nth_error_skipn.
Qed.

Section Emission.
Variables (F N : Z) (buf : list Z).
Let C : Z := Z.of_nat (length buf).
Hypothesis frame_fits : 0 <= F * N <= C.
Hypothesis sizes_fit_int : C + F * N <= INT_MAX.

Lemma buffSampleCount_exact : buffSampleCount buf = C.
Proof.
  unfold buffSampleCount. apply to_size_t_small.
  unfold INT_MAX in sizes_fit_int. subst C. lia.
Qed.

Lemma nextFramePosEnd_exact (c : Z) :
  0 <= c < C ->
  to_size_t (to_int32 (to_size_t (to_size_t c + to_size_t (F * N))))
  = c + F * N.
Proof.
  intros Hc. unfold INT_MAX in sizes_fit_int.
  rewrite (to_size_t_small c) by lia.
  rewrite (to_size_t_small (F * N)) by lia.
  rewrite (to_size_t_small (c + F * N)) by lia.
  rewrite to_int32_small by lia.
  apply to_size_t_small. lia.
Qed.

Lemma nextFrame_contiguous (c rem : Z) :
  0 <= c < C -> c + F * N <= C ->
  nextFrame F N buf {| writePos := c; writePosReminder := rem |}
  = (slice buf c (c + F * N), rem).
Proof.
  intros Hc Hend. unfold nextFrame. cbn [writePos writePosReminder].
  rewrite nextFramePosEnd_exact, buffSampleCount_exact by exact Hc.
  rewrite Z.gtb_ltb.
  destruct (Z.ltb_spec C (c + F * N)) as [H | _]; [lia|].
  unfold copy_n, slice. replace (c + F * N - c) with (F * N) by lia.
  reflexivity.
Qed.

Lemma nextFrame_spliced (c rem : Z) :
  0 <= c < C -> C < c + F * N ->
  nextFrame F N buf {| writePos := c; writePosReminder := rem |}
  = (slice buf c C ++ slice buf 0 (F * N - (C - c)), F * N - (C - c)).
Proof.
  intros Hc Hend. unfold nextFrame. cbn [writePos writePosReminder].
  rewrite nextFramePosEnd_exact, buffSampleCount_exact by exact Hc.
  rewrite Z.gtb_ltb.
  destruct (Z.ltb_spec C (c + F * N)) as [_ | H]; [|lia].
  unfold INT_MAX in sizes_fit_int.
  rewrite (to_size_t_small c) by lia.
  rewrite (to_size_t_small (C - c)) by lia.
  rewrite (to_size_t_small (F * N)) by lia.
  rewrite (to_size_t_small (F * N - (C - c))) by lia.
  rewrite to_int32_small by lia.
  f_equal.
  change (copy_n buf c (C - c)) with (slice buf c C).
  replace (copy_n buf 0 (F * N - (C - c)))
    with (slice buf 0 (F * N - (C - c)))
    by (unfold slice, copy_n; rewrite Z.sub_0_r; reflexivity).
  unfold copy_n. simpl skipn.
  apply firstn_all2.
  apply Nat2Z.inj_le. rewrite length_app, Nat2Z.inj_add.
  rewrite !length_slice by (fold C; lia).
  lia.
Qed.

End Emission.

(** C1. Frame emission in both branches, for every cursor [c], frame length
    [F], channel count [N] and buffer of capacity [C] with [F*N <= C] and
    [0 <= c < C] (sizes that fit an [int], as the program's do): if
    [c + F*N <= C] the frame is [buffer[c, c+F*N)]; otherwise it is
    [buffer[c, C)] followed by [buffer[0, headCount)] with
    [headCount = F*N - (C - c)], and the reminder carried to the next pass
    is [headCount], which is positive. *)
Theorem nextFrame_emission (F N : Z) (buf : list Z) (c rem : Z) :
  let C := Z.of_nat (length buf) in
  let headCount := F * N - (C - c) in
  0 <= F * N <= C -> 0 <= c < C -> C + F * N <= INT_MAX ->
  (c + F * N <= C ->
   nextFrame F N buf {| writePos := c; writePosReminder := rem |}
   = (slice buf c (c + F * N), rem)) /\
  (C < c + F * N ->
   nextFrame F N buf {| writePos := c; writePosReminder := rem |}
   = (slice buf c C ++ slice buf 0 headCount, headCount) /\
   0 < headCount).
Proof.
  intros C headCount HF Hc Hint. split.
  - intros Hend. apply nextFrame_contiguous; assumption.
  - intros Hend. split; [|subst headCount; lia].
    apply nextFrame_spliced; assumption.
Qed.

Lemma nextFrame_emission_witness :
  nextFrame 2 2 [10; 11; 12; 13; 14; 15]
    {| writePos := 4; writePosReminder := 0 |}
  = ([14; 15; 10; 11], 2) /\
  nextFrame 2 2 [10; 11; 12; 13; 14; 15]
    {| writePos := 2; writePosReminder := 7 |}
  = ([12; 13; 14; 15], 7).
Proof.
  split.
  - refine (proj1 (proj2 (nextFrame_emission 2 2 [10; 11; 12; 13; 14; 15] 4 0
                            _ _ _) _)); simpl; unfold INT_MAX; lia.
  - refine (proj1 (nextFrame_emission 2 2 [10; 11; 12; 13; 14; 15] 2 7
                     _ _ _) _); simpl; unfold INT_MAX; lia.
Defined.

(** Either way the frame reads the ring cyclically from the cursor on. *)
Lemma nextFrame_cyclic (F N : Z) (buf : list Z) (c rem : Z) (j : nat) :
  let C := Z.of_nat (length buf) in
  0 <= F * N <= C -> 0 <= c < C -> C + F * N <= INT_MAX ->
  Z.of_nat j < F * N ->
  nth_error (fst (nextFrame F N buf {| writePos := c; writePosReminder := rem |})) j
  = nth_error buf (Z.to_nat ((c + Z.of_nat j) mod C)).
Proof.
  intros C HF Hc Hint Hj. subst C.
  set (C := Z.of_nat (length buf)) in *.
  destruct (Z.le_gt_cases (c + F * N) C) as [Hend | Hend].
  - rewrite nextFrame_contiguous by assumption. cbn [fst].
    rewrite nth_error_slice by lia.
    rewrite Z.mod_small by lia. f_equal. lia.
  - rewrite nextFrame_spliced by assumption. cbn [fst]. fold C.
    assert (Hlen : Z.of_nat (length (slice buf c C)) = C - c)
      by (apply length_slice; fold C; lia).
    destruct (Z.lt_ge_cases (c + Z.of_nat j) C) as [Hlt | Hge].
    + rewrite nth_error_app1 by lia.
      rewrite nth_error_slice by lia.
      rewrite Z.mod_small by lia. f_equal. lia.
    + rewrite nth_error_app2 by lia.
      rewrite nth_error_slice by lia.
      replace ((c + Z.of_nat j) mod C) with (c + Z.of_nat j - C).
      * f_equal. lia.
      * apply Z.mod_unique with (q := 1); lia.
Qed.

(** *** The loops as a whole *)

Lemma snd_nextFrame (F N : Z) (buf : list Z) (c : Cursor) :
  snd (nextFrame F N buf c) = reminder_after F N (buffSampleCount buf) c.
Proof.
  unfold nextFrame, reminder_after.
  destruct (_ >? _); reflexivity.
Qed.

(** The frames of a run are read at the cursors that the sizes and the
    replies determine. *)
Lemma playback_cursors (F N : Z) (buf : list Z) (passes : nat) :
  forall (replies : list SinkReply) (reminder : Z),
  playback F N buf passes replies reminder =
  map (fun c => fst (nextFrame F N buf c))
      (cursors F N (buffSampleCount buf) passes replies reminder).
Proof.
  induction passes as [|p IHp]; intros replies reminder; [reflexivity|].
  cbn [playback cursors].
  generalize ({| writePos := reminder; writePosReminder := reminder |}) as c.
  induction replies as [|r rest IHr]; intros c.
  - destruct (to_size_t (writePos c) <? buffSampleCount buf);
      [reflexivity | apply IHp].
  - destruct (to_size_t (writePos c) <? buffSampleCount buf); [|apply IHp].
    unfold iteration.
    pose proof (snd_nextFrame F N buf c) as Hs.
    destruct (nextFrame F N buf c) as [frame reminder'] eqn:En.
    cbn [snd] in Hs. subst reminder'.
    destruct (frames_of r <? 0); cbn [map writePosReminder];
      rewrite En; cbn [fst]; f_equal.
    + apply IHp.
    + apply IHr.
Qed.

Lemma length_ramp (n : nat) (z : Z) : length (ramp n z) = n.
Proof.
  revert z. induction n as [|n IH]; intros z; simpl; [|rewrite IH]; reflexivity.
Qed.

Lemma nth_error_ramp (n j : nat) (z : Z) :
  (j < n)%nat -> nth_error (ramp n z) j = Some (z + Z.of_nat j).
Proof.
  revert j z. induction n as [|n IH]; intros j z Hj; [lia|].
  destruct j as [|j]; simpl ramp; cbn [nth_error].
  - f_equal. lia.
  - rewrite IH by lia. f_equal. lia.
Qed.

(** A ring of six samples, frames of two stereo samples: the first three
    frames follow the ring round, the fourth starts again where the third
    started instead of at the head of the ring. *)
Example small_ring_run :
  playback 2 2 [10; 11; 12; 13; 14; 15] 30 (repeat (full_write 2) 4) 0
  = [[10; 11; 12; 13]; [14; 15; 10; 11]; [12; 13; 14; 15]; [12; 13; 14; 15]] /\
  cyclic_stream [10; 11; 12; 13; 14; 15] 4 (4 * 2 * 2)
  = [10; 11; 12; 13; 14; 15; 10; 11; 12; 13; 14; 15; 10; 11; 12; 13].
Proof. split; reflexivity. Qed.

(** The cursors of the program's own loop, 96000 samples in frames of 2304:
    the third pass ends exactly at the end of the ring (93696 + 2304), so
    it leaves the reminder of the second pass, and the fourth pass starts
    at 1536 after 125 frames, that is 3 * 96000 samples. *)
Lemma program_cursors :
  map writePos
    (cursors PROC_SIN_FRAME_SIZE 2 BUFFER_SIZE _simulationDurSec
       (repeat (full_write PROC_SIN_FRAME_SIZE) 127) 0)
  = map (fun i => 2304 * Z.of_nat i) (seq 0 41) ++ [94464]
    ++ map (fun i => 768 + 2304 * Z.of_nat i) (seq 0 41) ++ [95232]
    ++ map (fun i => 1536 + 2304 * Z.of_nat i) (seq 0 41)
    ++ [1536; 3840].
Proof. vm_compute. reflexivity. Qed.

(** C2 (what the code does). With the program's sizes and a sink that takes
    every frame whole, for every ring of 96000 samples the 126th frame is
    read at position 1536, although 125 frames are 3 * 96000 samples and
    the cyclic reading of the ring is back at position 0. *)
Theorem frame_loop_stale_reminder (buf : list Z) :
  Z.of_nat (length buf) = BUFFER_SIZE ->
  nth_error
    (frame_loop buf (repeat (full_write PROC_SIN_FRAME_SIZE) 126)) 125
  = Some (slice buf 1536 (1536 + 2304)) /\
  125 * (PROC_SIN_FRAME_SIZE * 2) = 3 * BUFFER_SIZE.
Proof.
  intros Hlen. split; [|reflexivity].
  unfold frame_loop. rewrite playback_cursors.
  assert (HC : buffSampleCount buf = BUFFER_SIZE).
  { unfold buffSampleCount. rewrite Hlen. reflexivity. }
  rewrite HC, nth_error_map.
  replace (nth_error (cursors PROC_SIN_FRAME_SIZE 2 BUFFER_SIZE _simulationDurSec
                        (repeat (full_write PROC_SIN_FRAME_SIZE) 126) 0) 125)
    with (Some {| writePos := 1536; writePosReminder := 1536 |})
    by (vm_compute; reflexivity).
  cbn [option_map]. f_equal.
  rewrite (nextFrame_contiguous PROC_SIN_FRAME_SIZE 2 buf);
    rewrite ?Hlen; unfold PROC_SIN_FRAME_SIZE, BUFFER_SIZE, INT_MAX; try lia.
  reflexivity.
Qed.

(** On the ring that counts 0, 1, 2, ... the 126th frame starts with the
    sample 1536, where the cyclic reading has the sample 0. *)
Lemma frame_loop_stale_reminder_witness :
  Z.of_nat (length (ramp (Z.to_nat 96000) 0)) = BUFFER_SIZE /\
  (nth_error
     (frame_loop (ramp (Z.to_nat 96000) 0)
        (repeat (full_write PROC_SIN_FRAME_SIZE) 126)) 125
   = Some (slice (ramp (Z.to_nat 96000) 0) 1536 (1536 + 2304)) /\
   125 * (PROC_SIN_FRAME_SIZE * 2) = 3 * BUFFER_SIZE).
Proof.
  assert (H : Z.of_nat (length (ramp (Z.to_nat 96000) 0)) = BUFFER_SIZE)
    by (rewrite length_ramp, Z2Nat.id by lia; reflexivity).
  split; [exact H | exact (frame_loop_stale_reminder _ H)].
Defined.

Lemma ramp_frame_heads :
  nth_error (slice (ramp (Z.to_nat 96000) 0) 1536 (1536 + 2304)) 0 = Some 1536 /\
  nth_error (slice (ramp (Z.to_nat 96000) 0) 0 2304) 0 = Some 0.
Proof.
  split; rewrite nth_error_slice by lia;
    rewrite nth_error_ramp by lia; reflexivity.
Qed.

End FrameLoopFacts.

(** ** The cursor of the frame loop *)

Module CursorFacts.
Import Machine MachineFacts Stereo Vocabulary CursorVocabulary FrameLoopFacts.

Lemma cursors_nil (F N count : Z) (passes : nat) :
  forall reminder : Z, cursors F N count passes [] reminder = [].
Proof.
  induction passes as [|p IH]; intros reminder; [reflexivity|].
  cbn [cursors]. destruct (_ <? count); [reflexivity | apply IH].
Qed.

(** A pass starts at the reminder. *)
Lemma cursors_head (F N count : Z) (passes : nat) :
  forall (replies : list SinkReply) (reminder : Z) (c : Cursor),
  nth_error (cursors F N count passes replies reminder) 0 = Some c ->
  c = {| writePos := reminder; writePosReminder := reminder |}.
Proof.
  induction passes as [|p IH]; intros replies reminder c H; [discriminate|].
  cbn [cursors] in H.
  destruct replies as [|r rest].
  - destruct (_ <? count); [discriminate|].
    rewrite cursors_nil in H. discriminate.
  - destruct (_ <? count).
    + cbn [nth_error] in H. congruence.
    + cbn [writePosReminder] in H. apply (IH _ _ _ H).
Qed.

(** Two frames in a row: the second is read where [next_cursor] says. *)
Lemma cursors_step (F N count : Z) (passes : nat) :
  forall (replies : list SinkReply) (reminder : Z) (i : nat)
         (ci cj : Cursor) (r : SinkReply),
  nth_error (cursors F N count passes replies reminder) i = Some ci ->
  nth_error replies i = Some r ->
  nth_error (cursors F N count passes replies reminder) (S i) = Some cj ->
  cj = next_cursor F N count ci r.
Proof.
  induction passes as [|p IHp]; intros replies reminder i ci cj r;
    [discriminate|].
  cbn [cursors].
  generalize ({| writePos := reminder; writePosReminder := reminder |}) as c.
  revert i.
  induction replies as [|r0 rest IHr]; intros i c Hi Hr Hj.
  - destruct i; discriminate.
  - destruct (Z.ltb_spec (to_size_t (writePos c)) count) as [Hin | Hout];
      [|apply (IHp _ _ _ _ _ _ Hi Hr Hj)].
    destruct i as [|i].
    + cbn [nth_error] in Hi, Hr, Hj.
      injection Hi as <-. injection Hr as <-.
      unfold next_cursor.
      destruct (Z.ltb_spec (frames_of r0) 0) as [Hneg | Hpos];
        cbn [orb].
      * apply (cursors_head _ _ _ _ _ _ _ Hj).
      * destruct rest as [|r1 rest'].
        -- destruct (_ <? count); [discriminate|].
           rewrite cursors_nil in Hj. discriminate.
        -- cbn [writePos writePosReminder] in Hj.
           destruct (Z.ltb_spec
                       (to_size_t (to_int32 (writePos c + frames_of r0 * N)))
                       count) as [Hin' | Hout']; cbn [negb].
           ++ cbn [nth_error] in Hj. congruence.
           ++ apply (cursors_head _ _ _ _ _ _ _ Hj).
    + cbn [nth_error] in Hi, Hr, Hj.
      destruct (frames_of r0 <? 0).
      * apply (IHp _ _ _ _ _ _ Hi Hr Hj).
      * apply (IHr _ _ Hi Hr Hj).
Qed.

(** C7, as stated, fails after a short write on a spliced frame: on a ring
    of 10 samples with frames of 6 (3 frames of 2 channels) the frame at
    cursor 6 is spliced with [headCount = 2]; the sink takes 1 frame of it,
    and the loop reads the next frame at 8, where the sink stopped, not at
    2; the reminder, by then 4, is used when the write position has left
    the ring. *)
Lemma short_write_on_spliced_frame :
  nextFrame 3 2 [0; 1; 2; 3; 4; 5; 6; 7; 8; 9]
    {| writePos := 6; writePosReminder := 0 |} = ([6; 7; 8; 9; 0; 1], 2) /\
  snd (fst (iteration 3 2 [0; 1; 2; 3; 4; 5; 6; 7; 8; 9]
              {| writePos := 6; writePosReminder := 0 |}
              {| written := 1; recovered := 0 |}))
  = {| writePos := 8; writePosReminder := 2 |} /\
  playback 3 2 [0; 1; 2; 3; 4; 5; 6; 7; 8; 9] 3
    [full_write 3; {| written := 1; recovered := 0 |};
     full_write 3; full_write 3] 0
  = [[0; 1; 2; 3; 4; 5]; [6; 7; 8; 9; 0; 1]; [8; 9; 0; 1; 2; 3];
     [4; 5; 6; 7; 8; 9]] /\
  map writePos
    (cursors 3 2 10 3
       [full_write 3; {| written := 1; recovered := 0 |};
        full_write 3; full_write 3] 0)
  = [0; 6; 8; 4].
Proof. repeat split; reflexivity. Qed.

(** C7, amended.  The cursor after one turn of the inner loop at position
    [c], and where the loop reads next.  The reminder is left as it was
    without wraparound and is [headCount] with wraparound, whatever the
    sink replied.  The write position advances in both branches by the
    samples the sink took, [frames * N], and stays where it was after a
    failed write.  The frames of a run are read at the cursors of the run,
    and the cursor after [c] is the advanced write position as long as the
    write did not fail and the position is inside the ring; otherwise it is
    the reminder, with which the next pass starts. *)
Theorem cursor_advance_by_branch (F N : Z) (buf : list Z) (c rem : Z)
  (r : SinkReply) :
  let C := Z.of_nat (length buf) in
  let headCount := F * N - (C - c) in
  let after := snd (fst (iteration F N buf
                           {| writePos := c; writePosReminder := rem |} r)) in
  0 <= F * N <= C -> 0 <= c < C -> C + F * N <= INT_MAX ->
  (c + F * N <= C -> writePosReminder after = rem) /\
  (C < c + F * N -> writePosReminder after = headCount) /\
  (0 <= frames_of r <= F -> writePos after = c + frames_of r * N) /\
  (frames_of r < 0 -> writePos after = c) /\
  (forall (passes : nat) (replies : list SinkReply) (reminder : Z),
     playback F N buf passes replies reminder =
     map (fun c' => fst (nextFrame F N buf c'))
         (cursors F N (buffSampleCount buf) passes replies reminder)) /\
  (forall (passes : nat) (replies : list SinkReply) (reminder : Z)
          (i : nat) (next : Cursor),
     frames_of r <= F ->
     nth_error (cursors F N (buffSampleCount buf) passes replies reminder) i
       = Some {| writePos := c; writePosReminder := rem |} ->
     nth_error replies i = Some r ->
     nth_error (cursors F N (buffSampleCount buf) passes replies reminder)
               (S i) = Some next ->
     next = if (0 <=? frames_of r) && (c + frames_of r * N <? C)
            then {| writePos := c + frames_of r * N;
                    writePosReminder := writePosReminder after |}
            else {| writePos := writePosReminder after;
                    writePosReminder := writePosReminder after |}).
Proof.
  intros C headCount after HF Hc Hint.
  assert (Hrem : writePosReminder after
                 = reminder_after F N (buffSampleCount buf)
                     {| writePos := c; writePosReminder := rem |}).
  { subst after. unfold iteration.
    rewrite <- snd_nextFrame.
    destruct (nextFrame F N buf _) as [frame reminder'].
    destruct (frames_of r <? 0); reflexivity. }
  assert (Hwp : 0 <= frames_of r <= F -> writePos after = c + frames_of r * N).
  { intros Hfr. subst after. unfold iteration.
    destruct (nextFrame F N buf _) as [frame reminder'].
    destruct (Z.ltb_spec (frames_of r) 0) as [H | _]; [lia|].
    cbn [fst snd writePos]. apply to_int32_small.
    unfold INT_MAX in Hint.
    assert (0 <= frames_of r * N <= F * N)
      by (destruct (Z.le_gt_cases 0 N); nia).
    lia. }
  split; [|split; [|split; [|split; [|split]]]].
  - intros Hend. subst after. unfold iteration.
    rewrite (nextFrame_contiguous F N buf HF Hint c rem Hc Hend).
    destruct (frames_of r <? 0); reflexivity.
  - intros Hend. subst after. unfold iteration.
    rewrite (nextFrame_spliced F N buf HF Hint c rem Hc Hend).
    destruct (frames_of r <? 0); reflexivity.
  - exact Hwp.
  - intros Hneg. subst after. unfold iteration.
    destruct (nextFrame F N buf _) as [frame reminder'].
    destruct (Z.ltb_spec (frames_of r) 0) as [_ | H]; [reflexivity | lia].
  - intros passes replies reminder. apply playback_cursors.
  - intros passes replies reminder i next Hle Hi Hr Hj.
    rewrite (cursors_step F N _ passes replies reminder i _ next r Hi Hr Hj).
    unfold next_cursor. rewrite <- Hrem. cbn [writePos].
    rewrite (buffSampleCount_exact F N buf HF Hint). fold C.
    destruct (Z.ltb_spec (frames_of r) 0) as [Hneg | Hpos].
    + destruct (Z.leb_spec 0 (frames_of r)) as [H | _]; [lia|]. reflexivity.
    + destruct (Z.leb_spec 0 (frames_of r)) as [_ | H]; [|lia].
      cbn [orb andb].
      assert (Hb : 0 <= frames_of r * N <= F * N)
        by (destruct (Z.le_gt_cases 0 N); nia).
      unfold INT_MAX in Hint.
      rewrite to_int32_small by lia.
      rewrite to_size_t_small by lia.
      destruct (c + frames_of r * N <? C); reflexivity.
Qed.

(** The ring of 10 samples again: the frame at 6 is spliced, the sink takes
    1 of its 3 frames, and the next frame is read at 8 with the reminder
    2. *)
Lemma cursor_advance_by_branch_witness :
  (writePosReminder (snd (fst (iteration 3 2 [0; 1; 2; 3; 4; 5; 6; 7; 8; 9]
      {| writePos := 6; writePosReminder := 0 |}
      {| written := 1; recovered := 0 |}))) = 3 * 2 - (10 - 6) /\
   writePos (snd (fst (iteration 3 2 [0; 1; 2; 3; 4; 5; 6; 7; 8; 9]
      {| writePos := 6; writePosReminder := 0 |}
      {| written := 1; recovered := 0 |}))) = 6 + 1 * 2) /\
  nth_error
    (cursors 3 2 (buffSampleCount [0; 1; 2; 3; 4; 5; 6; 7; 8; 9]) 3
       [full_write 3; {| written := 1; recovered := 0 |};
        full_write 3; full_write 3] 0) 2
  = Some {| writePos := 8; writePosReminder := 2 |}.
Proof.
  destruct (cursor_advance_by_branch 3 2 [0; 1; 2; 3; 4; 5; 6; 7; 8; 9] 6 0
              {| written := 1; recovered := 0 |})
    as [_ [Hhead [Hpos [_ [_ Hnext]]]]];
    try (simpl; unfold INT_MAX; lia).
  split; [split|].
  - apply Hhead. simpl. lia.
  - apply Hpos. unfold frames_of. simpl. lia.
  - assert (E : exists next,
               nth_error
                 (cursors 3 2 (buffSampleCount [0; 1; 2; 3; 4; 5; 6; 7; 8; 9])
                    3 [full_write 3; {| written := 1; recovered := 0 |};
                       full_write 3; full_write 3] 0) 2 = Some next)
      by (eexists; reflexivity).
    destruct E as [next E]. rewrite E. f_equal.
    rewrite (Hnext 3%nat
               [full_write 3; {| written := 1; recovered := 0 |};
                full_write 3; full_write 3] 0 1%nat next);
      [reflexivity | unfold frames_of; simpl; lia | reflexivity
      | reflexivity | exact E].
Defined.

End CursorFacts.

(** ** Double precision arithmetic *)

Module DoubleFacts.
Import DoubleModel.
Local Open Scope R_scope.

Lemma Rtrunc_pos (x : R) (t : Z) :
  (0 <= t)%Z -> IZR t <= x < IZR t + 1 -> Rtrunc x = t.
Proof.
  intros Ht Hx. unfold Rtrunc.
  assert (0 <= IZR t) by (apply IZR_le; exact Ht).
  destruct (Rle_dec 0 x) as [_ | Hn]; [apply Zfloor_eq; exact Hx | lra].
Qed.

Lemma Rtrunc_neg (x : R) (t : Z) :
  (t <= 0)%Z -> IZR t - 1 < x <= IZR t -> Rtrunc x = t.
Proof.
  intros Ht Hx. unfold Rtrunc.
  assert (Ht0 : IZR t <= 0) by (apply IZR_le; exact Ht).
  destruct (Rle_dec 0 x) as [Hp | _].
  - assert (E : IZR t = 0) by lra.
    apply eq_IZR in E. subst t.
    apply Zfloor_eq. simpl. lra.
  - apply Zceil_eq. exact Hx.
Qed.

Lemma Rtrunc_zero (x : R) : -1 < x < 1 -> Rtrunc x = 0%Z.
Proof.
  intros Hx. destruct (Rle_dec 0 x).
  - apply Rtrunc_pos; simpl; [lia | lra].
  - apply Rtrunc_neg; simpl; [lia | lra].
Qed.

Lemma Rabs_le_both (d e : R) : Rabs d <= e -> - e <= d <= e.
Proof. intros H. unfold Rabs in H. destruct (Rcase_abs d); lra. Qed.

Lemma Rabs_same (x : R) : Rabs (x - x) = 0.
Proof. rewrite Rminus_diag. apply Rabs_R0. Qed.

Lemma sin_abs_le (t : R) : Rabs (sin t) <= Rabs t.
Proof.
  pose proof (SIN_bound t) as Hb.
  destruct (Rtotal_order t 0) as [Hn | [Hz | Hp]].
  - rewrite (Rabs_left t) by exact Hn.
    pose proof (sin_lt_x (- t) ltac:(lra)) as H. rewrite sin_neg in H.
    apply Rabs_le. split; [lra|].
    destruct (Rle_dec (- t) 1) as [H1 | H1]; [|lra].
    pose proof PI2_1.
    pose proof (sin_lt_0_var t ltac:(lra) Hn). lra.
  - subst. rewrite sin_0, Rabs_R0. lra.
  - rewrite (Rabs_right t) by lra.
    pose proof (sin_lt_x t Hp) as H.
    apply Rabs_le. split; [|lra].
    destruct (Rle_dec t 1) as [H1 | H1]; [|lra].
    pose proof PI2_1.
    pose proof (sin_gt_0 t Hp ltac:(lra)). lra.
Qed.

Lemma sin_lipschitz (x y : R) : Rabs (sin x - sin y) <= Rabs (x - y).
Proof.
  rewrite form4, !Rabs_mult.
  pose proof (COS_bound ((x + y) / 2)) as Hc.
  assert (H1 : Rabs (cos ((x + y) / 2)) <= 1) by (apply Rabs_le; lra).
  pose proof (sin_abs_le ((x - y) / 2)) as Hs.
  assert (E : Rabs ((x - y) / 2) = Rabs (x - y) / 2).
  { unfold Rdiv. rewrite Rabs_mult, (Rabs_right (/ 2)) by lra. reflexivity. }
  rewrite (Rabs_right 2) by lra.
  pose proof (Rabs_pos (sin ((x - y) / 2))).
  pose proof (Rabs_pos (cos ((x + y) / 2))).
  nra.
Qed.

Lemma product_close (a a0 b b0 ea eb A B : R) :
  Rabs (a - a0) <= ea -> Rabs (b - b0) <= eb ->
  Rabs a0 <= A -> Rabs b0 <= B ->
  Rabs (a * b - a0 * b0) <= ea * (B + eb) + A * eb /\
  Rabs (a * b) <= (A + ea) * (B + eb).
Proof.
  intros Ha Hb HA HB.
  pose proof (Rabs_pos (a - a0)). pose proof (Rabs_pos (b - b0)).
  pose proof (Rabs_pos a0). pose proof (Rabs_pos b0).
  assert (Hb' : Rabs b <= B + eb).
  { replace b with (b0 + (b - b0)) by ring.
    eapply Rle_trans; [apply Rabs_triang|]. lra. }
  assert (Ha' : Rabs a <= A + ea).
  { replace a with (a0 + (a - a0)) by ring.
    eapply Rle_trans; [apply Rabs_triang|]. lra. }
  pose proof (Rabs_pos a). pose proof (Rabs_pos b).
  split.
  - replace (a * b - a0 * b0) with ((a - a0) * b + a0 * (b - b0)) by ring.
    eapply Rle_trans; [apply Rabs_triang|].
    rewrite !Rabs_mult.
    apply Rplus_le_compat; apply Rmult_le_compat; lra.
  - rewrite Rabs_mult. apply Rmult_le_compat; lra.
Qed.

Section Errors.
Variable fa : arithmetic.
Hypothesis Hfa : admissible fa.

Lemma rnd_close (x x0 e X : R) :
  Rabs (x - x0) <= e -> Rabs x <= X -> X <= huge ->
  Rabs (rnd fa x - x0) <= e + (unit_roundoff * X + tiny).
Proof.
  intros He HX Hh.
  destruct Hfa as [Hr _].
  pose proof (Hr x ltac:(lra)) as H.
  replace (rnd fa x - x0) with ((rnd fa x - x) + (x - x0)) by ring.
  eapply Rle_trans; [apply Rabs_triang|].
  assert (0 < unit_roundoff) by (unfold unit_roundoff; lra).
  assert (unit_roundoff * Rabs x <= unit_roundoff * X)
    by (apply Rmult_le_compat_l; lra).
  lra.
Qed.

Lemma rnd_literal (x X e : R) :
  Rabs x <= X -> X <= huge -> unit_roundoff * X + tiny <= e ->
  Rabs (rnd fa x - x) <= e.
Proof.
  intros HX Hh He.
  pose proof (rnd_close x x 0 X) as H.
  rewrite Rabs_same in H.
  specialize (H ltac:(lra) HX Hh). lra.
Qed.

Lemma fmul_close (a a0 b b0 ea eb A B e : R) :
  Rabs (a - a0) <= ea -> Rabs (b - b0) <= eb ->
  Rabs a0 <= A -> Rabs b0 <= B ->
  (A + ea) * (B + eb) <= huge ->
  ea * (B + eb) + A * eb + (unit_roundoff * ((A + ea) * (B + eb)) + tiny) <= e ->
  Rabs (fmul fa a b - a0 * b0) <= e.
Proof.
  intros Ha Hb HA HB Hh He.
  destruct (product_close a a0 b b0 ea eb A B Ha Hb HA HB) as [H1 H2].
  eapply Rle_trans; [|exact He].
  unfold fmul. apply rnd_close; assumption.
Qed.

End Errors.

Lemma exact_arithmetic_admissible : admissible exact_arithmetic.
Proof.
  split; intros x; cbn [rnd libm_sin exact_arithmetic].
  - intros _. rewrite Rabs_same.
    pose proof (Rabs_pos x).
    assert (0 < unit_roundoff) by (unfold unit_roundoff; lra).
    unfold tiny. nra.
  - rewrite Rabs_same. unfold sin_error. lra.
Qed.

End DoubleFacts.

(** ** Fixed point enclosures *)

Module EnclosureFacts.
Import DoubleModel DoubleFacts Enclosure.
Local Open Scope R_scope.

Lemma scale_pos : 0 < IZR scale.
Proof. apply IZR_lt. reflexivity. Qed.

Lemma floor_div_le (z d : Z) : (0 < d)%Z -> IZR (z / d) * IZR d <= IZR z.
Proof.
  intros Hd. rewrite <- mult_IZR. apply IZR_le.
  rewrite Z.mul_comm. apply Z.mul_div_le. exact Hd.
Qed.

Lemma ceil_div_ge (z d : Z) :
  (0 < d)%Z -> IZR z <= IZR (- ((- z) / d)) * IZR d.
Proof.
  intros Hd. rewrite <- mult_IZR. apply IZR_le.
  pose proof (Z.mul_div_le (- z) d Hd). lia.
Qed.

Lemma contains_izero : contains izero 0.
Proof. unfold contains, izero. cbn [lo hi]. lra. Qed.

Lemma contains_ione : contains ione 1.
Proof. unfold contains, ione. cbn [lo hi]. lra. Qed.

Lemma contains_iadd (a b : ival) (x y : R) :
  contains a x -> contains b y -> contains (iadd a b) (x + y).
Proof. unfold contains, iadd. cbn [lo hi]. rewrite !plus_IZR. intros. lra. Qed.

Lemma contains_isub (a b : ival) (x y : R) :
  contains a x -> contains b y -> contains (isub a b) (x - y).
Proof. unfold contains, isub. cbn [lo hi]. rewrite !minus_IZR. intros. lra. Qed.

Lemma contains_ineg (a : ival) (x : R) :
  contains a x -> contains (ineg a) (- x).
Proof. unfold contains, ineg. cbn [lo hi]. rewrite !opp_IZR. intros. lra. Qed.

Lemma contains_idouble (a : ival) (x : R) :
  contains a x -> contains (idouble a) (2 * x).
Proof. unfold contains, idouble. cbn [lo hi]. rewrite !mult_IZR. intros. lra. Qed.

Lemma contains_imeet (a b : ival) (y z x : R) :
  contains a y -> contains b z -> y <= x <= z -> contains (imeet a b) x.
Proof.
  unfold contains, imeet. cbn [lo hi]. intros [La _] [_ Ub] [H1 H2].
  pose proof scale_pos. split; nra.
Qed.

Lemma corner_lower (a b c d X Y m : R) :
  a <= X <= b -> c <= Y <= d ->
  m <= a * c -> m <= a * d -> m <= b * c -> m <= b * d -> m <= X * Y.
Proof.
  intros HX HY H1 H2 H3 H4.
  destruct (Rle_dec 0 Y) as [HY0 | HY0].
  - assert (a * Y <= X * Y) by nra.
    destruct (Rle_dec 0 a); nra.
  - assert (b * Y <= X * Y) by nra.
    destruct (Rle_dec 0 b); nra.
Qed.

Lemma corner_upper (a b c d X Y m : R) :
  a <= X <= b -> c <= Y <= d ->
  a * c <= m -> a * d <= m -> b * c <= m -> b * d <= m -> X * Y <= m.
Proof.
  intros HX HY H1 H2 H3 H4.
  destruct (Rle_dec 0 Y) as [HY0 | HY0].
  - assert (X * Y <= b * Y) by nra.
    destruct (Rle_dec 0 b); nra.
  - assert (X * Y <= a * Y) by nra.
    destruct (Rle_dec 0 a); nra.
Qed.

Lemma contains_imul (a b : ival) (x y : R) :
  contains a x -> contains b y -> contains (imul a b) (x * y).
Proof.
  unfold contains, imul. cbn [lo hi]. intros Ha Hb.
  set (m := min4 _ _ _ _). set (M := max4 _ _ _ _).
  pose proof scale_pos as HS.
  assert (Hm : IZR m <= (x * IZR scale) * (y * IZR scale)).
  { apply (corner_lower (IZR (lo a)) (IZR (hi a)) (IZR (lo b)) (IZR (hi b)));
      try assumption; rewrite <- mult_IZR; apply IZR_le;
      subst m; unfold min4; lia. }
  assert (HM : (x * IZR scale) * (y * IZR scale) <= IZR M).
  { apply (corner_upper (IZR (lo a)) (IZR (hi a)) (IZR (lo b)) (IZR (hi b)));
      try assumption; rewrite <- mult_IZR; apply IZR_le;
      subst M; unfold max4; lia. }
  pose proof (floor_div_le m scale ltac:(reflexivity)) as Hf.
  pose proof (ceil_div_ge M scale ltac:(reflexivity)) as Hc.
  unfold floor_scale, ceil_scale.
  split; (apply Rmult_le_reg_r with (IZR scale); [exact HS|]); nra.
Qed.

Lemma contains_idiv_pos (a : ival) (x : R) (d : Z) :
  (0 < d)%Z -> contains a x -> contains (idiv_pos a d) (x / IZR d).
Proof.
  intros Hd. unfold contains, idiv_pos. cbn [lo hi]. intros [Hl Hh].
  assert (HdR : 0 < IZR d) by (apply IZR_lt; exact Hd).
  pose proof (floor_div_le (lo a) d Hd) as Hf.
  pose proof (ceil_div_ge (hi a) d Hd) as Hc.
  replace (x / IZR d * IZR scale) with (x * IZR scale / IZR d)
    by (field; lra).
  split; (apply Rmult_le_reg_r with (IZR d); [exact HdR|]);
    replace (x * IZR scale / IZR d * IZR d) with (x * IZR scale)
      by (field; lra); lra.
Qed.

Lemma contains_of_ratio (p q : Z) :
  (0 < q)%Z -> contains (of_ratio p q) (IZR p / IZR q).
Proof.
  intros Hq. unfold contains, of_ratio. cbn [lo hi].
  assert (HqR : 0 < IZR q) by (apply IZR_lt; exact Hq).
  pose proof (floor_div_le (p * scale) q Hq) as Hf.
  pose proof (ceil_div_ge (p * scale) q Hq) as Hc.
  rewrite mult_IZR in Hf, Hc.
  replace (IZR p / IZR q * IZR scale) with (IZR p * IZR scale / IZR q)
    by (field; lra).
  split; (apply Rmult_le_reg_r with (IZR q); [exact HqR|]);
    replace (IZR p * IZR scale / IZR q * IZR q) with (IZR p * IZR scale)
      by (field; lra); lra.
Qed.

(** *** The sine by its Taylor sums *)

Lemma sin_term_zero (x : R) : sin_term x 0 = x.
Proof. unfold sin_term. simpl. field. Qed.

Lemma sin_term_succ (x : R) (i : nat) :
  sin_term x (S i) =
  - (sin_term x i * (x * x) / IZR ((2 * Z.of_nat i + 2) * (2 * Z.of_nat i + 3))).
Proof.
  unfold sin_term.
  replace (2 * S i + 1)%nat with (S (S (2 * i + 1))) by lia.
  rewrite !fact_simpl, !mult_INR.
  pose proof (INR_fact_neq_0 (2 * i + 1)) as Hf.
  rewrite mult_IZR, !plus_IZR, !mult_IZR, <- !INR_IZR_INZ.
  rewrite !S_INR, plus_INR, mult_INR. simpl (INR 2). simpl (INR 1).
  assert (0 <= INR i) by apply pos_INR.
  simpl pow. field. repeat split; lra.
Qed.

Lemma sum_shift (f : nat -> R) (n : nat) :
  sum_f_R0 f (S n) = f O + sum_f_R0 (fun j => f (S j)) n.
Proof. rewrite (decomp_sum f (S n)) by lia. reflexivity. Qed.

Lemma contains_taylor_sin (xsq : ival) (x : R) (n : nat) :
  contains xsq (x * x) ->
  forall (i : nat) (term : ival),
  contains term (sin_term x i) ->
  contains (taylor_sin xsq term (Z.of_nat i) n)
           (sum_f_R0 (fun j => sin_term x (i + j)) n).
Proof.
  intros Hsq. induction n as [|n IH]; intros i t Ht.
  - cbn [taylor_sin sum_f_R0]. rewrite Nat.add_0_r. exact Ht.
  - cbn [taylor_sin]. rewrite sum_shift, Nat.add_0_r.
    apply contains_iadd; [exact Ht|].
    replace (Z.of_nat i + 1)%Z with (Z.of_nat (S i)) by lia.
    replace (sum_f_R0 (fun j => sin_term x (i + S j)) n)
      with (sum_f_R0 (fun j => sin_term x (S i + j)) n).
    + apply IH. rewrite sin_term_succ.
      apply contains_ineg, contains_idiv_pos; [lia|].
      apply contains_imul; assumption.
    + apply sum_eq. intros j _. f_equal. lia.
Qed.

Lemma contains_taylor_sin_approx (xi : ival) (x : R) (n : nat) :
  contains xi x ->
  contains (taylor_sin (imul xi xi) xi 0 n) (sin_approx x n).
Proof.
  intros Hx.
  pose proof (contains_imul _ _ _ _ Hx Hx) as Hsq.
  assert (Ht : contains xi (sin_term x 0)) by (rewrite sin_term_zero; exact Hx).
  pose proof (contains_taylor_sin (imul xi xi) x n Hsq 0%nat xi Ht) as H.
  change (Z.of_nat 0) with 0%Z in H.
  exact H.
Qed.

Lemma contains_isin (xi : ival) (x : R) :
  contains xi x -> 0 <= x <= 4 -> contains (isin xi) (sin x).
Proof.
  intros Hx [H0 H4]. unfold isin.
  apply (contains_imeet _ _ (sin_approx x 7) (sin_approx x 8)).
  - apply contains_taylor_sin_approx. exact Hx.
  - apply contains_taylor_sin_approx. exact Hx.
  - exact (pre_sin_bound x 3 H0 H4).
Qed.

Lemma encloses_sincos_base (xi : ival) (x : R) :
  contains xi x -> 0 <= x <= 4 -> encloses (sincos_base xi) x.
Proof.
  intros Hx Hr. unfold sincos_base. split; cbn [fst snd].
  - apply contains_isin; assumption.
  - replace (cos x) with (1 - 2 * (sin (x / 2) * sin (x / 2))).
    + apply contains_isub; [apply contains_ione|].
      apply contains_idouble.
      assert (H : contains (isin (idiv_pos xi 2)) (sin (x / 2))).
      { apply contains_isin; [|lra].
        apply (contains_idiv_pos xi x 2); [lia | exact Hx]. }
      apply contains_imul; exact H.
    + replace x with (2 * (x / 2)) at 3 by field.
      rewrite cos_2a_sin. ring.
Qed.

Lemma encloses_zero : encloses (izero, ione) 0.
Proof.
  split; cbn [fst snd]; [rewrite sin_0; apply contains_izero
                        | rewrite cos_0; apply contains_ione].
Qed.

Lemma encloses_double (sc : ival * ival) (x : R) :
  encloses sc x -> encloses (double_angle sc) (2 * x).
Proof.
  intros [Hs Hc]. unfold double_angle. split; cbn [fst snd].
  - rewrite sin_2a, Rmult_assoc.
    apply contains_idouble, contains_imul; assumption.
  - rewrite cos_2a_sin, Rmult_assoc.
    apply contains_isub; [apply contains_ione|].
    apply contains_idouble, contains_imul; assumption.
Qed.

Lemma encloses_next (base sc : ival * ival) (a x : R) :
  encloses base a -> encloses sc x -> encloses (next_angle base sc) (x + a).
Proof.
  intros [Bs Bc] [Hs Hc]. unfold next_angle. split; cbn [fst snd].
  - rewrite sin_plus.
    apply contains_iadd; apply contains_imul; assumption.
  - rewrite cos_plus.
    apply contains_isub; apply contains_imul; assumption.
Qed.

Lemma IZR_xO (q : positive) : IZR (Z.pos q~0) = 2 * IZR (Z.pos q).
Proof. rewrite Pos2Z.inj_xO, mult_IZR. reflexivity. Qed.

Lemma IZR_xI (q : positive) : IZR (Z.pos q~1) = 2 * IZR (Z.pos q) + 1.
Proof. rewrite Pos2Z.inj_xI, plus_IZR, mult_IZR. reflexivity. Qed.

Lemma encloses_sincos_pos (base : ival * ival) (a : R) (p : positive) :
  encloses base a -> encloses (sincos_pos base p) (IZR (Zpos p) * a).
Proof.
  intros Hb. induction p as [q IH | q IH |]; cbn [sincos_pos].
  - rewrite IZR_xI, Rmult_plus_distr_r, Rmult_1_l, Rmult_assoc.
    apply encloses_next; [exact Hb|]. apply encloses_double, IH.
  - rewrite IZR_xO, Rmult_assoc.
    apply encloses_double, IH.
  - rewrite Rmult_1_l. exact Hb.
Qed.

End EnclosureFacts.

(** ** Checking samples against enclosures *)

Module CheckFacts.
Import Machine DoubleModel DoubleFacts Enclosure EnclosureFacts Vocabulary.
Local Open Scope R_scope.

Lemma tol_covers : tolR * IZR scale <= IZR tol.
Proof.
  assert (H : (scale < tol * 1000000)%Z) by reflexivity.
  apply IZR_lt in H. rewrite mult_IZR in H.
  unfold tolR. lra.
Qed.

Lemma window_lower (T S L t x y e : R) :
  0 < S -> e * S <= T -> t * S + T <= L -> L <= x * S -> - e <= y - x ->
  t <= y.
Proof.
  intros HS HT H1 H2 Hy.
  apply Rmult_le_reg_r with S; [exact HS|]. nra.
Qed.

Lemma window_lower_strict (T S L t x y e : R) :
  0 < S -> e * S <= T -> t * S < L - T -> L <= x * S -> - e <= y - x ->
  t < y.
Proof.
  intros HS HT H1 H2 Hy.
  apply Rmult_lt_reg_r with S; [exact HS|]. nra.
Qed.

Lemma window_upper (T S U t x y e : R) :
  0 < S -> e * S <= T -> U + T <= t * S -> x * S <= U -> y - x <= e ->
  y <= t.
Proof.
  intros HS HT H1 H2 Hy.
  apply Rmult_le_reg_r with S; [exact HS|]. nra.
Qed.

Lemma window_upper_strict (T S U t x y e : R) :
  0 < S -> e * S <= T -> U + T < t * S -> x * S <= U -> y - x <= e ->
  y < t.
Proof.
  intros HS HT H1 H2 Hy.
  apply Rmult_lt_reg_r with S; [exact HS|]. nra.
Qed.

Lemma truncates_to_sound (v : ival) (t : Z) (x y : R) :
  truncates_to v t = true -> contains v x -> Rabs (y - x) <= tolR ->
  Rtrunc y = t.
Proof.
  intros Hc [Hl Hh] Hy.
  apply Rabs_le_both in Hy. destruct Hy as [Hy1 Hy2].
  pose proof tol_covers as HT. pose proof scale_pos as HS.
  unfold truncates_to in Hc.
  destruct (Z.ltb_spec 0 t) as [Hpos | Hnpos].
  - apply andb_prop in Hc. destruct Hc as [H1 H2].
    apply Z.leb_le in H1. apply Z.ltb_lt in H2.
    apply IZR_le in H1. apply IZR_lt in H2.
    rewrite plus_IZR, mult_IZR in H1.
    rewrite !plus_IZR, mult_IZR, plus_IZR in H2.
    apply Rtrunc_pos; [lia|]. split.
    + exact (window_lower _ _ _ _ _ _ _ HS HT H1 Hl Hy1).
    + exact (window_upper_strict _ _ _ _ _ _ _ HS HT H2 Hh Hy2).
  - destruct (Z.ltb_spec t 0) as [Hneg | Hnneg].
    + apply andb_prop in Hc. destruct Hc as [H1 H2].
      apply Z.ltb_lt in H1. apply Z.leb_le in H2.
      apply IZR_lt in H1. apply IZR_le in H2.
      rewrite mult_IZR, !minus_IZR in H1. rewrite plus_IZR, mult_IZR in H2.
      apply Rtrunc_neg; [lia|]. split.
      * exact (window_lower_strict _ _ _ _ _ _ _ HS HT H1 Hl Hy1).
      * exact (window_upper _ _ _ _ _ _ _ HS HT H2 Hh Hy2).
    + assert (t = 0%Z) by lia. subst t.
      apply andb_prop in Hc. destruct Hc as [H1 H2].
      apply Z.ltb_lt in H1, H2.
      apply IZR_lt in H1, H2.
      rewrite opp_IZR, minus_IZR in H1. rewrite plus_IZR in H2.
      apply Rtrunc_zero. split.
      * apply (window_lower_strict (IZR tol) (IZR scale) (IZR (lo v)) (-1) x y tolR);
          try assumption. lra.
      * apply (window_upper_strict (IZR tol) (IZR scale) (IZR (hi v)) 1 x y tolR);
          try assumption. lra.
Qed.

Lemma rounds_to_sound (v : ival) (t : Z) (x : R) :
  rounds_to v t = true -> contains v x -> round_nearest x = t.
Proof.
  intros Hc [Hl Hh]. pose proof scale_pos as HS.
  unfold rounds_to in Hc. apply andb_prop in Hc. destruct Hc as [H1 H2].
  apply Z.leb_le in H1. apply Z.ltb_lt in H2.
  apply IZR_le in H1. apply IZR_lt in H2.
  rewrite !mult_IZR, minus_IZR, mult_IZR in H1.
  rewrite !mult_IZR, plus_IZR, mult_IZR in H2.
  unfold round_nearest. apply Zfloor_eq.
  generalize dependent (IZR (lo v)). generalize dependent (IZR (hi v)).
  generalize dependent (IZR scale). generalize (IZR t).
  intros T S HS U Hh H2 L Hl H1.
  split.
  - apply Rmult_le_reg_r with S; [exact HS|]. nra.
  - apply Rmult_lt_reg_r with S; [exact HS|]. nra.
Qed.

Lemma check_run_sound (base : ival * ival) (amp : ival) (a A : R)
  (l : list Z) :
  encloses base a -> contains amp A ->
  forall (sc : ival * ival) (x : R) (j : nat) (t : Z) (y : R),
  encloses sc x ->
  check_run base amp sc l = true -> nth_error l j = Some t ->
  Rabs (y - A * sin (x + INR j * a)) <= tolR ->
  Rtrunc y = t.
Proof.
  intros Hb HA. induction l as [|t0 l IH]; intros sc x j t y Hsc Hc Hn Hy.
  - destruct j; discriminate.
  - cbn [check_run] in Hc. apply andb_prop in Hc. destruct Hc as [H0 Hl].
    destruct j as [|j].
    + injection Hn as <-.
      replace (x + INR 0 * a) with x in Hy by (simpl; ring).
      apply (truncates_to_sound _ _ (A * sin x) y H0); [|exact Hy].
      apply contains_imul; [exact HA | exact (proj1 Hsc)].
    + cbn [nth_error] in Hn.
      apply (IH (next_angle base sc) (x + a) j t y); try assumption.
      * apply encloses_next; assumption.
      * replace (x + a + INR j * a) with (x + INR (S j) * a)
          by (rewrite S_INR; ring).
        exact Hy.
Qed.

(** *** The angle and the amplitude of the generators *)


Lemma PI_enclosure : 3.1415926535 < PI < 3.1415926536.
Proof.
  pose proof (PI_2_3_7_ineq 5) as [L U].
  unfold tg_alt, PI_2_3_7_tg, Ratan_seq in L, U.
  cbn [sum_f_R0 Nat.mul Nat.add] in L, U.
  simpl in L, U. lra.
Qed.

Lemma contains_angle : contains angle_ival angleR.
Proof.
  replace angleR with (IZR (1000 * 2 * 314159265) / IZR (48000 * 100000000))
    by (unfold angleR; rewrite !mult_IZR; lra).
  apply contains_of_ratio. reflexivity.
Qed.

Lemma contains_angle_pi (a : R) :
  angleR <= a <= 2 * 3.1415926536 * (1000 / 48000) ->
  contains angle_pi_ival a.
Proof.
  intros Ha. unfold angle_pi_ival.
  apply (contains_imeet _ _ angleR (2 * 3.1415926536 * (1000 / 48000)));
    [exact contains_angle | | exact Ha].
  replace (2 * 3.1415926536 * (1000 / 48000))
    with (IZR (1000 * 2 * 31415926536) / IZR (48000 * 10000000000))
    by (rewrite !mult_IZR; lra).
  apply contains_of_ratio. reflexivity.
Qed.

Lemma contains_amp : contains amp_ival ampR.
Proof.
  replace ampR
    with (IZR (32767 * 70794578438413791080221494218931)
          / IZR 100000000000000000000000000000000)
    by (unfold ampR; rewrite mult_IZR; lra).
  apply contains_of_ratio. reflexivity.
Qed.

Lemma contains_amp_mono : contains amp_mono_ival 32767.
Proof.
  replace 32767 with (IZR 32767 / IZR 1) by lra.
  apply contains_of_ratio. reflexivity.
Qed.

Lemma encloses_base_pi (a : R) :
  angleR <= a <= 2 * 3.1415926536 * (1000 / 48000) ->
  encloses (sincos_base angle_pi_ival) a.
Proof.
  intros Ha. apply encloses_sincos_base; [apply contains_angle_pi; exact Ha|].
  unfold angleR in Ha. lra.
Qed.

Lemma angleR_in_range : angleR <= angleR <= 2 * 3.1415926536 * (1000 / 48000).
Proof. unfold angleR. lra. Qed.

Lemma anglePI_in_range : angleR <= anglePI <= 2 * 3.1415926536 * (1000 / 48000).
Proof. pose proof PI_enclosure. unfold angleR, anglePI. lra. Qed.

Lemma table_checked :
  check_run (sincos_base angle_pi_ival) amp_ival (izero, ione)
    StereoOpt.monoSine1kHzLoopUp = true.
Proof. vm_compute. reflexivity. Qed.

End CheckFacts.

(** ** The rounding errors of the synthesis *)

Module SynthesisFacts.
Import Machine MachineFacts DoubleModel DoubleFacts Enclosure EnclosureFacts
  Vocabulary CheckFacts.
Local Open Scope R_scope.

Section Errors.
Variable fa : arithmetic.
Hypothesis Hfa : admissible fa.

Lemma angleIncrement_close :
  Rabs (Stereo.angleIncrement fa - angleR) <= 3e-16.
Proof.
  unfold angleR, Stereo.angleIncrement, Stereo._PI, Stereo._sineFrequency,
    Stereo._samplingRate.
  assert (Hu : unit_roundoff = / 2 ^ 52) by reflexivity.
  assert (Ht : tiny = 1e-300) by reflexivity.
  assert (Hh : huge = 1e300) by reflexivity.
  assert (H1 : Rabs (fdiv fa 1000 48000 - 1000 / 48000) <= 1e-17).
  { unfold fdiv. apply (rnd_literal fa Hfa _ (1 / 48)); [apply Rabs_le|..]; lra. }
  assert (H2 : Rabs (fmul fa (fdiv fa 1000 48000) 2 - 1000 / 48000 * 2)
               <= 4e-17).
  { apply (fmul_close fa Hfa _ _ 2 2 1e-17 0 (1 / 48) 2);
      [exact H1 | rewrite Rabs_same; lra | apply Rabs_le; lra
      | apply Rabs_le; lra | lra | lra]. }
  assert (H3 : Rabs (rnd fa 3.14159265 - 3.14159265) <= 1e-15).
  { apply (rnd_literal fa Hfa _ 4); [apply Rabs_le|..]; lra. }
  apply (fmul_close fa Hfa _ _ _ _ 4e-17 1e-15 (1 / 24) 3.15);
    [exact H2 | exact H3 | apply Rabs_le; lra | apply Rabs_le; lra | lra | lra].
Qed.

(** The sine that the library returns for sample [iii] of one second. *)
Lemma libm_sin_close (iii : nat) :
  (Z.of_nat iii <= 48000)%Z ->
  Rabs (libm_sin fa (fmul fa (INR iii) (Stereo.angleIncrement fa))
        - sin (INR iii * angleR)) <= 3e-11.
Proof.
  intros Hk.
  assert (Hu : unit_roundoff = / 2 ^ 52) by reflexivity.
  assert (Ht : tiny = 1e-300) by reflexivity.
  assert (Hh : huge = 1e300) by reflexivity.
  assert (Hse : sin_error = / 2 ^ 50) by reflexivity.
  assert (HkR : 0 <= INR iii <= 48000).
  { split; [apply pos_INR|]. rewrite INR_IZR_INZ. apply IZR_le. exact Hk. }
  assert (Ha : 0.13 <= angleR <= 0.131) by (unfold angleR; lra).
  pose proof angleIncrement_close as Hinc.
  assert (H1 : Rabs (fmul fa (INR iii) (Stereo.angleIncrement fa)
                     - INR iii * angleR) <= 2e-11).
  { apply (fmul_close fa Hfa _ _ _ _ 0 3e-16 48000 0.131);
      [rewrite Rabs_same; lra | exact Hinc | apply Rabs_le; lra
      | apply Rabs_le; lra | lra | lra]. }
  destruct Hfa as [_ Hs].
  pose proof (Hs (fmul fa (INR iii) (Stereo.angleIncrement fa))) as E1.
  pose proof (sin_lipschitz (fmul fa (INR iii) (Stereo.angleIncrement fa))
                (INR iii * angleR)) as E2.
  set (s1 := libm_sin fa _) in *.
  set (s2 := sin (fmul fa _ _)) in *.
  set (s3 := sin (INR iii * angleR)) in *.
  replace (s1 - s3) with ((s1 - s2) + (s2 - s3)) by ring.
  eapply Rle_trans; [apply Rabs_triang|]. lra.
Qed.

Lemma stereo_scaled_sine_close (iii : nat) :
  (Z.of_nat iii <= 48000)%Z ->
  Rabs (Stereo.scaled_sine fa iii - ampR * sin (INR iii * angleR)) <= tolR.
Proof.
  intros Hk.
  assert (Hu : unit_roundoff = / 2 ^ 52) by reflexivity.
  assert (Ht : tiny = 1e-300) by reflexivity.
  assert (Hh : huge = 1e300) by reflexivity.
  pose proof (libm_sin_close iii Hk) as H2.
  assert (H3 : Rabs (Stereo.DAMPENING_FACTOR fa
                     - 0.70794578438413791080221494218931) <= 2e-16).
  { unfold Stereo.DAMPENING_FACTOR.
    apply (rnd_literal fa Hfa _ 0.71); [apply Rabs_le|..]; lra. }
  pose proof (SIN_bound (INR iii * angleR)) as Hsb.
  assert (H4 : Rabs (fmul fa (Stereo.DAMPENING_FACTOR fa)
                       (libm_sin fa (fmul fa (INR iii) (Stereo.angleIncrement fa)))
                     - 0.70794578438413791080221494218931
                       * sin (INR iii * angleR))
               <= 2.2e-11).
  { apply (fmul_close fa Hfa _ _ _ _ 2e-16 3e-11 0.71 1);
      [exact H3 | exact H2 | apply Rabs_le; lra | apply Rabs_le; lra
      | lra | lra]. }
  unfold Stereo.scaled_sine, ampR. rewrite Rmult_assoc.
  change (IZR INT16_MAX) with 32767.
  apply (fmul_close fa Hfa _ _ _ _ 0 2.2e-11 32767 0.71);
    [rewrite Rabs_same; lra | exact H4 | apply Rabs_le; lra
    | apply Rabs_le; split; nra | lra | unfold tolR; lra].
Qed.

Lemma mono_scaled_sine_close (a : nat) :
  (Z.of_nat a <= 48000)%Z ->
  Rabs (Mono.scaled_sine fa a - 32767 * sin (INR a * angleR)) <= tolR.
Proof.
  intros Hk.
  assert (Hu : unit_roundoff = / 2 ^ 52) by reflexivity.
  assert (Ht : tiny = 1e-300) by reflexivity.
  assert (Hh : huge = 1e300) by reflexivity.
  pose proof (libm_sin_close a Hk) as H2.
  pose proof (SIN_bound (INR a * angleR)) as Hsb.
  unfold Mono.scaled_sine.
  change (Mono.angleIncrement fa) with (Stereo.angleIncrement fa).
  change (IZR INT16_MAX) with 32767.
  apply (fmul_close fa Hfa _ _ _ _ 0 3e-11 32767 1);
    [rewrite Rabs_same; lra | exact H2 | apply Rabs_le; lra
    | apply Rabs_le; lra | lra | unfold tolR; lra].
Qed.

End Errors.

End SynthesisFacts.

(** ** Arrays *)

Module ArrayFacts.
Import Arrays.

Lemma length_store (l : list Z) (i : nat) (v : Z) :
  length (store l i v) = length l.
Proof.
  revert i. induction l as [|x l IH]; intros [|i]; simpl; try reflexivity.
  rewrite IH. reflexivity.
Qed.

Lemma nth_error_store_same (l : list Z) (i : nat) (v : Z) :
  (i < length l)%nat -> nth_error (store l i v) i = Some v.
Proof.
  revert i. induction l as [|x l IH]; intros [|i] H; simpl in *; try lia.
  - reflexivity.
  - apply IH. lia.
Qed.

Lemma nth_error_store_other (l : list Z) (i j : nat) (v : Z) :
  i <> j -> nth_error (store l i v) j = nth_error l j.
Proof.
  revert i j. induction l as [|x l IH]; intros [|i] [|j] H; simpl;
    try reflexivity; try lia.
  apply IH. lia.
Qed.

End ArrayFacts.

(** ** The synthesis loop *)

Module SynthesisLoopFacts.
Import Machine Arrays ArrayFacts DoubleModel Stereo.

Section Loop.
Variable fa : arithmetic.

Lemma length_synthesis_loop (n : nat) :
  forall (a iii : nat) (st : list Z * list Z),
  length (fst (synthesis_loop fa n a iii st)) = length (fst st) /\
  length (snd (synthesis_loop fa n a iii st)) = length (snd st).
Proof.
  induction n as [|n IH]; intros a iii st; [split; reflexivity|].
  cbn [synthesis_loop]. destruct (IH (a + 2)%nat (S iii)
    (if (iii <? 48)%nat then store (fst st) iii (tempVal fa iii) else fst st,
     store (store (snd st) a (to_uint16 (tempVal fa iii))) (a + 1)
       (to_uint16 (tempVal fa iii)))) as [H1 H2].
  rewrite H1, H2. cbn [fst snd].
  rewrite !length_store. destruct (iii <? 48)%nat; [rewrite length_store|];
    split; reflexivity.
Qed.

(** Entry [k] of the table is written in turn [k], if the loop gets there
    and [k < 48]. *)
Lemma synthesis_loop_table (n : nat) :
  forall (a iii : nat) (st : list Z * list Z) (k : nat),
  (k < length (fst st))%nat ->
  nth_error (fst (synthesis_loop fa n a iii st)) k =
  if ((iii <=? k) && (k <? iii + n) && (k <? 48))%nat
  then Some (tempVal fa k) else nth_error (fst st) k.
Proof.
  induction n as [|n IH]; intros a iii st k Hk.
  - cbn [synthesis_loop].
    destruct (Nat.leb_spec iii k); destruct (Nat.ltb_spec k (iii + 0));
      cbn [andb]; try reflexivity; lia.
  - cbn [synthesis_loop]. rewrite IH; cbn [fst snd].
    + destruct (Nat.leb_spec (S iii) k) as [H1 | H1];
      destruct (Nat.leb_spec iii k) as [H2 | H2]; try lia;
      destruct (Nat.ltb_spec k (S iii + n)) as [H3 | H3];
      destruct (Nat.ltb_spec k (iii + S n)) as [H4 | H4]; try lia;
      destruct (Nat.ltb_spec k 48) as [H5 | H5]; cbn [andb];
      destruct (Nat.ltb_spec iii 48) as [H6 | H6];
      try reflexivity;
      try (apply nth_error_store_other; lia);
      try (assert (k = iii) by lia; subst k;
           apply nth_error_store_same; exact Hk);
      try lia.
    + destruct (iii <? 48)%nat; [rewrite length_store|]; exact Hk.
Qed.

(** Sample [j] of the loop is stored at [2 * j] and [2 * j + 1]. *)
Lemma synthesis_loop_buffer (n : nat) :
  forall (iii : nat) (st : list Z * list Z) (j c : nat),
  (iii <= j < iii + n)%nat -> (c < 2)%nat ->
  (2 * j + c < length (snd st))%nat ->
  nth_error (snd (synthesis_loop fa n (2 * iii) iii st)) (2 * j + c) =
  Some (to_uint16 (tempVal fa j)).
Proof.
  induction n as [|n IH]; intros iii st j c Hj Hc Hlen; [lia|].
  cbn [synthesis_loop].
  replace (2 * iii + 2)%nat with (2 * S iii)%nat by lia.
  destruct (Nat.eq_dec j iii) as [-> | Hne].
  - set (st' := (_, _)).
    assert (Hkeep : forall m i' (s : list Z * list Z) q,
               (q < 2 * i')%nat ->
               nth_error (snd (synthesis_loop fa m (2 * i') i' s)) q
               = nth_error (snd s) q).
    { clear. induction m as [|m IHm]; intros i' s q Hq; [reflexivity|].
      cbn [synthesis_loop].
      replace (2 * i' + 2)%nat with (2 * S i')%nat by lia.
      rewrite IHm by lia. cbn [snd].
      rewrite !nth_error_store_other by lia. reflexivity. }
    rewrite Hkeep by lia. subst st'. cbn [snd].
    destruct c as [|[|c]]; [| |lia].
    + rewrite Nat.add_0_r.
      rewrite nth_error_store_other by lia.
      apply nth_error_store_same. lia.
    + apply nth_error_store_same. rewrite length_store. lia.
  - apply IH; [lia | exact Hc |]. cbn [snd]. rewrite !length_store. exact Hlen.
Qed.

End Loop.

End SynthesisLoopFacts.

(** ** The table of the computing generator *)

Module GeneratorFacts.
Import Machine MachineFacts DoubleModel DoubleFacts Enclosure EnclosureFacts
  Vocabulary CheckFacts SynthesisFacts Arrays ArrayFacts SynthesisLoopFacts.
Import StereoOpt.
Local Open Scope R_scope.

Lemma table_length : length monoSine1kHzLoopUp = 48%nat.
Proof. reflexivity. Qed.

Lemma table_range (k : nat) (t : Z) :
  nth_error monoSine1kHzLoopUp k = Some t -> (-23197 <= t <= 23197)%Z.
Proof.
  intros H. apply nth_error_In in H.
  assert (F : forallb (fun t => (-23197 <=? t)%Z && (t <=? 23197)%Z)
                monoSine1kHzLoopUp = true) by reflexivity.
  rewrite forallb_forall in F. specialize (F t H).
  apply andb_prop in F. destruct F as [F1 F2].
  apply Z.leb_le in F1, F2. lia.
Qed.

Lemma table_index (k : nat) (t : Z) :
  nth_error monoSine1kHzLoopUp k = Some t -> (k < 48)%nat.
Proof.
  intros H. rewrite <- table_length. apply nth_error_Some. congruence.
Qed.

Lemma synth_angle_anglePI (k : nat) : synth_angle k = 0 + INR k * anglePI.
Proof. unfold synth_angle, anglePI. ring. Qed.

(** What the computing generator stores for the first period. *)
Lemma stereo_tempVal_table (fa : arithmetic) (k : nat) (t : Z) :
  admissible fa ->
  nth_error monoSine1kHzLoopUp k = Some t -> Stereo.tempVal fa k = t.
Proof.
  intros Hfa Hn. pose proof (table_index k t Hn) as Hk.
  pose proof (table_range k t Hn) as Hr.
  unfold Stereo.tempVal.
  rewrite (check_run_sound _ _ angleR ampR _
             (encloses_base_pi angleR angleR_in_range) contains_amp
             (izero, ione) 0 k t (Stereo.scaled_sine fa k)
             encloses_zero table_checked Hn).
  - apply to_int16_small. lia.
  - rewrite Rplus_0_l. apply stereo_scaled_sine_close; [exact Hfa | lia].
Qed.

(** The table holds the truncated exact values. *)
Lemma truncated_sample_table (k : nat) (t : Z) :
  nth_error monoSine1kHzLoopUp k = Some t ->
  truncated_sample damping_3dB k = t.
Proof.
  intros Hn. unfold truncated_sample.
  apply (check_run_sound _ _ anglePI ampR _
           (encloses_base_pi anglePI anglePI_in_range) contains_amp
           (izero, ione) 0 k t _ encloses_zero table_checked Hn).
  rewrite synth_angle_anglePI.
  replace (32767 * damping_3dB * sin (0 + INR k * anglePI)
           - ampR * sin (0 + INR k * anglePI)) with 0
    by (unfold ampR, damping_3dB; ring).
  rewrite Rabs_R0. unfold tolR. lra.
Qed.

Lemma synthesis_table (fa : arithmetic) :
  admissible fa -> fst (Stereo.synthesis fa) = monoSine1kHzLoopUp.
Proof.
  intros Hfa. apply nth_error_ext. intros k.
  unfold Stereo.synthesis.
  destruct (Nat.lt_ge_cases k 48) as [Hk | Hk].
  - rewrite synthesis_loop_table by (cbn [fst]; rewrite repeat_length; exact Hk).
    replace ((0 <=? k) && (k <? 0 + Z.to_nat 48000) && (k <? 48))%nat with true.
    + destruct (nth_error monoSine1kHzLoopUp k) as [t|] eqn:E.
      * f_equal. apply stereo_tempVal_table; assumption.
      * apply nth_error_None in E. rewrite table_length in E. lia.
    + symmetry. apply andb_true_intro. split;
        [apply andb_true_intro; split|].
      * apply Nat.leb_le. lia.
      * apply Nat.ltb_lt. lia.
      * apply Nat.ltb_lt. exact Hk.
  - transitivity (@None Z); [|symmetry]; apply nth_error_None.
    + destruct (length_synthesis_loop fa (Z.to_nat 48000) 0 0
                  (repeat 0%Z 48, repeat 0%Z (Z.to_nat Stereo.BUFFER_SIZE)))
        as [H _].
      rewrite H. cbn [fst]. rewrite repeat_length. exact Hk.
    + rewrite table_length. exact Hk.
Qed.

End GeneratorFacts.

(** ** The waveform of the generators *)

Module WaveformFacts.
Import Machine MachineFacts DoubleModel DoubleFacts Enclosure EnclosureFacts
  Vocabulary CheckFacts SynthesisFacts Arrays ArrayFacts SynthesisLoopFacts
  GeneratorFacts.
Import StereoOpt.
Local Open Scope R_scope.

(** C10. The two generators agree on the period: in every admissible double
    arithmetic the table that the computing generator fills in is the table
    [monoSine1kHzLoopUp] of the table driven one; entry [k] is the value the
    computing generator stores for index [k], and it is the truncation of
    [32767 * 0.70794578438413791 * sin (2 * PI * 1000 / 48000 * k)]. *)
Theorem lookup_table_agrees_with_generator (fa : arithmetic) :
  admissible fa ->
  fst (Stereo.synthesis fa) = monoSine1kHzLoopUp /\
  forall k : nat, (k < 48)%nat ->
    nth k monoSine1kHzLoopUp 0%Z = Stereo.tempVal fa k /\
    nth k monoSine1kHzLoopUp 0%Z = truncated_sample damping_3dB k.
Proof.
  intros Hfa. split; [apply synthesis_table; exact Hfa|].
  intros k Hk.
  assert (Hn : nth_error monoSine1kHzLoopUp k
               = Some (nth k monoSine1kHzLoopUp 0%Z))
    by (apply nth_error_nth'; rewrite table_length; exact Hk).
  split; symmetry.
  - apply stereo_tempVal_table; assumption.
  - apply truncated_sample_table; assumption.
Qed.

Lemma lookup_table_agrees_with_generator_witness :
  fst (Stereo.synthesis exact_arithmetic) = monoSine1kHzLoopUp /\
  forall k : nat, (k < 48)%nat ->
    nth k monoSine1kHzLoopUp 0%Z = Stereo.tempVal exact_arithmetic k /\
    nth k monoSine1kHzLoopUp 0%Z = truncated_sample damping_3dB k.
Proof.
  exact (lookup_table_agrees_with_generator exact_arithmetic
           exact_arithmetic_admissible).
Defined.

(** The first two samples of the mono generator, and the two roundings. *)
Lemma mono_checked :
  check_run (sincos_base angle_pi_ival) amp_mono_ival (izero, ione)
    [0; 4276]%Z = true.
Proof. vm_compute. reflexivity. Qed.

Lemma rounding_checked :
  rounds_to (imul amp_ival (fst (sincos_base angle_pi_ival))) 3028 = true /\
  rounds_to (imul amp_mono_ival (fst (sincos_base angle_pi_ival))) 4277 = true.
Proof. split; vm_compute; reflexivity. Qed.

Lemma synth_angle_one : synth_angle 1 = anglePI.
Proof. unfold synth_angle, anglePI. simpl INR. ring. Qed.

(** C4, as stated, fails at [k = 1]: the stereo generator stores 3027 and
    the mono generator 4276, in every admissible double arithmetic, where
    rounding to the nearest integer gives 3028 and 4277. *)
Lemma synthesizer_does_not_round :
  (forall fa : arithmetic, admissible fa ->
     Stereo.tempVal fa 1 = 3027%Z /\ Mono.tempVal fa 1 = 4276%Z) /\
  rounded_sample damping_3dB 1 = 3028%Z /\
  rounded_sample 1 1 = 4277%Z.
Proof.
  pose proof (encloses_base_pi anglePI anglePI_in_range) as [Hs _].
  destruct rounding_checked as [R1 R2].
  repeat split.
  - apply stereo_tempVal_table; [assumption | reflexivity].
  - unfold Mono.tempVal.
    rewrite (check_run_sound _ _ angleR 32767 _
               (encloses_base_pi angleR angleR_in_range) contains_amp_mono
               (izero, ione) 0 1 4276%Z (Mono.scaled_sine fa 1)
               encloses_zero mono_checked eq_refl).
    + reflexivity.
    + rewrite Rplus_0_l. apply mono_scaled_sine_close; [assumption | lia].
  - unfold rounded_sample. rewrite synth_angle_one.
    replace (32767 * damping_3dB * sin anglePI) with (ampR * sin anglePI)
      by (unfold ampR, damping_3dB; ring).
    rewrite (rounds_to_sound _ _ _ R1
               (contains_imul _ _ _ _ contains_amp Hs)).
    reflexivity.
  - unfold rounded_sample. rewrite synth_angle_one.
    replace (32767 * 1 * sin anglePI) with (32767 * sin anglePI) by ring.
    rewrite (rounds_to_sound _ _ _ R2
               (contains_imul _ _ _ _ contains_amp_mono Hs)).
    reflexivity.
Qed.

(** C4, amended. For every index [k] of the period the stereo generator
    stores the scaled sine with its fraction dropped (the cast truncates
    toward zero, it does not round); no clamp takes part, the value lies
    within [-23197, 23197]. *)
Theorem synthesizer_truncates (fa : arithmetic) (k : nat) :
  admissible fa -> (k < 48)%nat ->
  Stereo.tempVal fa k = truncated_sample damping_3dB k /\
  (-23197 <= Stereo.tempVal fa k <= 23197)%Z.
Proof.
  intros Hfa Hk.
  assert (Hn : nth_error monoSine1kHzLoopUp k
               = Some (nth k monoSine1kHzLoopUp 0%Z))
    by (apply nth_error_nth'; rewrite table_length; exact Hk).
  rewrite (stereo_tempVal_table fa k _ Hfa Hn).
  split.
  - symmetry. apply truncated_sample_table. exact Hn.
  - exact (table_range k _ Hn).
Qed.

Lemma synthesizer_truncates_witness :
  (1 < 48)%nat /\
  Stereo.tempVal exact_arithmetic 1 = truncated_sample damping_3dB 1 /\
  (-23197 <= Stereo.tempVal exact_arithmetic 1 <= 23197)%Z.
Proof.
  split; [lia|].
  apply (synthesizer_truncates exact_arithmetic 1
           exact_arithmetic_admissible). lia.
Defined.

(** *** The ring of the computing generator *)

Lemma late_samples_checked :
  truncates_to
    (imul amp_ival (fst (sincos_pos (sincos_base angle_ival) 24666)))
    (-16403) = true.
Proof. vm_compute. reflexivity. Qed.

Lemma stereo_tempVal_24666 (fa : arithmetic) :
  admissible fa -> Stereo.tempVal fa (Pos.to_nat 24666) = (-16403)%Z.
Proof.
  intros Hfa. unfold Stereo.tempVal.
  assert (Hb : encloses (sincos_base angle_ival) angleR)
    by (apply encloses_sincos_base;
        [exact contains_angle | unfold angleR; lra]).
  pose proof (encloses_sincos_pos _ _ 24666 Hb) as [Hs _].
  rewrite (truncates_to_sound _ _ (ampR * sin (IZR 24666 * angleR))
             (Stereo.scaled_sine fa (Pos.to_nat 24666)) late_samples_checked
             (contains_imul _ _ _ _ contains_amp Hs)).
  - reflexivity.
  - replace (IZR 24666) with (INR (Pos.to_nat 24666))
      by (rewrite INR_IZR_INZ, positive_nat_Z; reflexivity).
    apply stereo_scaled_sine_close; [exact Hfa | lia].
Qed.

(** C5, as stated, fails for the ring that [minPcmStereo.cpp] computes:
    position [2 * 24666] holds 49133 (the sample -16403) and the position
    it reduces to modulo [48 * 2], which is [2 * 42], holds 49134 (the
    sample -16402): with [_PI] cut to eight decimals the angle of sample
    24666 is not the angle of sample 42 plus whole turns. *)
Lemma computed_ring_not_periodic :
  ((2 * Pos.to_nat 24666) mod (48 * 2) = 2 * 42)%nat /\
  (forall fa : arithmetic, admissible fa ->
     nth_error (snd (Stereo.synthesis fa)) (2 * Pos.to_nat 24666)
       = Some 49133%Z /\
     nth_error (snd (Stereo.synthesis fa)) ((2 * Pos.to_nat 24666) mod (48 * 2))
       = Some 49134%Z).
Proof.
  assert (E : ((2 * Pos.to_nat 24666) mod (48 * 2) = 2 * 42)%nat).
  { replace (Pos.to_nat 24666) with (42 + 513 * 48)%nat by lia.
    replace (2 * (42 + 513 * 48))%nat with (84 + 513 * (48 * 2))%nat by lia.
    rewrite Nat.Div0.mod_add. reflexivity. }
  split; [exact E|]. intros fa Hfa. rewrite E.
  assert (Hlen : length (repeat 0%Z (Z.to_nat Stereo.BUFFER_SIZE))
                 = Z.to_nat 96000) by (rewrite repeat_length; reflexivity).
  unfold Stereo.synthesis. split.
  - rewrite <- (Nat.add_0_r (2 * Pos.to_nat 24666)).
    rewrite (synthesis_loop_buffer fa (Z.to_nat 48000) 0 _ (Pos.to_nat 24666) 0);
      [| lia | lia | cbn [snd]; rewrite Hlen; lia].
    rewrite stereo_tempVal_24666 by exact Hfa. reflexivity.
  - rewrite <- (Nat.add_0_r (2 * 42)).
    rewrite (synthesis_loop_buffer fa (Z.to_nat 48000) 0 _ 42 0);
      [| lia | lia | cbn [snd]; rewrite Hlen; lia].
    rewrite (stereo_tempVal_table fa 42 (-16402)%Z Hfa eq_refl). reflexivity.
Qed.

(** C5, amended. [fillBuffer] fills its buffer exactly and periodically:
    the length is the capacity [PROC_FRAME_SIZE * AUD_CHANNELS], source
    sample [j] occupies the [N] slots [j*N .. j*N+N-1], all with the table
    entry [j mod n], and every position holds what position
    [q mod (n * N)] holds.  The ring that the computing generator fills has
    its full length of 96000 samples and holds sample [j] in both slots
    [2*j] and [2*j+1]; it is computed sample by sample and carries no
    periodicity. *)
Theorem ring_filled_exactly (p : Params) (monoSigBuff : list Z)
  (fa : arithmetic) :
  let N := Z.to_nat (AUD_CHANNELS p) in
  let n := length monoSigBuff in
  let ring := fillBuffer p monoSigBuff [] in
  let computed := snd (Stereo.synthesis fa) in
  (((0 <= PROC_FRAME_SIZE p)%Z -> (0 <= AUD_CHANNELS p)%Z ->
    static_asserts p = true ->
    Z.of_nat n = SAMPLES_PER_SINE p ->
    Z.of_nat (length ring) = (PROC_FRAME_SIZE p * AUD_CHANNELS p)%Z) /\
   (forall j o : nat,
      (j < Z.to_nat (SINES_IN_FRAME p) * n)%nat -> (o < N)%nat ->
      nth_error ring (j * N + o) =
      Some (to_uint16 (nth (j mod n) monoSigBuff 0%Z))) /\
   (forall q : nat,
      (q < length ring)%nat ->
      nth_error ring q = nth_error ring (q mod (n * N)))) /\
  length computed = Z.to_nat Stereo.BUFFER_SIZE /\
  (forall j c : nat,
     (j < Z.to_nat 48000)%nat -> (c < 2)%nat ->
     nth_error computed (2 * j + c) = Some (to_uint16 (Stereo.tempVal fa j))).
Proof.
  cbv zeta. split; [exact (FillBufferFacts.fillBuffer_replicates p monoSigBuff)|].
  assert (Hlen : length (repeat 0%Z (Z.to_nat Stereo.BUFFER_SIZE))
                 = Z.to_nat 96000) by (rewrite repeat_length; reflexivity).
  unfold Stereo.synthesis. split.
  - destruct (length_synthesis_loop fa (Z.to_nat 48000) 0 0
                (repeat 0%Z 48, repeat 0%Z (Z.to_nat Stereo.BUFFER_SIZE)))
      as [_ H].
    rewrite H. cbn [snd]. apply repeat_length.
  - intros j c Hj Hc.
    apply (synthesis_loop_buffer fa (Z.to_nat 48000) 0 _ j c);
      [lia | exact Hc | cbn [snd]; rewrite Hlen; lia].
Qed.

(** The program's own parameters, 24 periods of 48 samples on 2 channels,
    and the computed ring in an arithmetic without rounding. *)
Lemma ring_filled_exactly_witness :
  (length (fillBuffer params monoSine1kHzLoopUp []) = 2304%nat /\
   nth_error (fillBuffer params monoSine1kHzLoopUp []) (49 * 2 + 1)
     = Some 3027%Z /\
   nth_error (fillBuffer params monoSine1kHzLoopUp []) 2001 =
   nth_error (fillBuffer params monoSine1kHzLoopUp []) (2001 mod (48 * 2))) /\
  length (snd (Stereo.synthesis exact_arithmetic))
    = Z.to_nat Stereo.BUFFER_SIZE /\
  nth_error (snd (Stereo.synthesis exact_arithmetic)) (2 * 49 + 1)
    = Some (to_uint16 (Stereo.tempVal exact_arithmetic 49)).
Proof.
  destruct (ring_filled_exactly params monoSine1kHzLoopUp exact_arithmetic)
    as [[Hcap [Hch Hper]] [Hl Hc]].
  assert (Hlen : length (fillBuffer params monoSine1kHzLoopUp []) = 2304%nat).
  { apply Nat2Z.inj. rewrite Hcap; [reflexivity | | | reflexivity | reflexivity];
      simpl; lia. }
  split; [split; [exact Hlen | split] | split; [exact Hl|]].
  - assert (E : (Z.to_nat (SINES_IN_FRAME params) * length monoSine1kHzLoopUp
                 = 1152)%nat) by reflexivity.
    assert (E2 : Z.to_nat (AUD_CHANNELS params) = 2%nat) by reflexivity.
    exact (Hch 49%nat 1%nat ltac:(rewrite E; lia) ltac:(rewrite E2; lia)).
  - apply (Hper 2001%nat). rewrite Hlen. lia.
  - apply (Hc 49%nat 1%nat); lia.
Defined.

End WaveformFacts.

(** ** The bit depth reducer outside the 24 bit range *)

Module ReducerFacts.
Import Machine MachineFacts BitDepthConv ReducerSpec BitDepthFacts.

Lemma round_shift_bounds (x : Z) :
  256 * round_shift x <= x + 128 < 256 * round_shift x + 256.
Proof.
  unfold round_shift. rewrite Z.shiftr_div_pow2 by lia.
  change (2 ^ 8) with 256.
  pose proof (Z.div_mod (x + 128) 256 ltac:(lia)).
  pose proof (Z.mod_pos_bound (x + 128) 256 ltac:(lia)). lia.
Qed.

Lemma round_shift_mono (x y : Z) : x <= y -> round_shift x <= round_shift y.
Proof.
  intros H. unfold round_shift. rewrite !Z.shiftr_div_pow2 by lia.
  apply Z.div_le_mono; lia.
Qed.

Lemma clamp16_mono (r s : Z) : r <= s -> clamp16 r <= clamp16 s.
Proof. unfold clamp16, INT16_MIN, INT16_MAX. lia. Qed.

Lemma damp_mono (r s : Z) : r <= s -> damp r <= damp s.
Proof. intros H. unfold damp. apply Z.quot_le_mono; lia. Qed.

(** The division truncates toward zero: the remainder has the sign of [r]. *)
Lemma damp_bounds (r : Z) :
  -32768 < r * 29204 - 32768 * damp r < 32768 /\
  (0 <= r -> 0 <= r * 29204 - 32768 * damp r) /\
  (r <= 0 -> r * 29204 - 32768 * damp r <= 0).
Proof.
  unfold damp.
  pose proof (Z.quot_rem' (r * 29204) 32768) as E.
  pose proof (Z.rem_bound_abs (r * 29204) 32768 ltac:(lia)) as B.
  change (Z.abs 32768) with 32768 in B.
  repeat split; try lia.
  - intros Hr. pose proof (Z.rem_nonneg (r * 29204) 32768 ltac:(lia) ltac:(lia)).
    lia.
  - intros Hr. pose proof (Z.rem_nonpos (r * 29204) 32768 ltac:(lia) ltac:(lia)).
    lia.
Qed.

(** The code is [reduce] as long as [res + 128] fits an [int32_t]. *)
Lemma getTruncatedSample_reduce32 (x : Z) :
  -2147483648 <= x <= 2147483519 -> getTruncatedSample x = reduce x.
Proof.
  intros H.
  unfold getTruncatedSample, reduce.
  rewrite (to_int32_small (x + 128)) by lia.
  fold (round_shift x). rewrite clamp16_code.
  pose proof (clamp16_range (round_shift x)) as Hc.
  pose proof (damp_range _ Hc) as Hd.
  rewrite (to_int32_small (clamp16 (round_shift x) * 29204)) by lia.
  fold (damp (clamp16 (round_shift x))).
  rewrite to_int32_small by lia.
  apply to_int16_small. lia.
Qed.

Lemma getTruncatedSample_bounds32 (x : Z) :
  -2147483648 <= x <= 2147483519 -> -29204 <= getTruncatedSample x <= 29203.
Proof.
  intros H. rewrite getTruncatedSample_reduce32 by exact H.
  unfold reduce. apply damp_range, clamp16_range.
Qed.

(** X1. [getTruncatedSample] is monotone on every input for which
    [res + 128] does not overflow: a louder sample never comes out
    quieter, and the sign never flips. *)
Theorem getTruncatedSample_monotone (x y : Z) :
  -2147483648 <= x -> x <= y -> y <= 2147483519 ->
  getTruncatedSample x <= getTruncatedSample y.
Proof.
  intros Hx Hxy Hy.
  rewrite !getTruncatedSample_reduce32 by lia.
  unfold reduce.
  apply damp_mono, clamp16_mono, round_shift_mono. exact Hxy.
Qed.

Lemma getTruncatedSample_monotone_witness :
  -8388608 <= 1000 /\
  getTruncatedSample (-8388608) <= getTruncatedSample 1000.
Proof. split; [lia | apply getTruncatedSample_monotone; lia]. Defined.

(** X2. Inputs beyond the 24 bit range do not wrap, they saturate: for
    every [int32_t] input without overflow in [res + 128] the result lies in
    [-29204, 29203]; it is 29203 from 8388224 on and -29204 up to
    -8388481. *)
Theorem getTruncatedSample_saturates (x : Z) :
  -2147483648 <= x <= 2147483519 ->
  -29204 <= getTruncatedSample x <= 29203 /\
  (8388224 <= x -> getTruncatedSample x = 29203) /\
  (x <= -8388481 -> getTruncatedSample x = -29204).
Proof.
  intros H. split; [exact (getTruncatedSample_bounds32 x H)|].
  rewrite getTruncatedSample_reduce32 by exact H.
  unfold reduce.
  pose proof (round_shift_bounds x) as Hs.
  split.
  - intros Hx.
    replace (clamp16 (round_shift x)) with 32767
      by (unfold clamp16, INT16_MIN, INT16_MAX; lia).
    reflexivity.
  - intros Hx.
    replace (clamp16 (round_shift x)) with (-32768)
      by (unfold clamp16, INT16_MIN, INT16_MAX; lia).
    reflexivity.
Qed.

Lemma getTruncatedSample_saturates_witness :
  -29204 <= getTruncatedSample 100000000 <= 29203 /\
  (8388224 <= 100000000 -> getTruncatedSample 100000000 = 29203) /\
  (100000000 <= -8388481 -> getTruncatedSample 100000000 = -29204).
Proof. apply getTruncatedSample_saturates. lia. Defined.

(** X3. The samples that come out as silence: the result is 0 exactly for
    the inputs from -384 to 383, since the damping division truncates
    toward zero. *)
Theorem getTruncatedSample_zero_iff (x : Z) :
  -2147483648 <= x <= 2147483519 ->
  getTruncatedSample x = 0 <-> -384 <= x <= 383.
Proof.
  intros H. rewrite getTruncatedSample_reduce32 by exact H.
  unfold reduce.
  pose proof (round_shift_bounds x) as Hs.
  pose proof (damp_bounds (clamp16 (round_shift x))) as Hd.
  unfold clamp16, INT16_MIN, INT16_MAX in *.
  destruct Hd as [Hd [Hp Hn]].
  split; intros E.
  - rewrite E in Hd. lia.
  - lia.
Qed.

Lemma getTruncatedSample_zero_iff_witness :
  getTruncatedSample 383 = 0 <-> -384 <= 383 <= 383.
Proof. apply getTruncatedSample_zero_iff. lia. Defined.

(** X4. Accuracy: on the 24 bit range the result is within one and a half
    steps of the exact value [x * 29204 / 2^23], the input scaled to 16
    bits and damped. *)
Theorem getTruncatedSample_accuracy (x : Z) :
  INT24_MIN <= x <= INT24_MAX ->
  Z.abs (8388608 * getTruncatedSample x - 29204 * x) < 3 * 4194304.
Proof.
  unfold INT24_MIN, INT24_MAX. intros H.
  rewrite getTruncatedSample_reduce32 by lia.
  unfold reduce.
  pose proof (round_shift_bounds x) as Hs.
  pose proof (damp_bounds (clamp16 (round_shift x))) as [Hd _].
  unfold clamp16, INT16_MIN, INT16_MAX in *.
  lia.
Qed.

Lemma getTruncatedSample_accuracy_witness :
  Z.abs (8388608 * getTruncatedSample (-6534016) - 29204 * (-6534016))
  < 3 * 4194304.
Proof.
  apply getTruncatedSample_accuracy. unfold INT24_MIN, INT24_MAX. lia.
Defined.

(** X5. The reducer is odd up to one step: a sample and its negative
    come out as negatives of each other or one apart (the rounding shift
    rounds ties upward, and the clamp cuts 32768 but not -32768), so the
    reduction adds no offset of more than one step. *)
Theorem getTruncatedSample_nearly_odd (x : Z) :
  -2147483519 <= x <= 2147483519 ->
  -1 <= getTruncatedSample x + getTruncatedSample (- x) <= 1.
Proof.
  intros H. rewrite !getTruncatedSample_reduce32 by lia.
  unfold reduce.
  pose proof (round_shift_bounds x) as Hs1.
  pose proof (round_shift_bounds (- x)) as Hs2.
  destruct (damp_bounds (clamp16 (round_shift x))) as [Hd1 [Hp1 Hn1]].
  destruct (damp_bounds (clamp16 (round_shift (- x)))) as [Hd2 [Hp2 Hn2]].
  unfold clamp16, INT16_MIN, INT16_MAX in *.
  lia.
Qed.

Lemma getTruncatedSample_nearly_odd_witness :
  (getTruncatedSample 128 = 0 /\ getTruncatedSample (-128) = 0 /\
   getTruncatedSample 640 = 2 /\ getTruncatedSample (-640) = -1) /\
  -1 <= getTruncatedSample 640 + getTruncatedSample (- 640) <= 1.
Proof.
  split; [repeat split; reflexivity|].
  apply getTruncatedSample_nearly_odd. lia.
Defined.

End ReducerFacts.

(** ** Runs of the frame loop *)

Module FrameRunFacts.
Import Machine MachineFacts Stereo Vocabulary RunVocabulary FrameLoopFacts.

Lemma playback_nil (F N : Z) (buf : list Z) (passes : nat) :
  forall reminder : Z, playback F N buf passes [] reminder = [].
Proof.
  induction passes as [|p IH]; intros reminder; [reflexivity|].
  cbn [playback].
  destruct (to_size_t (writePos _) <? buffSampleCount buf);
    [reflexivity | apply IH].
Qed.

(** *** The loop does not look at the samples *)

Lemma copy_n_map (f : Z -> Z) (l : list Z) (from n : Z) :
  copy_n (map f l) from n = map f (copy_n l from n).
Proof. unfold copy_n. rewrite skipn_map, firstn_map. reflexivity. Qed.

Lemma buffSampleCount_map (f : Z -> Z) (buf : list Z) :
  buffSampleCount (map f buf) = buffSampleCount buf.
Proof. unfold buffSampleCount. rewrite length_map. reflexivity. Qed.

Lemma nextFrame_map (f : Z -> Z) (F N : Z) (buf : list Z) (c : Cursor) :
  nextFrame F N (map f buf) c =
  (map f (fst (nextFrame F N buf c)), snd (nextFrame F N buf c)).
Proof.
  unfold nextFrame. rewrite buffSampleCount_map.
  destruct (_ >? buffSampleCount buf); cbn [fst snd].
  - rewrite !copy_n_map, <- map_app, copy_n_map. reflexivity.
  - rewrite copy_n_map. reflexivity.
Qed.

Lemma playback_map (f : Z -> Z) (F N : Z) (buf : list Z) (passes : nat) :
  forall (replies : list SinkReply) (reminder : Z),
  playback F N (map f buf) passes replies reminder =
  map (map f) (playback F N buf passes replies reminder).
Proof.
  induction passes as [|p IHp]; intros replies reminder; [reflexivity|].
  cbn [playback]. rewrite buffSampleCount_map.
  generalize ({| writePos := reminder; writePosReminder := reminder |}) as c.
  induction replies as [|r rest IHr]; intros c.
  - destruct (to_size_t (writePos c) <? buffSampleCount buf);
      [reflexivity | apply IHp].
  - destruct (to_size_t (writePos c) <? buffSampleCount buf); [|apply IHp].
    unfold iteration. rewrite nextFrame_map.
    destruct (nextFrame F N buf c) as [frame reminder'].
    cbn [fst snd].
    destruct (frames_of r <? 0); cbn [map writePosReminder]; f_equal.
    + apply IHp.
    + apply IHr.
Qed.

(** X6. The frame loop only moves samples: byte order normalisation of the
    ring before the loop gives the frames that normalising each frame after
    the loop would give, for every ring, sink and host. *)
Theorem frame_loop_normalize (host : ByteOrder.endianness) (buf : list Z)
  (replies : list SinkReply) :
  frame_loop (normalize host buf) replies =
  map (normalize host) (frame_loop buf replies) /\
  frame_loop (convToBigEndian host buf) replies =
  map (convToBigEndian host) (frame_loop buf replies).
Proof.
  unfold frame_loop, normalize, convToBigEndian. split.
  - destruct (runningOnLittleEndianHost host).
    + apply playback_map.
    + rewrite map_id. reflexivity.
  - apply playback_map.
Qed.

(** *** Invariants of a run *)

Section Run.
Variables (F N : Z) (buf : list Z).
Let C : Z := Z.of_nat (length buf).
Hypothesis frame_fits : 0 <= F * N <= C.
Hypothesis sizes_fit_int : C + F * N <= INT_MAX.

Hypothesis channels_nonneg : 0 <= N.

Lemma nextFrame_step (c : Cursor) :
  0 <= writePos c < C -> 0 <= writePosReminder c <= C ->
  Z.of_nat (length (fst (nextFrame F N buf c))) = F * N /\
  0 <= snd (nextFrame F N buf c) <= C.
Proof.
  intros Hc Hr. destruct c as [wp rm]. cbn [writePos writePosReminder] in *.
  destruct (Z.le_gt_cases (wp + F * N) C) as [Hend | Hend].
  - rewrite (nextFrame_contiguous F N buf frame_fits sizes_fit_int wp rm Hc Hend).
    cbn [fst snd]. split; [|exact Hr].
    rewrite length_slice; fold C; lia.
  - rewrite (nextFrame_spliced F N buf frame_fits sizes_fit_int wp rm Hc
               ltac:(fold C; lia)).
    cbn [fst snd]. fold C. split; [|lia].
    rewrite length_app, Nat2Z.inj_add, !length_slice; fold C; lia.
Qed.

Lemma buffSampleCount_C : buffSampleCount buf = C.
Proof. exact (buffSampleCount_exact F N buf frame_fits sizes_fit_int). Qed.

Lemma playback_frame_length_run (passes : nat) :
  forall (replies : list SinkReply) (reminder : Z),
  0 <= reminder <= C -> Forall (sane F) replies ->
  Forall (fun frame => Z.of_nat (length frame) = F * N)
         (playback F N buf passes replies reminder).
Proof.
  induction passes as [|p IHp]; intros replies reminder Hrem Hsane;
    [constructor|].
  cbn [playback]. rewrite buffSampleCount_C.
  assert (Hinv : 0 <= writePos {| writePos := reminder;
                                  writePosReminder := reminder |}
                      <= C + F * N
                 /\ 0 <= writePosReminder {| writePos := reminder;
                                             writePosReminder := reminder |}
                      <= C) by (cbn; lia).
  revert Hinv.
  generalize ({| writePos := reminder; writePosReminder := reminder |}) as c.
  induction Hsane as [|r rest Hr Hrest IHr]; intros c [Hwp Hrm].
  - destruct (to_size_t (writePos c) <? C); [constructor|].
    rewrite playback_nil. constructor.
  - destruct (Z.ltb_spec (to_size_t (writePos c)) C) as [Hlt | Hge];
      [|apply IHp; [exact Hrm | constructor; assumption]].
    assert (Hc : 0 <= writePos c < C).
    { unfold INT_MAX in sizes_fit_int.
      rewrite to_size_t_small in Hlt by lia. lia. }
    unfold iteration.
    destruct (nextFrame_step c Hc Hrm) as [Hlen Hrem'].
    destruct (nextFrame F N buf c) as [frame reminder'].
    cbn [fst snd] in Hlen, Hrem'.
    destruct (Z.ltb_spec (frames_of r) 0) as [Hneg | Hpos];
      cbn [writePosReminder]; constructor; try exact Hlen.
    + apply IHp; assumption.
    + apply IHr. cbn [writePos writePosReminder]. split; [|exact Hrem'].
      unfold sane in Hr. unfold INT_MAX in sizes_fit_int.
      assert (0 <= frames_of r * N <= F * N) by nia.
      rewrite to_int32_small by lia. lia.
Qed.

(** Nothing comes of a sink that refuses every frame: the frame at the
    reminder is offered once in every pass. *)
Lemma playback_all_failed_run (passes : nat) :
  forall (replies : list SinkReply) (reminder : Z),
  0 <= reminder < C -> reminder + F * N <= C ->
  Forall failing replies ->
  playback F N buf passes replies reminder =
  repeat (slice buf reminder (reminder + F * N))
         (Nat.min passes (length replies)).
Proof.
  induction passes as [|p IHp]; intros replies reminder Hrem Hend Hfail;
    [reflexivity|].
  destruct Hfail as [|r rest Hr Hrest];
    [rewrite playback_nil, Nat.min_0_r; reflexivity|].
  cbn [playback writePos]. rewrite buffSampleCount_C.
  unfold INT_MAX in sizes_fit_int.
  rewrite to_size_t_small by lia.
  destruct (Z.ltb_spec reminder C) as [_ | H]; [|lia].
  unfold iteration.
  rewrite (nextFrame_contiguous F N buf frame_fits sizes_fit_int
             reminder reminder Hrem Hend).
  unfold failing in Hr.
  destruct (Z.ltb_spec (frames_of r) 0) as [_ | H]; [|lia].
  cbn [writePosReminder length Nat.min repeat]. f_equal.
  apply IHp; assumption.
Qed.

End Run.

(** X7. Every frame handed to the sink is complete and lies inside the
    ring: whatever the sink replies (an error, or any count up to the
    frames it was handed), for every number of passes each frame offered
    has exactly [F * N] samples, the cursors never leave the ring and no
    conversion between [int] and [size_t] wraps. *)
Theorem playback_frame_length (F N : Z) (buf : list Z) (passes : nat)
  (replies : list SinkReply) (reminder : Z) :
  0 <= N -> 0 <= F * N <= Z.of_nat (length buf) ->
  Z.of_nat (length buf) + F * N <= INT_MAX ->
  0 <= reminder <= Z.of_nat (length buf) ->
  Forall (sane F) replies ->
  Forall (fun frame => Z.of_nat (length frame) = F * N)
         (playback F N buf passes replies reminder).
Proof.
  intros HN Hfit Hint Hrem Hsane.
  exact (playback_frame_length_run F N buf Hfit Hint HN passes replies
           reminder Hrem Hsane).
Qed.

Lemma playback_frame_length_witness :
  Forall (fun frame => Z.of_nat (length frame) = 2 * 2)
    (playback 2 2 [10; 11; 12; 13; 14; 15] 3
       [ {| written := 1; recovered := 0 |};
         {| written := -32; recovered := 0 |};
         {| written := 2; recovered := 0 |};
         {| written := -32; recovered := -32 |};
         {| written := 2; recovered := 0 |} ] 0).
Proof.
  apply playback_frame_length; simpl; unfold INT_MAX; try lia.
  repeat constructor; unfold sane, frames_of; simpl; lia.
Defined.

(** X8. A sink that refuses every write (and every recovery) ends each pass
    at its first frame: starting from the ring's beginning the program
    offers the first frame once per pass, as often as there are passes, and
    never moves on. *)
Theorem frame_loop_all_failed (buf : list Z) (replies : list SinkReply) :
  PROC_SIN_FRAME_SIZE * 2 <= Z.of_nat (length buf) ->
  Z.of_nat (length buf) + PROC_SIN_FRAME_SIZE * 2 <= INT_MAX ->
  Forall failing replies ->
  frame_loop buf replies =
  repeat (slice buf 0 (PROC_SIN_FRAME_SIZE * 2))
         (Nat.min _simulationDurSec (length replies)).
Proof.
  intros Hfit Hint Hfail. unfold frame_loop.
  rewrite (playback_all_failed_run PROC_SIN_FRAME_SIZE 2 buf);
    unfold PROC_SIN_FRAME_SIZE in *; try lia; try assumption.
  reflexivity.
Qed.

Lemma frame_loop_all_failed_witness :
  frame_loop (ramp (Z.to_nat 2400) 0)
    (repeat {| written := -32; recovered := -32 |} 40) =
  repeat (slice (ramp (Z.to_nat 2400) 0) 0 (PROC_SIN_FRAME_SIZE * 2))
         (Nat.min _simulationDurSec
            (length (repeat {| written := -32; recovered := -32 |} 40))).
Proof.
  apply frame_loop_all_failed.
  - rewrite length_ramp, Z2Nat.id by lia. unfold PROC_SIN_FRAME_SIZE. lia.
  - rewrite length_ramp, Z2Nat.id by lia.
    unfold PROC_SIN_FRAME_SIZE, INT_MAX. lia.
  - apply Forall_forall. intros r Hr. apply repeat_spec in Hr. subst r.
    unfold failing, frames_of. simpl. lia.
Defined.

End FrameRunFacts.

(** ** The first two turns of the ring *)

Module WrapFacts.
Import Machine MachineFacts Stereo Vocabulary RunVocabulary FrameLoopFacts
  FrameRunFacts.

Section Passes.
Variables (F N : Z) (buf : list Z).
Let C : Z := Z.of_nat (length buf).
Let L : Z := F * N.
Hypothesis frame_positive : 0 < F /\ 0 < N.
Hypothesis frame_fits : 0 <= F * N <= C.
Hypothesis sizes_fit_int : C + F * N <= INT_MAX.

Let frame_at (a : Z) : list Z :=
  fst (nextFrame F N buf {| writePos := a; writePosReminder := 0 |}).

Lemma L_positive : 0 < L.
Proof. destruct frame_positive. subst L. nia. Qed.

Lemma fst_nextFrame_reminder (a r : Z) :
  fst (nextFrame F N buf {| writePos := a; writePosReminder := r |})
  = frame_at a.
Proof.
  unfold frame_at, nextFrame. cbn [writePos writePosReminder].
  destruct (_ >? buffSampleCount buf); reflexivity.
Qed.

(** The frame read at [a] is the cyclic reading from [a] on. *)
Lemma frame_at_wrapped (a : Z) :
  0 <= a < C ->
  frame_at a = slice (buf ++ buf) a (a + L).
Proof.
  intros Ha. pose proof L_positive as HL. unfold frame_at.
  destruct (Z.le_gt_cases (a + F * N) C) as [Hend | Hend].
  - rewrite (nextFrame_contiguous F N buf frame_fits sizes_fit_int a 0 Ha Hend).
    cbn [fst]. unfold slice. fold L.
    rewrite skipn_app.
    replace (Z.to_nat a - length buf)%nat with 0%nat by (subst C; lia).
    cbn [skipn]. rewrite firstn_app.
    replace (Z.to_nat (a + L - a) - length (skipn (Z.to_nat a) buf))%nat
      with 0%nat by (rewrite length_skipn; subst C L; lia).
    cbn [firstn]. rewrite app_nil_r. reflexivity.
  - rewrite (nextFrame_spliced F N buf frame_fits sizes_fit_int a 0 Ha
               ltac:(fold C; lia)).
    cbn [fst]. fold C. unfold slice. fold L.
    rewrite skipn_app.
    replace (Z.to_nat a - length buf)%nat with 0%nat by (subst C; lia).
    cbn [skipn]. rewrite firstn_app.
    rewrite length_skipn.
    replace (Z.to_nat (L - (C - a) - 0)) with
      (Z.to_nat (a + L - a) - (length buf - Z.to_nat a))%nat
      by (subst C L; lia).
    f_equal.
    rewrite firstn_all2 by (rewrite length_skipn; subst C L; lia).
    symmetry. apply firstn_all2. rewrite length_skipn. subst C L. lia.
Qed.

(** One pass that starts at [s]: [n] frames, the last of which reaches or
    passes the end of the ring; then the next pass begins. *)
Lemma pass_emits (p : nat) (s : Z) (n : nat) :
  0 <= s < C ->
  s + (Z.of_nat n - 1) * L < C <= s + Z.of_nat n * L ->
  forall k : nat,
  playback F N buf (S p) (repeat (full_write F) k) s =
  map (fun j => frame_at (s + Z.of_nat j * L)) (seq 0 (Nat.min k n)) ++
  playback F N buf p (repeat (full_write F) (k - n))
    (if s + Z.of_nat n * L =? C then s else s + Z.of_nat n * L - C).
Proof.
  intros Hs Hn k. pose proof L_positive as HL.
  destruct frame_positive as [HF HN].
  set (r_end := if s + Z.of_nat n * L =? C then s
                else s + Z.of_nat n * L - C).
  cbn [playback].
  rewrite (buffSampleCount_exact F N buf frame_fits sizes_fit_int). fold C.
  assert (Hgen : forall (k j : nat) (r : Z),
    (j <= n)%nat -> ((j < n)%nat -> r = s) -> (j = n -> r = r_end) ->
    (fix inner (replies : list SinkReply) (c : Cursor) {struct replies}
       : list (list Z) :=
       if to_size_t (writePos c) <? C
       then match replies with
            | [] => []
            | r0 :: rest =>
              let '(frame, c', broke) := iteration F N buf c r0 in
              frame :: (if broke
                        then playback F N buf p rest (writePosReminder c')
                        else inner rest c')
            end
       else playback F N buf p replies (writePosReminder c))
      (repeat (full_write F) k)
      {| writePos := s + Z.of_nat j * L; writePosReminder := r |}
    = map (fun j => frame_at (s + Z.of_nat j * L)) (seq j (Nat.min k (n - j)))
      ++ playback F N buf p (repeat (full_write F) (k - (n - j))) r_end).
  { clear k. induction k as [|k IHk]; intros j r Hj Hlt Heq.
    - cbn [repeat Nat.min seq map app Nat.sub].
      destruct (_ <? C); rewrite ?playback_nil; reflexivity.
    - cbn [repeat writePos].
      unfold INT_MAX in sizes_fit_int.
      assert (Hpos : 0 <= s + Z.of_nat j * L <= C + L) by (subst L; nia).
      rewrite to_size_t_small by (subst L; lia).
      destruct (Z.ltb_spec (s + Z.of_nat j * L) C) as [Hin | Hout].
      + assert (Hjn : (j < n)%nat) by nia.
        rewrite (Hlt Hjn).
        unfold iteration.
        pose proof (fst_nextFrame_reminder (s + Z.of_nat j * L) s) as Hfr.
        assert (Hrem : snd (nextFrame F N buf
                              {| writePos := s + Z.of_nat j * L;
                                 writePosReminder := s |})
                       = if (S j =? n)%nat then r_end else s).
        { destruct (Z.le_gt_cases (s + Z.of_nat j * L + F * N) C) as [He | He].
          - rewrite (nextFrame_contiguous F N buf frame_fits sizes_fit_int
                       (s + Z.of_nat j * L) s ltac:(fold C; lia) He).
            cbn [snd]. destruct (Nat.eqb_spec (S j) n) as [E | _];
              [|reflexivity].
            unfold r_end.
            destruct (Z.eqb_spec (s + Z.of_nat n * L) C) as [_ | Hne];
              [reflexivity|]. subst L. nia.
          - rewrite (nextFrame_spliced F N buf frame_fits sizes_fit_int
                       (s + Z.of_nat j * L) s ltac:(fold C; lia)
                       ltac:(fold C; lia)).
            cbn [snd]. fold C.
            assert (E : S j = n) by (subst L; nia).
            destruct (Nat.eqb_spec (S j) n) as [_ | Hne]; [|lia].
            unfold r_end.
            destruct (Z.eqb_spec (s + Z.of_nat n * L) C) as [Heq' | _];
              [subst L; nia | subst L; nia]. }
        destruct (nextFrame F N buf _) as [frame reminder'].
        cbn [fst snd] in Hfr, Hrem. subst frame reminder'.
        unfold frames_of, full_write. cbn [written recovered].
        destruct (Z.ltb_spec F 0) as [H | _]; [lia|].
        destruct (Z.ltb_spec F 0) as [H | _]; [lia|].
        cbn [writePos writePosReminder].
        rewrite to_int32_small by (subst L; lia).
        replace (s + Z.of_nat j * L + F * N)
          with (s + Z.of_nat (S j) * L) by (subst L; lia).
        replace (Nat.min (S k) (n - j)) with (S (Nat.min k (n - S j))) by lia.
        replace (S k - (n - j))%nat with (k - (n - S j))%nat by lia.
        cbn [seq map app]. f_equal.
        apply (IHk (S j) (if (S j =? n)%nat then r_end else s));
          [ lia
          | intros H; destruct (Nat.eqb_spec (S j) n); [lia | reflexivity]
          | intros H; destruct (Nat.eqb_spec (S j) n); [reflexivity | lia]].
      + assert (Hjn : j = n) by (subst L; nia).
        rewrite (Heq Hjn). subst j.
        replace (n - n)%nat with 0%nat by lia.
        rewrite Nat.min_0_r, Nat.sub_0_r. reflexivity. }
  specialize (Hgen k 0%nat s ltac:(lia) ltac:(intros; reflexivity)).
  rewrite Z.mul_0_l, Z.add_0_r, Nat.sub_0_r in Hgen.
  apply Hgen. intros E. subst n.
  (* no frame at all: the ring would be empty *)
  lia.
Qed.

Lemma frames_of_pass (s : Z) :
  0 <= s < C ->
  exists n : nat, s + (Z.of_nat n - 1) * L < C <= s + Z.of_nat n * L.
Proof.
  intros Hs. pose proof L_positive as HL.
  exists (Z.to_nat ((C - s + L - 1) / L)).
  pose proof (Z.div_mod (C - s + L - 1) L ltac:(lia)) as D.
  pose proof (Z.mod_pos_bound (C - s + L - 1) L HL) as B.
  assert (0 <= (C - s + L - 1) / L) by (apply Z.div_pos; lia).
  rewrite Z2Nat.id by assumption. nia.
Qed.

Lemma nth_error_map_seq (f : nat -> list Z) (n : nat) :
  forall a i : nat, (i < n)%nat ->
  nth_error (map f (seq a n)) i = Some (f (a + i)%nat).
Proof.
  induction n as [|n IH]; intros a i Hi; [lia|].
  destruct i as [|i]; cbn [seq map nth_error].
  - rewrite Nat.add_0_r. reflexivity.
  - rewrite IH by lia. f_equal. f_equal. lia.
Qed.

Lemma two_turns (p k i : nat) :
  (i < k)%nat -> Z.of_nat i * L < 2 * C ->
  nth_error (playback F N buf (S (S p)) (repeat (full_write F) k) 0) i
  = Some (wrapped_frame buf L i).
Proof.
  intros Hik Hi. pose proof L_positive as HL.
  assert (HC : 0 < C) by (subst L; lia).
  destruct (frames_of_pass 0 ltac:(lia)) as [n1 Hn1].
  rewrite (pass_emits (S p) 0 n1 ltac:(lia) Hn1).
  set (r1 := if 0 + Z.of_nat n1 * L =? C then 0 else 0 + Z.of_nat n1 * L - C).
  assert (Hr1 : r1 = Z.of_nat n1 * L - C).
  { unfold r1. destruct (Z.eqb_spec (0 + Z.of_nat n1 * L) C); lia. }
  assert (Hr1C : 0 <= r1 < C) by (subst L; nia).
  destruct (frames_of_pass r1 Hr1C) as [n2 Hn2].
  rewrite (pass_emits p r1 n2 Hr1C Hn2).
  unfold wrapped_frame. fold C.
  destruct (Nat.lt_ge_cases i n1) as [H1 | H1].
  - rewrite nth_error_app1 by (rewrite length_map, length_seq; lia).
    rewrite nth_error_map_seq by lia. f_equal.
    cbn [Nat.add]. rewrite Z.add_0_l.
    rewrite frame_at_wrapped by nia.
    rewrite Z.mod_small by nia. reflexivity.
  - rewrite nth_error_app2 by (rewrite length_map, length_seq; lia).
    rewrite length_map, length_seq.
    replace (Nat.min k n1) with n1 by lia.
    assert (H2 : (i - n1 < n2)%nat) by nia.
    rewrite nth_error_app1 by (rewrite length_map, length_seq; lia).
    rewrite nth_error_map_seq by lia. f_equal.
    cbn [Nat.add].
    replace (r1 + Z.of_nat (i - n1) * L) with (Z.of_nat i * L - C) by nia.
    rewrite frame_at_wrapped by nia.
    replace ((Z.of_nat i * L) mod C) with (Z.of_nat i * L - C);
      [reflexivity|].
    apply Z.mod_unique with (q := 1); nia.
Qed.

End Passes.

(** X9. Through the first two turns of the ring the frame loop is
    seamless for all sizes: with frames of [F * N <= C] samples and a sink
    that takes every frame whole, every frame [i] that starts within the
    first two turns ([i * F * N < 2 * C]) is the cyclic reading of the ring
    from [(i * F * N) mod C] on, across the wraparound of the first pass
    and into the second. *)
Theorem playback_two_turns (F N : Z) (buf : list Z) (passes k i : nat) :
  0 < F -> 0 < N -> F * N <= Z.of_nat (length buf) ->
  Z.of_nat (length buf) + F * N <= INT_MAX ->
  (2 <= passes)%nat -> (i < k)%nat ->
  Z.of_nat i * (F * N) < 2 * Z.of_nat (length buf) ->
  nth_error (playback F N buf passes (repeat (full_write F) k) 0) i
  = Some (wrapped_frame buf (F * N) i).
Proof.
  intros HF HN Hfit Hint Hp Hik Hi.
  destruct passes as [|[|p]]; [lia | lia |].
  exact (two_turns F N buf (conj HF HN) ltac:(nia) Hint p k i Hik Hi).
Qed.

Lemma playback_two_turns_witness :
  nth_error (playback 2 2 [10; 11; 12; 13; 14; 15] 30
               (repeat (full_write 2) 4) 0) 2
  = Some (wrapped_frame [10; 11; 12; 13; 14; 15] (2 * 2) 2) /\
  wrapped_frame [10; 11; 12; 13; 14; 15] (2 * 2) 1 = [14; 15; 10; 11].
Proof.
  split; [|reflexivity].
  apply (playback_two_turns 2 2 [10; 11; 12; 13; 14; 15] 30 4 2);
    simpl; unfold INT_MAX; lia.
Defined.

End WrapFacts.

(** ** Short writes *)

Module ShortWriteFacts.
Import Machine MachineFacts Stereo Vocabulary RunVocabulary FrameLoopFacts
  FrameRunFacts.

Lemma slice_empty (l : list Z) (a : Z) : slice l a a = [].
Proof. unfold slice. rewrite Z.sub_diag. reflexivity. Qed.

Lemma firstn_slice (l : list Z) (a b c : Z) :
  a <= b <= c -> firstn (Z.to_nat (b - a)) (slice l a c) = slice l a b.
Proof.
  intros H. unfold slice. rewrite firstn_firstn. f_equal. lia.
Qed.

Lemma firstn_plus (n m : nat) :
  forall l : list Z, firstn (n + m) l = firstn n l ++ firstn m (skipn n l).
Proof.
  induction n as [|n IH]; intros [|x l]; cbn [Nat.add firstn skipn app];
    try reflexivity.
  - rewrite firstn_nil. reflexivity.
  - rewrite IH. reflexivity.
Qed.

Lemma slice_app (l : list Z) (a b c : Z) :
  0 <= a <= b -> b <= c -> slice l a b ++ slice l b c = slice l a c.
Proof.
  intros Hab Hbc. unfold slice.
  replace (Z.to_nat b) with (Z.to_nat (b - a) + Z.to_nat a)%nat by lia.
  rewrite <- skipn_skipn.
  set (m := skipn (Z.to_nat a) l).
  replace (Z.to_nat (c - a)) with (Z.to_nat (b - a) + Z.to_nat (c - b))%nat
    by lia.
  rewrite firstn_plus. reflexivity.
Qed.

Section Run.
Variables (F N : Z) (buf : list Z).
Let C : Z := Z.of_nat (length buf).
Hypothesis channels_nonneg : 0 <= N.
Hypothesis frame_fits : 0 <= F * N <= C.
Hypothesis sizes_fit_int : C + F * N <= INT_MAX.
Hypothesis frame_nonempty : 0 < F * N.

Lemma delivered_contiguous (p : nat) :
  forall (replies : list SinkReply) (a r : Z),
  0 <= a -> Forall (sane F) replies -> Forall accepting replies ->
  a + frames_taken replies * N + F * N <= C ->
  delivered N
    ((fix inner (replies : list SinkReply) (c : Cursor) {struct replies}
        : list (list Z) :=
        if to_size_t (writePos c) <? buffSampleCount buf
        then match replies with
             | [] => []
             | r0 :: rest =>
               let '(frame, c', broke) := iteration F N buf c r0 in
               frame :: (if broke
                         then playback F N buf p rest (writePosReminder c')
                         else inner rest c')
             end
        else playback F N buf p replies (writePosReminder c))
       replies {| writePos := a; writePosReminder := r |})
    replies
  = slice buf a (a + frames_taken replies * N).
Proof.
  rewrite (buffSampleCount_exact F N buf frame_fits sizes_fit_int). fold C.
  induction replies as [|r0 rest IH]; intros a r Ha Hsane Hok Hend.
  - cbn [frames_taken fold_right]. rewrite Z.mul_0_l, Z.add_0_r, slice_empty.
    destruct (_ <? C); [reflexivity|].
    rewrite playback_nil. reflexivity.
  - inversion Hsane as [|? ? Hs0 Hsrest]; subst.
    inversion Hok as [|? ? Ho0 Horest]; subst.
    unfold sane in Hs0. unfold accepting in Ho0.
    cbn [frames_taken fold_right] in Hend |- *.
    fold (frames_taken rest) in Hend |- *.
    assert (Hrest : 0 <= frames_taken rest).
    { clear - Horest. induction Horest as [|x l Hx Hl IHl]; cbn; [lia|].
      unfold accepting in Hx. fold (frames_taken l). lia. }
    assert (Hf : 0 <= frames_of r0 * N <= F * N) by nia.
    assert (HrN : 0 <= frames_taken rest * N) by nia.
    cbn [writePos]. unfold INT_MAX in sizes_fit_int.
    rewrite to_size_t_small by lia.
    destruct (Z.ltb_spec a C) as [_ | H]; [|nia].
    unfold iteration.
    rewrite (nextFrame_contiguous F N buf frame_fits sizes_fit_int a r
               ltac:(fold C; nia) ltac:(fold C; nia)).
    destruct (Z.ltb_spec (frames_of r0) 0) as [H | _]; [lia|].
    cbn [writePos writePosReminder].
    rewrite to_int32_small by nia.
    unfold delivered. cbn [combine map concat fst snd].
    replace (a + (frames_of r0 + frames_taken rest) * N)
      with (a + frames_of r0 * N + frames_taken rest * N) by ring.
    rewrite <- (slice_app buf a (a + frames_of r0 * N)
                  (a + frames_of r0 * N + frames_taken rest * N)) by lia.
    f_equal.
    + unfold accepted.
      replace (frames_of r0 * N) with (a + frames_of r0 * N - a) at 1 by lia.
      apply firstn_slice. lia.
    + apply (IH (a + frames_of r0 * N) r); [lia | assumption | assumption|].
      nia.
Qed.

End Run.

(** X10. Short writes lose nothing before the wraparound: if the sink
    accepts every write but takes only part of some frames, then, as long
    as the frames are read without wrapping
    ([(frames taken) * N + F * N <= C]), the parts it takes put end to end
    are exactly [buffer[0, (frames taken) * N)]: each frame resumes where
    the sink stopped. *)
Theorem short_writes_resume (F N : Z) (buf : list Z) (passes : nat)
  (replies : list SinkReply) :
  0 <= N -> 0 < F * N <= Z.of_nat (length buf) ->
  Z.of_nat (length buf) + F * N <= INT_MAX ->
  Forall (sane F) replies -> Forall accepting replies ->
  frames_taken replies * N + F * N <= Z.of_nat (length buf) ->
  delivered N (playback F N buf (S passes) replies 0) replies
  = slice buf 0 (frames_taken replies * N).
Proof.
  intros HN Hfit Hint Hsane Hok Hend.
  cbn [playback].
  rewrite (delivered_contiguous F N buf HN ltac:(lia) Hint ltac:(lia)
             passes replies 0 0);
    try assumption; try lia.
  reflexivity.
Qed.

Lemma short_writes_resume_witness :
  delivered 2
    (playback 2 2 [10; 11; 12; 13; 14; 15; 16; 17; 18; 19] 1
       [ {| written := 1; recovered := 0 |};
         {| written := 2; recovered := 0 |};
         {| written := -32; recovered := 0 |} ] 0)
    [ {| written := 1; recovered := 0 |};
      {| written := 2; recovered := 0 |};
      {| written := -32; recovered := 0 |} ]
  = slice [10; 11; 12; 13; 14; 15; 16; 17; 18; 19] 0
      (frames_taken [ {| written := 1; recovered := 0 |};
                      {| written := 2; recovered := 0 |};
                      {| written := -32; recovered := 0 |} ] * 2) /\
  playback 2 2 [10; 11; 12; 13; 14; 15; 16; 17; 18; 19] 1
       [ {| written := 1; recovered := 0 |};
         {| written := 2; recovered := 0 |};
         {| written := -32; recovered := 0 |} ] 0
  = [[10; 11; 12; 13]; [12; 13; 14; 15]; [16; 17; 18; 19]].
Proof.
  split; [|reflexivity].
  apply short_writes_resume; try (simpl; unfold INT_MAX; lia);
    repeat constructor; unfold sane, accepting, frames_of; simpl; lia.
Defined.

End ShortWriteFacts.

(** ** Rings that hold a whole number of frames *)

Module TilingFacts.
Import Machine MachineFacts Stereo Vocabulary RunVocabulary FrameLoopFacts
  FrameRunFacts.

Section Tiling.
Variables (F N : Z) (buf : list Z) (m : nat).
Let C : Z := Z.of_nat (length buf).
Hypothesis frame_positive : 0 < F /\ 0 < N.
Hypothesis tiles_positive : (0 < m)%nat.
Hypothesis ring_tiled : C = Z.of_nat m * (F * N).
Hypothesis sizes_fit_int : C + F * N <= INT_MAX.

Let tile (i : nat) : list Z :=
  slice buf (Z.of_nat (i mod m) * (F * N)) (Z.of_nat (i mod m) * (F * N) + F * N).

Lemma tiled_frame_fits : 0 <= F * N <= C.
Proof. destruct frame_positive. rewrite ring_tiled. nia. Qed.

Lemma playback_tiles (passes : nat) :
  forall (k base : nat), (base mod m = 0)%nat ->
  playback F N buf passes (repeat (full_write F) k) 0 =
  map tile (seq base (Nat.min k (passes * m))).
Proof.
  pose proof tiled_frame_fits as Hfit.
  destruct frame_positive as [HF HN].
  induction passes as [|p IHp]; intros k base Hbase.
  - rewrite Nat.min_0_r. reflexivity.
  - cbn [playback].
    rewrite (buffSampleCount_exact F N buf Hfit sizes_fit_int). fold C.
    change {| writePos := 0; writePosReminder := 0 |}
      with {| writePos := Z.of_nat 0 * (F * N); writePosReminder := 0 |}.
    replace (Nat.min k (S p * m)) with (Nat.min k (m - 0 + p * m)) by lia.
    rewrite <- (Nat.add_0_r base) at 1.
    assert (H0 : (0 <= m)%nat) by lia. revert H0.
    generalize 0%nat as j. revert k.
    induction k as [|k IHk]; intros j Hj.
    + cbn [repeat Nat.min seq map].
      destruct (_ <? C); [reflexivity | apply playback_nil].
    + cbn [repeat]. cbn [writePos].
      unfold INT_MAX in sizes_fit_int.
      rewrite to_size_t_small by nia.
      destruct (Z.ltb_spec (Z.of_nat j * (F * N)) C) as [Hlt | Hge].
      * assert (Hjm : (j < m)%nat) by nia.
        unfold iteration.
        rewrite (nextFrame_contiguous F N buf Hfit sizes_fit_int
                   (Z.of_nat j * (F * N)) 0) by (fold C; nia).
        unfold frames_of, full_write. cbn [written recovered].
        destruct (Z.ltb_spec F 0) as [H | _]; [lia|].
        destruct (Z.ltb_spec F 0) as [H | _]; [lia|].
        cbn [writePos writePosReminder].
        rewrite to_int32_small by nia.
        replace (Z.of_nat j * (F * N) + F * N)
          with (Z.of_nat (S j) * (F * N)) by lia.
        replace (Nat.min (S k) (m - j + p * m))
          with (S (Nat.min k (m - S j + p * m))) by lia.
        cbn [seq map]. f_equal.
        -- unfold tile.
           replace ((base + j) mod m)%nat with j.
           ++ f_equal. lia.
           ++ apply Nat.Div0.mod_divides in Hbase. destruct Hbase as [q ->].
              rewrite Nat.add_comm, Nat.mul_comm, Nat.Div0.mod_add.
              symmetry. apply Nat.mod_small. exact Hjm.
        -- replace (base + j + 1)%nat with (base + S j)%nat by lia.
           replace (S (base + j)) with (base + S j)%nat by lia.
           apply IHk. lia.
      * assert (j = m) by nia. subst j.
        replace (m - m + p * m)%nat with (p * m)%nat by lia.
        change (full_write F :: repeat (full_write F) k)
          with (repeat (full_write F) (S k)).
        apply IHp.
        rewrite <- Nat.Div0.add_mod_idemp_l, Hbase. cbn [Nat.add].
        apply Nat.Div0.mod_same.
Qed.

End Tiling.

Lemma cyclic_frame_tile (F N : Z) (buf : list Z) (m i : nat) :
  0 < F * N -> (0 < m)%nat ->
  Z.of_nat (length buf) = Z.of_nat m * (F * N) ->
  cyclic_frame buf (F * N) i =
  slice buf (Z.of_nat (i mod m) * (F * N)) (Z.of_nat (i mod m) * (F * N) + F * N).
Proof.
  intros HFN Hm Hlen. unfold cyclic_frame. rewrite Hlen.
  rewrite Z.mul_mod_distr_r by lia.
  rewrite Nat2Z.inj_mod. reflexivity.
Qed.

(** X11. A ring that holds a whole number of frames is played without a
    seam: if the capacity is [m] frames of [F * N] samples and the sink
    takes every frame whole, then through all passes frame [i] is
    [buffer[s, s + F*N)] with [s = (i * F * N) mod C]; the wraparound
    branch is never taken and the reminder stays 0. *)
Theorem playback_tiled (F N : Z) (buf : list Z) (m passes k : nat) :
  0 < F -> 0 < N -> (0 < m)%nat ->
  Z.of_nat (length buf) = Z.of_nat m * (F * N) ->
  Z.of_nat (length buf) + F * N <= INT_MAX ->
  playback F N buf passes (repeat (full_write F) k) 0 =
  map (cyclic_frame buf (F * N)) (seq 0 (Nat.min k (passes * m))).
Proof.
  intros HF HN Hm Hlen Hint.
  rewrite (playback_tiles F N buf m (conj HF HN) Hm Hlen Hint passes k 0%nat)
    by (apply Nat.Div0.mod_0_l).
  apply map_ext. intros i. symmetry.
  apply cyclic_frame_tile; [nia | exact Hm | exact Hlen].
Qed.

Lemma playback_tiled_witness :
  playback 2 2 [10; 11; 12; 13; 14; 15; 16; 17] 3
    (repeat (full_write 2) 5) 0 =
  map (cyclic_frame [10; 11; 12; 13; 14; 15; 16; 17] (2 * 2))
      (seq 0 (Nat.min 5 (3 * 2))).
Proof.
  apply (playback_tiled 2 2 [10; 11; 12; 13; 14; 15; 16; 17] 2 3 5);
    simpl; unfold INT_MAX; lia.
Defined.

End TilingFacts.

(** ** What the device reads *)

Module WireFacts.
Import Machine MachineFacts ByteOrder StereoOpt Vocabulary RunVocabulary
  BlockFacts ByteOrderFacts FillBufferFacts NormalizationFacts.

Lemma bytes_in_memory_htons (host : endianness) (v : Z) :
  is_uint16 v -> bytes_in_memory host (htons host v) = big_endian_bytes v.
Proof.
  intros Hv. destruct host; cbn [bytes_in_memory htons]; [|reflexivity].
  destruct (bswap16_bytes v Hv) as [-> ->]. reflexivity.
Qed.

Lemma flat_map_bytes_htons (host : endianness) (buf : list Z) :
  Forall is_uint16 buf ->
  flat_map (bytes_in_memory host) (map (htons host) buf)
  = flat_map big_endian_bytes buf.
Proof.
  induction 1 as [|v l Hv Hl IH]; [reflexivity|].
  cbn [map flat_map]. rewrite IH, bytes_in_memory_htons by exact Hv.
  reflexivity.
Qed.

(** X12. After the normalisation the samples lie in memory most significant
    byte first on either host, which is the layout [SND_PCM_FORMAT_S16_BE]
    asks for: the bytes of the normalised buffer, in the order the host
    stores them, are the big endian bytes of the samples.  This holds for
    the guarded conversion of the computing programs and for
    [prepWriteBuffer], whose guard is always true. *)
Theorem normalized_buffer_is_big_endian (host : endianness) (buf : list Z)
  (p : Params) (sigBuff : list Z) :
  Forall is_uint16 buf ->
  flat_map (bytes_in_memory host) (Stereo.normalize host buf)
    = flat_map big_endian_bytes buf /\
  flat_map (bytes_in_memory host) (BitDepthConv.normalize host buf)
    = flat_map big_endian_bytes buf /\
  flat_map (bytes_in_memory host) (prepWriteBuffer p host sigBuff)
    = flat_map big_endian_bytes (fillBuffer p sigBuff []).
Proof.
  intros Hbuf. repeat split.
  - unfold Stereo.normalize, Stereo.runningOnLittleEndianHost,
      Stereo.convToBigEndian.
    rewrite htonl_query. destruct host.
    + apply flat_map_bytes_htons. exact Hbuf.
    + reflexivity.
  - unfold BitDepthConv.normalize, BitDepthConv.runningOnLittleEndianHost,
      BitDepthConv.convToBigEndian.
    rewrite htonl_query. destruct host.
    + apply flat_map_bytes_htons. exact Hbuf.
    + reflexivity.
  - unfold prepWriteBuffer, function_name_as_condition, convToBigEndian.
    apply flat_map_bytes_htons, fillBuffer_is_uint16.
Qed.

Lemma normalized_buffer_is_big_endian_witness :
  flat_map (bytes_in_memory LittleEndian)
    (Stereo.normalize LittleEndian [3027; 62509])
    = flat_map big_endian_bytes [3027; 62509] /\
  flat_map (bytes_in_memory LittleEndian)
    (BitDepthConv.normalize LittleEndian [3027; 62509])
    = flat_map big_endian_bytes [3027; 62509] /\
  flat_map (bytes_in_memory LittleEndian)
    (prepWriteBuffer params LittleEndian monoSine1kHzLoopUp)
    = flat_map big_endian_bytes (fillBuffer params monoSine1kHzLoopUp []).
Proof.
  apply (normalized_buffer_is_big_endian LittleEndian [3027; 62509]).
  repeat constructor; unfold is_uint16; lia.
Defined.

(** X13. [fillBuffer] appends: the vector it is handed is not cleared, so
    what it held stays in front of the periods pushed, and the length grows
    by [SINES_IN_FRAME * size * AUD_CHANNELS] with every call. *)
Theorem fillBuffer_appends (p : Params) (monoSigBuff buf : list Z) :
  fillBuffer p monoSigBuff buf = buf ++ fillBuffer p monoSigBuff [] /\
  length (fillBuffer p monoSigBuff buf) =
  (length buf + Z.to_nat (SINES_IN_FRAME p) *
                (length monoSigBuff * Z.to_nat (AUD_CHANNELS p)))%nat.
Proof.
  assert (E : fillBuffer p monoSigBuff buf = buf ++ fillBuffer p monoSigBuff []).
  { unfold fillBuffer. rewrite !fillBuffer_loop_app. reflexivity. }
  split; [exact E|].
  rewrite E, length_app, length_fillBuffer. reflexivity.
Qed.

Lemma to_int16_to_uint16 (s : Z) : is_int16 s -> to_int16 (to_uint16 s) = s.
Proof.
  unfold is_int16, INT16_MIN, INT16_MAX, to_int16, wrap_signed, to_uint16.
  intros H. change (2 ^ (16 - 1)) with 32768. change (2 ^ 16) with 65536.
  rewrite Zplus_mod_idemp_l. rewrite Z.mod_small by lia. lia.
Qed.

Lemma map_decode_repeat (f : Z -> Z) (g : Z -> Z) (N : nat) (l : list Z) :
  map f (flat_map (fun s => repeat (g s) N) l)
  = flat_map (fun s => repeat (f (g s)) N) l.
Proof.
  induction l as [|s l IH]; [reflexivity|].
  cbn [flat_map]. rewrite map_app, IH, map_repeat. reflexivity.
Qed.

(** X14. Nothing is lost on the way into the write buffer: reading the
    prepared buffer back (the two bytes put in host order again, the 16
    bits taken as a signed sample) gives the table, each entry on every
    channel, [SINES_IN_FRAME] times over, on either host. *)
Theorem prepWriteBuffer_read_back (p : Params) (host : endianness)
  (sigBuff : list Z) :
  Forall is_int16 sigBuff ->
  map (fun v => to_int16 (htons host v)) (prepWriteBuffer p host sigBuff) =
  concat (repeat (replicated_period (Z.to_nat (AUD_CHANNELS p)) sigBuff)
                 (Z.to_nat (SINES_IN_FRAME p))).
Proof.
  intros Htbl.
  unfold prepWriteBuffer, function_name_as_condition, convToBigEndian.
  rewrite <- (map_map (htons host) to_int16).
  rewrite map_htons_involutive by apply fillBuffer_is_uint16.
  rewrite fillBuffer_blocks, concat_map, map_repeat. f_equal. f_equal.
  unfold interleaved_period, replicated_period.
  rewrite map_decode_repeat.
  induction Htbl as [|s l Hs Hl IH]; [reflexivity|].
  cbn [flat_map]. rewrite IH, to_int16_to_uint16 by exact Hs. reflexivity.
Qed.

Lemma prepWriteBuffer_read_back_witness :
  map (fun v => to_int16 (htons LittleEndian v))
      (prepWriteBuffer params LittleEndian monoSine1kHzLoopUp) =
  concat (repeat (replicated_period (Z.to_nat (AUD_CHANNELS params))
                    monoSine1kHzLoopUp)
                 (Z.to_nat (SINES_IN_FRAME params))).
Proof.
  apply prepWriteBuffer_read_back.
  unfold monoSine1kHzLoopUp.
  repeat constructor; unfold is_int16, INT16_MIN, INT16_MAX; lia.
Defined.

End WireFacts.

(** ** The write loops of the table driven generator *)

Module StereoOptMainFacts.
Import Machine MachineFacts ByteOrder StereoOpt Vocabulary RunVocabulary
  BlockFacts ByteOrderFacts FillBufferFacts StereoOptMain.

Lemma Forall_skipn_keeps (A : Type) (P : A -> Prop) (n : nat) :
  forall l : list A, Forall P l -> Forall P (skipn n l).
Proof.
  induction n as [|n IH]; intros l Hl; [exact Hl|].
  destruct Hl as [|x l Hx Hl]; [constructor|]. apply IH. exact Hl.
Qed.

Section Loops.
Variable p : Params.
Variable buff : list Z.

Lemma inner_loop_accepting (j : nat) :
  forall replies : list Stereo.SinkReply,
  Forall accepting replies ->
  inner_loop p buff j replies =
  (repeat (offered p buff) (Nat.min j (length replies)), skipn j replies).
Proof.
  induction j as [|j IH]; intros replies Hok; [reflexivity|].
  destruct Hok as [|r rest Hr Hrest]; [reflexivity|].
  cbn [inner_loop]. unfold accepting in Hr.
  destruct (Z.ltb_spec (Stereo.frames_of r) 0) as [H | _]; [lia|].
  rewrite IH by exact Hrest. reflexivity.
Qed.

Lemma playback_accepting (passes : nat) :
  forall replies : list Stereo.SinkReply,
  Forall accepting replies ->
  playback p buff passes replies =
  repeat (offered p buff)
    (Nat.min (length replies)
       (passes * Z.to_nat (SAMPLE_RATE p / PROC_FRAME_SIZE p))).
Proof.
  set (n := Z.to_nat (SAMPLE_RATE p / PROC_FRAME_SIZE p)).
  induction passes as [|q IH]; intros replies Hok.
  - rewrite Nat.min_0_r. reflexivity.
  - cbn [playback]. fold n. rewrite inner_loop_accepting by exact Hok.
    rewrite IH by (apply Forall_skipn_keeps; exact Hok).
    rewrite <- repeat_app, length_skipn. f_equal. lia.
Qed.

Lemma playback_failing (passes : nat) :
  forall replies : list Stereo.SinkReply,
  (0 < Z.to_nat (SAMPLE_RATE p / PROC_FRAME_SIZE p))%nat ->
  Forall failing replies ->
  playback p buff passes replies =
  repeat (offered p buff) (Nat.min passes (length replies)).
Proof.
  intros replies Hn. revert replies.
  induction passes as [|q IH]; intros replies Hbad; [reflexivity|].
  cbn [playback].
  destruct (Z.to_nat (SAMPLE_RATE p / PROC_FRAME_SIZE p)) as [|n] eqn:En;
    [lia|].
  destruct Hbad as [|r rest Hr Hrest];
    [cbn [inner_loop app]; rewrite Nat.min_0_r;
     clear IH; induction q as [|q IHq]; [reflexivity|];
     cbn [playback]; rewrite En; exact IHq|].
  cbn [inner_loop]. unfold failing in Hr.
  destruct (Z.ltb_spec (Stereo.frames_of r) 0) as [_ | H]; [|lia].
  cbn [app length Nat.min repeat]. f_equal. apply IH. exact Hrest.
Qed.

End Loops.

Lemma offered_whole (p : Params) (host : endianness) (sigBuff : list Z) :
  0 <= PROC_FRAME_SIZE p -> 0 <= AUD_CHANNELS p ->
  static_asserts p = true ->
  Z.of_nat (length sigBuff) = SAMPLES_PER_SINE p ->
  offered p (prepWriteBuffer p host sigBuff) = prepWriteBuffer p host sigBuff.
Proof.
  intros HF HN Hsa Hlen. unfold offered, Stereo.copy_n. cbn [skipn Z.to_nat].
  apply firstn_all2.
  unfold prepWriteBuffer, function_name_as_condition, convToBigEndian.
  rewrite length_map. apply Nat2Z.inj_le.
  rewrite (fillBuffer_capacity p sigBuff HF HN); [| |exact Hlen].
  - rewrite Z2Nat.id; nia.
  - unfold static_asserts in Hsa. apply andb_true_iff in Hsa.
    destruct Hsa as [_ Hsa]. apply Z.eqb_eq. exact Hsa.
Qed.

(** X15. The table driven generator has no seam: for parameters that pass
    the static assertions and a table of one period, with a sink that
    accepts every write, the frames offered put end to end are the
    normalised period (every sample on each channel) repeated
    [SINES_IN_FRAME] times per write, for
    [min (writes the sink answers) (passes * (SAMPLE_RATE / PROC_FRAME_SIZE))]
    writes. *)
Theorem playback_is_periodic (p : Params) (host : endianness)
  (sigBuff : list Z) (passes : nat) (replies : list Stereo.SinkReply) :
  0 <= PROC_FRAME_SIZE p -> 0 <= AUD_CHANNELS p ->
  static_asserts p = true ->
  Z.of_nat (length sigBuff) = SAMPLES_PER_SINE p ->
  Forall accepting replies ->
  concat (playback p (prepWriteBuffer p host sigBuff) passes replies) =
  concat (repeat
            (map (htons host)
                 (interleaved_period (Z.to_nat (AUD_CHANNELS p)) sigBuff))
            (Z.to_nat (SINES_IN_FRAME p) *
             Nat.min (length replies)
               (passes * Z.to_nat (SAMPLE_RATE p / PROC_FRAME_SIZE p)))).
Proof.
  intros HF HN Hsa Hlen Hok.
  rewrite playback_accepting by exact Hok.
  rewrite offered_whole by assumption.
  generalize (Nat.min (length replies)
                (passes * Z.to_nat (SAMPLE_RATE p / PROC_FRAME_SIZE p))).
  intros n.
  unfold prepWriteBuffer, function_name_as_condition, convToBigEndian.
  rewrite fillBuffer_blocks, concat_map, map_repeat.
  set (b := map (htons host) _). set (s := Z.to_nat (SINES_IN_FRAME p)).
  induction n as [|n IH].
  - rewrite Nat.mul_0_r. reflexivity.
  - cbn [repeat concat]. rewrite IH, <- concat_app, <- repeat_app.
    f_equal. f_equal. lia.
Qed.

Lemma playback_is_periodic_witness :
  concat (playback params (prepWriteBuffer params LittleEndian monoSine1kHzLoopUp)
            2 (repeat (full_write 1152) 3)) =
  concat (repeat
            (map (htons LittleEndian)
                 (interleaved_period (Z.to_nat (AUD_CHANNELS params))
                    monoSine1kHzLoopUp))
            (Z.to_nat (SINES_IN_FRAME params) *
             Nat.min (length (repeat (full_write 1152) 3))
               (2 * Z.to_nat (SAMPLE_RATE params / PROC_FRAME_SIZE params)))).
Proof.
  apply playback_is_periodic; try reflexivity; try (simpl; lia).
  repeat constructor; unfold accepting, Stereo.frames_of; simpl; lia.
Defined.

(** X16. A pass is shorter than the second it stands for: with a sink that
    accepts every write, [passes] passes offer
    [passes * (SAMPLE_RATE - SAMPLE_RATE mod PROC_FRAME_SIZE)] frames of
    [AUD_CHANNELS] samples, which is [SAMPLE_RATE mod PROC_FRAME_SIZE]
    frames per pass less than [SAMPLE_RATE] (768 of 48000 for the program's
    parameters). *)
Theorem playback_amount (p : Params) (host : endianness)
  (sigBuff : list Z) (passes : nat) (replies : list Stereo.SinkReply) :
  0 < PROC_FRAME_SIZE p -> 0 <= AUD_CHANNELS p -> 0 <= SAMPLE_RATE p ->
  static_asserts p = true ->
  Z.of_nat (length sigBuff) = SAMPLES_PER_SINE p ->
  Forall accepting replies ->
  (passes * Z.to_nat (SAMPLE_RATE p / PROC_FRAME_SIZE p)
   <= length replies)%nat ->
  Z.of_nat (length (concat
    (playback p (prepWriteBuffer p host sigBuff) passes replies))) =
  Z.of_nat passes * (SAMPLE_RATE p - SAMPLE_RATE p mod PROC_FRAME_SIZE p)
  * AUD_CHANNELS p.
Proof.
  intros HF HN HR Hsa Hlen Hok Hk.
  rewrite playback_accepting by exact Hok.
  rewrite offered_whole by (try assumption; lia).
  rewrite Nat.min_r by exact Hk.
  rewrite length_concat_repeat.
  assert (Hcap : Z.of_nat (length (prepWriteBuffer p host sigBuff))
                 = PROC_FRAME_SIZE p * AUD_CHANNELS p).
  { unfold prepWriteBuffer, function_name_as_condition, convToBigEndian.
    rewrite length_map.
    apply fillBuffer_capacity; try assumption; try lia.
    unfold static_asserts in Hsa. apply andb_true_iff in Hsa.
    destruct Hsa as [_ Hsa]. apply Z.eqb_eq. exact Hsa. }
  rewrite !Nat2Z.inj_mul, Hcap.
  pose proof (Z.div_pos (SAMPLE_RATE p) (PROC_FRAME_SIZE p) HR HF).
  rewrite Z2Nat.id by assumption.
  pose proof (Z.div_mod (SAMPLE_RATE p) (PROC_FRAME_SIZE p) ltac:(lia)).
  nia.
Qed.

Lemma playback_amount_witness :
  Z.of_nat (length (concat
    (playback params (prepWriteBuffer params BigEndian monoSine1kHzLoopUp) 2
       (repeat (full_write 1152) 82)))) =
  Z.of_nat 2 * (SAMPLE_RATE params - SAMPLE_RATE params mod PROC_FRAME_SIZE params)
  * AUD_CHANNELS params.
Proof.
  apply playback_amount; try reflexivity; try (simpl; lia).
  apply Forall_forall. intros r Hr. apply repeat_spec in Hr. subst r.
  unfold accepting, Stereo.frames_of. simpl. lia.
Defined.

(** X17. A failed write only ends the pass: with a sink that refuses every
    write the program still starts every pass and offers the buffer once
    in each, [PLAYBACK_TIME_SEC] times in all if the sink answers that
    often. *)
Theorem main_all_failed (host : endianness) (replies : list Stereo.SinkReply) :
  Forall failing replies ->
  main host replies =
  repeat (prepWriteBuffer params host monoSine1kHzLoopUp)
         (Nat.min (Z.to_nat PLAYBACK_TIME_SEC) (length replies)).
Proof.
  intros Hbad. unfold main.
  rewrite playback_failing; [| simpl; lia | exact Hbad].
  rewrite offered_whole; try reflexivity; simpl; lia.
Qed.

Lemma main_all_failed_witness :
  main LittleEndian (repeat {| Stereo.written := -32; Stereo.recovered := -32 |} 50) =
  repeat (prepWriteBuffer params LittleEndian monoSine1kHzLoopUp)
         (Nat.min (Z.to_nat PLAYBACK_TIME_SEC)
            (length (repeat {| Stereo.written := -32; Stereo.recovered := -32 |} 50))).
Proof.
  apply main_all_failed.
  apply Forall_forall. intros r Hr. apply repeat_spec in Hr. subst r.
  unfold failing, Stereo.frames_of. simpl. lia.
Defined.

End StereoOptMainFacts.

(** ** The write loop of the mono programs *)

Module MonoMainFacts.
Import Machine RunVocabulary MonoMain.

(** X18. The mono programs stop at the first write that fails and is not
    recovered: the buffer is offered whole once per turn, up to and
    including the failed write and at most [i] times; a short write is not
    resumed, the next turn starts at the buffer's beginning again. *)
Theorem write_loop_stops (_buffer : list Z) (i : nat)
  (done : list Stereo.SinkReply) (bad : Stereo.SinkReply)
  (rest : list Stereo.SinkReply) :
  Forall accepting done -> failing bad ->
  write_loop _buffer i done = repeat _buffer (Nat.min i (length done)) /\
  write_loop _buffer i (done ++ bad :: rest) =
  repeat _buffer (Nat.min i (S (length done))).
Proof.
  intros Hok Hbad. revert i.
  induction Hok as [|r l Hr Hl IH]; intros i.
  - destruct i as [|i]; [split; reflexivity|].
    cbn [write_loop app length]. unfold failing in Hbad.
    destruct (Z.ltb_spec (Stereo.frames_of bad) 0) as [_ | H]; [|lia].
    cbn [Nat.min]. rewrite Nat.min_0_r. split; reflexivity.
  - destruct i as [|i]; [split; reflexivity|].
    cbn [write_loop app length]. unfold accepting in Hr.
    destruct (Z.ltb_spec (Stereo.frames_of r) 0) as [H | _]; [lia|].
    destruct (IH i) as [E1 E2]. rewrite E1, E2. split; reflexivity.
Qed.

Lemma write_loop_stops_witness :
  write_loop [1; 2; 3] 20
    [ {| Stereo.written := 3; Stereo.recovered := 0 |};
      {| Stereo.written := 1; Stereo.recovered := 0 |} ]
  = repeat [1; 2; 3] (Nat.min 20 2) /\
  write_loop [1; 2; 3] 20
    ([ {| Stereo.written := 3; Stereo.recovered := 0 |};
       {| Stereo.written := 1; Stereo.recovered := 0 |} ]
     ++ {| Stereo.written := -32; Stereo.recovered := -32 |}
        :: [ {| Stereo.written := 3; Stereo.recovered := 0 |} ])
  = repeat [1; 2; 3] (Nat.min 20 3).
Proof.
  apply (write_loop_stops [1; 2; 3] 20).
  - repeat constructor; unfold accepting, Stereo.frames_of; simpl; lia.
  - unfold failing, Stereo.frames_of. simpl. lia.
Defined.

End MonoMainFacts.

(** ** The range of the synthesised samples *)

Module RangeFacts.
Import Machine MachineFacts DoubleModel DoubleFacts Arrays ArrayFacts
  SynthesisLoopFacts RunVocabulary MonoMain ReducerFacts.
Local Open Scope R_scope.

Lemma Rtrunc_bound (x : R) (n : Z) :
  (0 <= n)%Z -> Rabs x < IZR n + 1 -> (- n <= Rtrunc x <= n)%Z.
Proof.
  intros Hn Hx. unfold Rtrunc.
  assert (Hx' : - (IZR n + 1) < x < IZR n + 1).
  { unfold Rabs in Hx. destruct (Rcase_abs x); lra. }
  assert (0 <= IZR n) by (apply IZR_le; exact Hn).
  destruct (Rle_dec 0 x) as [Hp | Hneg].
  - pose proof (Zfloor_bound x) as [H1 H2].
    split.
    + enough (0 <= Zfloor x)%Z by lia.
      apply le_IZR. 
      assert (-1 < IZR (Zfloor x)) by lra.
      apply IZR_le. apply Z.lt_succ_r. apply lt_IZR.
      rewrite succ_IZR. lra.
    + apply Z.lt_succ_r. apply lt_IZR. rewrite succ_IZR. lra.
  - pose proof (Zceil_bound x) as [H1 H2].
    split.
    + enough (- n - 1 < Zceil x)%Z by lia.
      apply lt_IZR. rewrite minus_IZR, opp_IZR. lra.
    + enough (Zceil x < 1)%Z by lia.
      apply lt_IZR. lra.
Qed.

Section Bounds.
Variable fa : arithmetic.
Hypothesis Hfa : admissible fa.

Lemma rnd_abs (x X : R) :
  Rabs x <= X -> X <= huge -> Rabs (rnd fa x) <= X + (unit_roundoff * X + tiny).
Proof.
  intros Hx HX.
  pose proof (rnd_close fa Hfa x x 0 X) as H.
  rewrite Rabs_same in H. specialize (H (Rle_refl 0) Hx HX).
  replace (rnd fa x) with ((rnd fa x - x) + x) by ring.
  eapply Rle_trans; [apply Rabs_triang|]. lra.
Qed.

Lemma libm_sin_abs (y : R) : Rabs (libm_sin fa y) <= 1 + sin_error.
Proof.
  destruct Hfa as [_ Hs]. specialize (Hs y).
  pose proof (SIN_bound y) as Hb.
  replace (libm_sin fa y) with ((libm_sin fa y - sin y) + sin y) by ring.
  eapply Rle_trans; [apply Rabs_triang|].
  assert (Rabs (sin y) <= 1) by (apply Rabs_le; lra). lra.
Qed.

Lemma scaled_by_constant (c : R) (y : R) (B : R) :
  0 <= c -> c * (1 + sin_error) <= B -> B <= huge ->
  Rabs (fmul fa c (libm_sin fa y)) <= B + (unit_roundoff * B + tiny).
Proof.
  intros Hc HB Hh. unfold fmul. apply rnd_abs; [|exact Hh].
  rewrite Rabs_mult, (Rabs_pos_eq c) by exact Hc.
  pose proof (libm_sin_abs y). nra.
Qed.

Lemma mono_scaled_sine_abs (a : nat) : Rabs (Mono.scaled_sine fa a) < 32768.
Proof.
  unfold Mono.scaled_sine, INT16_MAX.
  assert (Hu : unit_roundoff = / 2 ^ 52) by reflexivity.
  assert (Ht : tiny = 1e-300) by reflexivity.
  assert (Hh : huge = 1e300) by reflexivity.
  assert (Hse : sin_error = / 2 ^ 50) by reflexivity.
  eapply Rle_lt_trans;
    [apply (scaled_by_constant 32767 _ 32767.5); lra | lra].
Qed.

Lemma bitdepth_scaled_sine_abs (a : nat) :
  Rabs (scaled_sine fa a) < 8388608.
Proof.
  unfold scaled_sine, INT24_MAX.
  assert (Hu : unit_roundoff = / 2 ^ 52) by reflexivity.
  assert (Ht : tiny = 1e-300) by reflexivity.
  assert (Hh : huge = 1e300) by reflexivity.
  assert (Hse : sin_error = / 2 ^ 50) by reflexivity.
  eapply Rle_lt_trans;
    [apply (scaled_by_constant 8388607 _ 8388607.5); lra | lra].
Qed.

Lemma stereo_scaled_sine_abs (iii : nat) :
  Rabs (Stereo.scaled_sine fa iii) < 23198.
Proof.
  unfold Stereo.scaled_sine, Stereo.DAMPENING_FACTOR, INT16_MAX.
  assert (Hu : unit_roundoff = / 2 ^ 52) by reflexivity.
  assert (Ht : tiny = 1e-300) by reflexivity.
  assert (Hh : huge = 1e300) by reflexivity.
  assert (Hse : sin_error = / 2 ^ 50) by reflexivity.
  set (y := fmul fa (INR iii) _).
  assert (HD : Rabs (rnd fa 0.70794578438413791080221494218931) <= 0.7079458).
  { eapply Rle_trans;
      [apply (rnd_abs _ 0.7079457844); [apply Rabs_le|]; lra | lra]. }
  assert (Hp : Rabs (fmul fa (rnd fa 0.70794578438413791080221494218931)
                       (libm_sin fa y)) <= 0.707946).
  { unfold fmul at 1.
    eapply Rle_trans; [apply (rnd_abs _ 0.70794585); [|lra]|lra].
    rewrite Rabs_mult. pose proof (libm_sin_abs y).
    pose proof (Rabs_pos (libm_sin fa y)).
    pose proof (Rabs_pos (rnd fa 0.70794578438413791080221494218931)).
    nra. }
  unfold fmul at 1.
  eapply Rle_lt_trans; [apply (rnd_abs _ 23197.3); [|lra]|lra].
  rewrite Rabs_mult, (Rabs_pos_eq 32767) by lra.
  pose proof (Rabs_pos (fmul fa (rnd fa 0.70794578438413791080221494218931)
                          (libm_sin fa y))).
  nra.
Qed.

End Bounds.

Lemma nth_error_mono_loop (sample : nat -> Z) (n : nat) :
  forall (a : nat) (buf : list Z) (k : nat),
  (a <= k < a + n)%nat -> (k < length buf)%nat ->
  nth_error (synthesis_loop sample n a buf) k = Some (sample k).
Proof.
  induction n as [|n IH]; intros a buf k Hk Hlen; [lia|].
  cbn [synthesis_loop].
  destruct (Nat.eq_dec k a) as [-> | Hne].
  - assert (Hkeep : forall m b (l : list Z), (a < b)%nat ->
               nth_error (synthesis_loop sample m b l) a = nth_error l a).
    { clear. induction m as [|m IHm]; intros b l Hb; [reflexivity|].
      cbn [synthesis_loop]. rewrite IHm by lia.
      apply nth_error_store_other. lia. }
    rewrite Hkeep by lia. apply nth_error_store_same. exact Hlen.
  - apply IH; [lia | rewrite length_store; exact Hlen].
Qed.

(** X19. The bit depth demo never leaves the 24 bit range: in every
    admissible double arithmetic, for every index [a] of the second, the
    value handed to [getTruncatedSample] lies in [-8388607, 8388607] (the
    conversion to [int32_t] is defined), and the sample stored in
    [_buffer[a]] is the 16 bit pattern of a value in [-29204, 29203]. *)
Theorem bitdepth_samples_in_range (fa : arithmetic) (a : nat) :
  admissible fa -> (a < Z.to_nat 48000)%nat ->
  (-8388607 <= Rtrunc (scaled_sine fa a) <= 8388607)%Z /\
  (-29204 <= truncatedSample fa a <= 29203)%Z /\
  nth_error (BitDepthConv_synthesis fa) a
    = Some (to_uint16 (truncatedSample fa a)).
Proof.
  intros Hfa Ha.
  assert (Hr : (-8388607 <= Rtrunc (scaled_sine fa a) <= 8388607)%Z).
  { apply (Rtrunc_bound _ 8388607); [lia|].
    pose proof (bitdepth_scaled_sine_abs fa Hfa a). simpl. lra. }
  split; [exact Hr|]. split.
  - unfold truncatedSample.
    rewrite to_int32_small by lia.
    pose proof (getTruncatedSample_bounds32 (Rtrunc (scaled_sine fa a))
                  ltac:(lia)) as Hg.
    rewrite to_int16_small by lia. exact Hg.
  - unfold BitDepthConv_synthesis.
    apply nth_error_mono_loop; [lia|].
    rewrite repeat_length. exact Ha.
Qed.

Lemma bitdepth_samples_in_range_witness :
  (12 < Z.to_nat 48000)%nat /\
  (-8388607 <= Rtrunc (scaled_sine exact_arithmetic 12) <= 8388607)%Z /\
  (-29204 <= truncatedSample exact_arithmetic 12 <= 29203)%Z /\
  nth_error (BitDepthConv_synthesis exact_arithmetic) 12
    = Some (to_uint16 (truncatedSample exact_arithmetic 12)).
Proof.
  assert (H : (12 < Z.to_nat 48000)%nat) by lia.
  split; [exact H|].
  exact (bitdepth_samples_in_range exact_arithmetic 12
           exact_arithmetic_admissible H).
Defined.

(** X20. The cast of the mono generator never overflows: in every
    admissible double arithmetic, for every index [a] of the second, the
    scaled sine with its fraction dropped lies in [-32767, 32767], so
    [static_cast<short>] keeps it as it is, and [_buffer[a]] holds its 16
    bit pattern. *)
Theorem mono_samples_in_range (fa : arithmetic) (a : nat) :
  admissible fa -> (a < Z.to_nat 48000)%nat ->
  Mono.tempVal fa a = Rtrunc (Mono.scaled_sine fa a) /\
  (-32767 <= Mono.tempVal fa a <= 32767)%Z /\
  nth_error (Mono_synthesis fa) a = Some (to_uint16 (Mono.tempVal fa a)).
Proof.
  intros Hfa Ha.
  assert (Hr : (-32767 <= Rtrunc (Mono.scaled_sine fa a) <= 32767)%Z).
  { apply (Rtrunc_bound _ 32767); [lia|].
    pose proof (mono_scaled_sine_abs fa Hfa a). simpl. lra. }
  assert (E : Mono.tempVal fa a = Rtrunc (Mono.scaled_sine fa a)).
  { unfold Mono.tempVal. apply to_int16_small. lia. }
  split; [exact E|]. split; [rewrite E; exact Hr|].
  unfold Mono_synthesis.
  apply (nth_error_mono_loop (fun a => to_uint16 (Mono.tempVal fa a)));
    [lia|].
  rewrite repeat_length. exact Ha.
Qed.

Lemma mono_samples_in_range_witness :
  (12 < Z.to_nat 48000)%nat /\
  Mono.tempVal exact_arithmetic 12 = Rtrunc (Mono.scaled_sine exact_arithmetic 12) /\
  (-32767 <= Mono.tempVal exact_arithmetic 12 <= 32767)%Z /\
  nth_error (Mono_synthesis exact_arithmetic) 12
    = Some (to_uint16 (Mono.tempVal exact_arithmetic 12)).
Proof.
  assert (H : (12 < Z.to_nat 48000)%nat) by lia.
  split; [exact H|].
  exact (mono_samples_in_range exact_arithmetic 12
           exact_arithmetic_admissible H).
Defined.

(** X21. The stereo generator keeps its 3 dB of headroom through the whole
    second: in every admissible double arithmetic every one of the 48000
    samples lies in [-23197, 23197], the cast to [int16_t] keeps it as it
    is, and both slots of the ring hold its 16 bit pattern. *)
Theorem stereo_samples_in_range (fa : arithmetic) (iii c : nat) :
  admissible fa -> (iii < Z.to_nat 48000)%nat -> (c < 2)%nat ->
  Stereo.tempVal fa iii = Rtrunc (Stereo.scaled_sine fa iii) /\
  (-23197 <= Stereo.tempVal fa iii <= 23197)%Z /\
  nth_error (snd (Stereo.synthesis fa)) (2 * iii + c)
    = Some (to_uint16 (Stereo.tempVal fa iii)).
Proof.
  intros Hfa Hi Hc.
  assert (Hr : (-23197 <= Rtrunc (Stereo.scaled_sine fa iii) <= 23197)%Z).
  { apply (Rtrunc_bound _ 23197); [lia|].
    pose proof (stereo_scaled_sine_abs fa Hfa iii). simpl. lra. }
  assert (E : Stereo.tempVal fa iii = Rtrunc (Stereo.scaled_sine fa iii)).
  { unfold Stereo.tempVal. apply to_int16_small. lia. }
  split; [exact E|]. split; [rewrite E; exact Hr|].
  unfold Stereo.synthesis.
  apply (synthesis_loop_buffer fa (Z.to_nat 48000) 0 _ iii c);
    [lia | exact Hc |].
  cbn [snd]. rewrite repeat_length.
  replace (Z.to_nat Stereo.BUFFER_SIZE) with (2 * Z.to_nat 48000)%nat
    by (unfold Stereo.BUFFER_SIZE; lia).
  lia.
Qed.

Lemma stereo_samples_in_range_witness :
  (4001 < Z.to_nat 48000)%nat /\ (1 < 2)%nat /\
  Stereo.tempVal exact_arithmetic 4001
    = Rtrunc (Stereo.scaled_sine exact_arithmetic 4001) /\
  (-23197 <= Stereo.tempVal exact_arithmetic 4001 <= 23197)%Z /\
  nth_error (snd (Stereo.synthesis exact_arithmetic)) (2 * 4001 + 1)
    = Some (to_uint16 (Stereo.tempVal exact_arithmetic 4001)).
Proof.
  assert (H : (4001 < Z.to_nat 48000)%nat) by lia.
  assert (H2 : (1 < 2)%nat) by lia.
  split; [exact H|]. split; [exact H2|].
  exact (stereo_samples_in_range exact_arithmetic 4001 1
           exact_arithmetic_admissible H H2).
Defined.

End RangeFacts.

(** ** The printed table *)

Module StereoTextFacts.
Import Machine MachineFacts DoubleModel DoubleFacts StereoText GeneratorFacts
  FrameLoopFacts.
Import String.StringSyntax.
Local Open Scope string_scope.
Local Open Scope Z_scope.

Lemma append_assoc (a b c : String.string) :
  String.append (String.append a b) c = String.append a (String.append b c).
Proof.
  induction a as [|ch a IH]; [reflexivity|].
  cbn [String.append]. rewrite IH. reflexivity.
Qed.

Lemma append_empty_r (a : String.string) :
  String.append a String.EmptyString = a.
Proof.
  induction a as [|ch a IH]; [reflexivity|].
  cbn [String.append]. rewrite IH. reflexivity.
Qed.

Lemma comma_loop (n : Z) (l : list Z) :
  forall (res : String.string) (i : Z),
  0 <= i -> i + Z.of_nat (length l) = n -> n <= INT_MAX ->
  fst (fold_left
         (fun (st : String.string * Z) (c : Z) =>
            let i := to_int32 (snd st + 1) in
            let res := String.append (fst st) (strToInt c) in
            if to_size_t i <? to_size_t n then (String.append res ", ", i)
            else (res, i))
         l (res, i))
  = String.append res (String.concat ", " (map strToInt l)).
Proof.
  set (f := fun (st : String.string * Z) (c : Z) => _).
  induction l as [|c l IH]; intros res i Hi Hn Hmax.
  - cbn. rewrite append_empty_r. reflexivity.
  - cbn [fold_left]. cbn [length] in Hn.
    pose proof Hmax as Hmax'. unfold INT_MAX in Hmax'.
    assert (Hstep : f (res, i) c =
              if i + 1 <? n
              then (String.append (String.append res (strToInt c)) ", ", i + 1)
              else (String.append res (strToInt c), i + 1)).
    { unfold f. cbn [fst snd].
      rewrite to_int32_small by lia. rewrite !to_size_t_small by lia.
      reflexivity. }
    rewrite Hstep.
    destruct (Z.ltb_spec (i + 1) n) as [Hlt | Hge].
    + rewrite IH by (try exact Hmax; lia).
      destruct l as [|c' l']; [cbn [length] in *; lia|].
      cbn [map String.concat]. rewrite !append_assoc. reflexivity.
    + destruct l as [|c' l']; [|cbn [length] in *; lia].
      cbn [fold_left fst map String.concat]. reflexivity.
Qed.

(** X22. [getCommaSepNumString] joins the decimal texts of the elements
    with a comma and a blank between two of them, and nothing after the
    last: the count kept in an [int] and compared with the [size_t] size
    marks the last element correctly for every array an [int] can
    count. *)
Theorem getCommaSepNumString_joins (bytes : list Z) :
  Z.of_nat (length bytes) <= INT_MAX ->
  getCommaSepNumString bytes = String.concat ", " (map strToInt bytes).
Proof.
  intros Hn. unfold getCommaSepNumString.
  rewrite (comma_loop (Z.of_nat (length bytes))) by lia.
  reflexivity.
Qed.

Lemma getCommaSepNumString_joins_witness :
  getCommaSepNumString [0; 3027; -3027] = "0, 3027, -3027" /\
  getCommaSepNumString [0; 3027; -3027]
  = String.concat ", " (map strToInt [0; 3027; -3027]).
Proof.
  split; [reflexivity|].
  apply getCommaSepNumString_joins. simpl. unfold INT_MAX. lia.
Defined.

(** X23. What the computing generator prints is the table of the table
    driven one: in every admissible double arithmetic the line written to
    [std::cout] is the declaration of [monoSine1kHzLoopUp] with the 48
    values that [minPcmStereoOpt.c] has in its source. *)
Theorem table_line_is_the_declaration (fa : arithmetic) :
  admissible fa ->
  table_line fa =
  "int16_t monoSine1kHzLoopUp[48] { 0, 3027, 6003, 8877, 11598, 14121, 16402, 18403, 20089, 21431, 22406, 22998, 23197, 22998, 22406, 21431, 20089, 18403, 16402, 14121, 11598, 8877, 6003, 3027, 0, -3027, -6003, -8877, -11598, -14121, -16402, -18403, -20089, -21431, -22406, -22998, -23197, -22998, -22406, -21431, -20089, -18403, -16402, -14121, -11598, -8877, -6003, -3027};".
Proof.
  intros Hfa. unfold table_line.
  rewrite (synthesis_table fa Hfa).
  reflexivity.
Qed.

Lemma table_line_is_the_declaration_witness :
  String.prefix "int16_t monoSine1kHzLoopUp[48] { 0, 3027, 6003, "
    (table_line exact_arithmetic) = true.
Proof.
  rewrite (table_line_is_the_declaration exact_arithmetic
             exact_arithmetic_admissible).
  reflexivity.
Defined.

End StereoTextFacts.

(** ** The programs as a whole *)

Module ProgramFacts.
Import Machine MachineFacts ByteOrder DoubleModel DoubleFacts Arrays ArrayFacts
  SynthesisLoopFacts Vocabulary RunVocabulary ByteOrderFacts FrameLoopFacts
  FrameRunFacts NormalizationFacts WireFacts RangeFacts MonoMain Programs.

(** What the device is to read: the big endian bytes of a sample between
    [lo] and [hi]. *)
Lemma In_firstn_keeps (n : nat) :
  forall (l : list Z) (x : Z), In x (firstn n l) -> In x l.
Proof.
  induction n as [|n IH]; intros [|y l] x H; cbn in H; try contradiction.
  destruct H as [-> | H]; [left; reflexivity | right; apply IH; exact H].
Qed.

Lemma In_skipn_keeps (n : nat) :
  forall (l : list Z) (x : Z), In x (skipn n l) -> In x l.
Proof.
  induction n as [|n IH]; intros [|y l] x H; cbn in H; try contradiction;
    try exact H.
  right. apply IH. exact H.
Qed.

Lemma In_copy_n (l : list Z) (from n x : Z) :
  In x (Stereo.copy_n l from n) -> In x l.
Proof.
  unfold Stereo.copy_n. intros H.
  apply In_firstn_keeps in H. apply In_skipn_keeps in H. exact H.
Qed.

Lemma In_nextFrame (F N : Z) (buf : list Z) (c : Stereo.Cursor) (x : Z) :
  In x (fst (Stereo.nextFrame F N buf c)) -> In x buf.
Proof.
  unfold Stereo.nextFrame.
  destruct (_ >? Stereo.buffSampleCount buf); cbn [fst]; intros H.
  - apply In_copy_n in H. apply in_app_or in H.
    destruct H as [H | H]; apply In_copy_n in H; exact H.
  - apply In_copy_n in H. exact H.
Qed.

Lemma In_playback (F N : Z) (buf : list Z) (passes : nat) :
  forall (replies : list Stereo.SinkReply) (reminder : Z),
  Forall (fun frame => forall x, In x frame -> In x buf)
         (Stereo.playback F N buf passes replies reminder).
Proof.
  induction passes as [|p IHp]; intros replies reminder; [constructor|].
  cbn [Stereo.playback].
  generalize ({| Stereo.writePos := reminder;
                 Stereo.writePosReminder := reminder |}) as c.
  induction replies as [|r rest IHr]; intros c.
  - destruct (_ <? Stereo.buffSampleCount buf); [constructor | apply IHp].
  - destruct (_ <? Stereo.buffSampleCount buf); [|apply IHp].
    unfold Stereo.iteration.
    pose proof (In_nextFrame F N buf c) as Hin.
    destruct (Stereo.nextFrame F N buf c) as [frame reminder'].
    cbn [fst] in Hin.
    destruct (Stereo.frames_of r <? 0); constructor;
      try exact Hin; [apply IHp | apply IHr].
Qed.

Lemma In_normalize (host : endianness) (buf : list Z) (v : Z) :
  Forall is_uint16 buf -> In v (Stereo.normalize host buf) ->
  exists u, In u buf /\ bytes_in_memory host v = big_endian_bytes u.
Proof.
  intros Hbuf Hv.
  unfold Stereo.normalize, Stereo.runningOnLittleEndianHost,
    Stereo.convToBigEndian in Hv.
  rewrite htonl_query in Hv. destruct host.
  - apply in_map_iff in Hv. destruct Hv as [u [<- Hu]].
    exists u. split; [exact Hu|].
    apply bytes_in_memory_htons.
    rewrite Forall_forall in Hbuf. apply Hbuf. exact Hu.
  - exists v. split; [exact Hv | reflexivity].
Qed.

Lemma length_normalize (host : endianness) (buf : list Z) :
  length (Stereo.normalize host buf) = length buf.
Proof.
  unfold Stereo.normalize, Stereo.convToBigEndian.
  destruct (Stereo.runningOnLittleEndianHost host);
    [apply length_map | reflexivity].
Qed.

Lemma normalize_agree (host : endianness) (buf : list Z) :
  BitDepthConv.normalize host buf = Stereo.normalize host buf.
Proof. reflexivity. Qed.

Section Rings.
Variable fa : arithmetic.
Hypothesis Hfa : admissible fa.

Lemma length_stereo_ring :
  length (snd (Stereo.synthesis fa)) = Z.to_nat 96000.
Proof.
  unfold Stereo.synthesis.
  destruct (length_synthesis_loop fa (Z.to_nat 48000) 0 0
              (repeat 0 48, repeat 0 (Z.to_nat Stereo.BUFFER_SIZE))) as [_ H].
  rewrite H. cbn [snd]. apply repeat_length.
Qed.

Lemma nth_error_stereo_ring (j c : nat) :
  (j < Z.to_nat 48000)%nat -> (c < 2)%nat ->
  nth_error (snd (Stereo.synthesis fa)) (2 * j + c)
  = Some (to_uint16 (Stereo.tempVal fa j)).
Proof.
  intros Hj Hc. unfold Stereo.synthesis.
  apply (synthesis_loop_buffer fa (Z.to_nat 48000) 0 _ j c);
    [lia | exact Hc |].
  cbn [snd]. rewrite repeat_length.
  replace (Z.to_nat Stereo.BUFFER_SIZE) with (2 * Z.to_nat 48000)%nat
    by (unfold Stereo.BUFFER_SIZE; lia).
  lia.
Qed.

Lemma stereo_ring_elements (v : Z) :
  In v (snd (Stereo.synthesis fa)) ->
  exists t, -23197 <= t <= 23197 /\ v = to_uint16 t.
Proof.
  intros Hv. apply In_nth_error in Hv. destruct Hv as [q Hq].
  assert (Hlt : (q < 2 * Z.to_nat 48000)%nat).
  { assert (Hs : nth_error (snd (Stereo.synthesis fa)) q <> None)
      by congruence.
    apply nth_error_Some in Hs. rewrite length_stereo_ring in Hs. lia. }
  assert (Hr : (-23197 <= Rtrunc (Stereo.scaled_sine fa (q / 2)) <= 23197)).
  { apply (Rtrunc_bound _ 23197); [lia|].
    pose proof (stereo_scaled_sine_abs fa Hfa (q / 2)). lra. }
  exists (Stereo.tempVal fa (q / 2)). split.
  - unfold Stereo.tempVal. rewrite to_int16_small by lia. exact Hr.
  - pose proof (Nat.div_mod_eq q 2) as Eq.
    pose proof (Nat.mod_upper_bound q 2 ltac:(lia)) as Hc.
    assert (Hj : (q / 2 < Z.to_nat 48000)%nat)
      by (apply Nat.Div0.div_lt_upper_bound; exact Hlt).
    pose proof (nth_error_stereo_ring (q / 2) (q mod 2) Hj Hc) as Hs.
    rewrite <- Eq in Hs. congruence.
Qed.

Lemma stereo_ring_is_uint16 :
  Forall is_uint16 (snd (Stereo.synthesis fa)).
Proof.
  apply Forall_forall. intros v Hv.
  destruct (stereo_ring_elements v Hv) as [t [_ ->]].
  apply to_uint16_is_uint16.
Qed.

Lemma length_mono_loop (sample : nat -> Z) (n : nat) :
  forall (a : nat) (buf : list Z),
  length (synthesis_loop sample n a buf) = length buf.
Proof.
  induction n as [|n IH]; intros a buf; [reflexivity|].
  cbn [synthesis_loop]. rewrite IH. apply length_store.
Qed.

Lemma mono_loop_elements (sample : nat -> Z) (v : Z) :
  In v (synthesis_loop sample (Z.to_nat 48000) 0
          (repeat 0 (Z.to_nat (48 * 1000)))) ->
  exists a, (a < Z.to_nat 48000)%nat /\ v = sample a.
Proof.
  intros Hv. apply In_nth_error in Hv. destruct Hv as [q Hq].
  assert (Hlt : (q < Z.to_nat 48000)%nat).
  { assert (Hs : nth_error (synthesis_loop sample (Z.to_nat 48000) 0
                             (repeat 0 (Z.to_nat (48 * 1000)))) q <> None)
      by congruence.
    apply nth_error_Some in Hs.
    rewrite length_mono_loop, repeat_length in Hs. exact Hs. }
  exists q. split; [exact Hlt|].
  rewrite nth_error_mono_loop in Hq; [congruence | lia |].
  rewrite repeat_length. exact Hlt.
Qed.

End Rings.

Lemma write_loop_frames (buf : list Z) (i : nat) :
  forall replies : list Stereo.SinkReply,
  Forall (fun frame => frame = buf) (write_loop buf i replies).
Proof.
  induction i as [|i IH]; intros [|r rest]; try constructor;
    try reflexivity.
  destruct (Stereo.frames_of r <? 0); [constructor | apply IH].
Qed.

(** The bytes of a block as the device reads them are the big endian
    bytes of samples between [lo] and [hi]. *)
Lemma normalized_elements (host : endianness) (buf : list Z) (lo hi : Z) :
  (forall u, In u buf -> exists t, lo <= t <= hi /\ u = to_uint16 t) ->
  Forall (fun v => exists t, lo <= t <= hi /\
                   bytes_in_memory host v = big_endian_bytes (to_uint16 t))
         (Stereo.normalize host buf).
Proof.
  intros Hbuf. apply Forall_forall. intros v Hv.
  assert (Hu16 : Forall is_uint16 buf).
  { apply Forall_forall. intros u Hu.
    destruct (Hbuf u Hu) as [t [_ ->]]. apply to_uint16_is_uint16. }
  destruct (In_normalize host buf v Hu16 Hv) as [u [Hu E]].
  destruct (Hbuf u Hu) as [t [Ht ->]].
  exists t. split; [exact Ht | exact E].
Qed.

(** X24. The stereo program from end to end: in every admissible double
    arithmetic, on either host and whatever the sink replies (an error, or
    a count up to the frames handed over), every block handed to
    [snd_pcm_writei] holds exactly [PROC_SIN_FRAME_SIZE * 2] samples, and
    each of them lies in memory as the big endian bytes of a sample
    between -23197 and 23197. *)
Theorem Stereo_main_blocks (fa : arithmetic) (host : endianness)
  (replies : list Stereo.SinkReply) :
  admissible fa -> Forall (sane Stereo.PROC_SIN_FRAME_SIZE) replies ->
  Forall (fun block =>
            Z.of_nat (length block) = Stereo.PROC_SIN_FRAME_SIZE * 2 /\
            Forall (fun v => exists t, -23197 <= t <= 23197 /\
                      bytes_in_memory host v = big_endian_bytes (to_uint16 t))
                   block)
         (Stereo_main fa host replies).
Proof.
  intros Hfa Hsane. unfold Stereo_main, Stereo.frame_loop.
  set (ring := Stereo.normalize host (snd (Stereo.synthesis fa))).
  assert (Hlen : Z.of_nat (length ring) = 96000).
  { unfold ring. rewrite length_normalize, length_stereo_ring. lia. }
  apply Forall_and.
  - apply (playback_frame_length_run Stereo.PROC_SIN_FRAME_SIZE 2 ring);
      rewrite ?Hlen; unfold Stereo.PROC_SIN_FRAME_SIZE, INT_MAX;
      try lia; exact Hsane.
  - pose proof (In_playback Stereo.PROC_SIN_FRAME_SIZE 2 ring
                  Stereo._simulationDurSec replies 0) as Hin.
    pose proof (normalized_elements host (snd (Stereo.synthesis fa))
                  (-23197) 23197 (stereo_ring_elements fa Hfa)) as Hel.
    fold ring in Hel. rewrite Forall_forall in Hel.
    eapply Forall_impl; [|exact Hin].
    intros block Hb. apply Forall_forall. intros v Hv.
    apply Hel, Hb, Hv.
Qed.

Lemma Stereo_main_blocks_witness :
  Forall (fun block =>
            Z.of_nat (length block) = Stereo.PROC_SIN_FRAME_SIZE * 2 /\
            Forall (fun v => exists t, -23197 <= t <= 23197 /\
                      bytes_in_memory LittleEndian v
                      = big_endian_bytes (to_uint16 t))
                   block)
         (Stereo_main exact_arithmetic LittleEndian
            [ {| Stereo.written := 1152; Stereo.recovered := 0 |};
              {| Stereo.written := 100; Stereo.recovered := 0 |};
              {| Stereo.written := -32; Stereo.recovered := -32 |} ]).
Proof.
  apply Stereo_main_blocks; [exact exact_arithmetic_admissible|].
  repeat constructor;
    unfold sane, Stereo.frames_of, Stereo.PROC_SIN_FRAME_SIZE; simpl; lia.
Defined.

Lemma bitdepth_buffer_elements (fa : arithmetic) (u : Z) :
  admissible fa -> In u (BitDepthConv_synthesis fa) ->
  exists t, -29204 <= t <= 29203 /\ u = to_uint16 t.
Proof.
  intros Hfa Hu.
  assert (Hel : In u (BitDepthConv_synthesis fa) ->
                exists a, (a < Z.to_nat 48000)%nat /\
                          u = to_uint16 (truncatedSample fa a)).
  { unfold BitDepthConv_synthesis.
    exact (mono_loop_elements (fun a => to_uint16 (truncatedSample fa a)) u). }
  destruct (Hel Hu) as [a [Ha ->]].
  exists (truncatedSample fa a). split; [|reflexivity].
  assert (Hr : -8388607 <= Rtrunc (scaled_sine fa a) <= 8388607).
  { apply (Rtrunc_bound _ 8388607); [lia|].
    pose proof (bitdepth_scaled_sine_abs fa Hfa a). lra. }
  unfold truncatedSample. rewrite to_int32_small by lia.
  pose proof (ReducerFacts.getTruncatedSample_bounds32
                (Rtrunc (scaled_sine fa a)) ltac:(lia)) as Hg.
  rewrite to_int16_small by lia. exact Hg.
Qed.

Lemma mono_buffer_elements (fa : arithmetic) (u : Z) :
  admissible fa -> In u (Mono_synthesis fa) ->
  exists t, -32767 <= t <= 32767 /\ u = to_uint16 t.
Proof.
  intros Hfa Hu.
  assert (Hel : In u (Mono_synthesis fa) ->
                exists a, (a < Z.to_nat 48000)%nat /\
                          u = to_uint16 (Mono.tempVal fa a)).
  { unfold Mono_synthesis.
    exact (mono_loop_elements (fun a => to_uint16 (Mono.tempVal fa a)) u). }
  destruct (Hel Hu) as [a [Ha ->]].
  exists (Mono.tempVal fa a). split; [|reflexivity].
  assert (Hr : -32767 <= Rtrunc (Mono.scaled_sine fa a) <= 32767).
  { apply (Rtrunc_bound _ 32767); [lia|].
    pose proof (mono_scaled_sine_abs fa Hfa a). lra. }
  unfold Mono.tempVal. rewrite to_int16_small by lia. exact Hr.
Qed.

Lemma length_mono_buffers (fa : arithmetic) :
  Z.of_nat (length (BitDepthConv_synthesis fa)) = 48000 /\
  Z.of_nat (length (Mono_synthesis fa)) = 48000.
Proof.
  unfold BitDepthConv_synthesis, Mono_synthesis.
  rewrite !length_mono_loop, repeat_length. lia.
Qed.

Lemma whole_buffer_blocks (host : endianness) (buf : list Z) (lo hi : Z)
  (i : nat) (replies : list Stereo.SinkReply) :
  Z.of_nat (length buf) = 48000 ->
  (forall u, In u buf -> exists t, lo <= t <= hi /\ u = to_uint16 t) ->
  Forall (fun block =>
            Z.of_nat (length block) = 48000 /\
            Forall (fun v => exists t, lo <= t <= hi /\
                      bytes_in_memory host v = big_endian_bytes (to_uint16 t))
                   block)
         (write_loop (BitDepthConv.normalize host buf) i replies).
Proof.
  intros Hlen Hel.
  eapply Forall_impl; [|apply write_loop_frames].
  intros block ->. rewrite normalize_agree. split.
  - rewrite length_normalize. exact Hlen.
  - apply normalized_elements. exact Hel.
Qed.

(** X25. The two mono programs from end to end: in every admissible double
    arithmetic and on either host every block handed to [snd_pcm_writei]
    is the whole buffer of 48000 samples, each in memory as the big endian
    bytes of a sample between -29204 and 29203 for the bit depth demo and
    between -32767 and 32767 for the plain generator. *)
Theorem mono_main_blocks (fa : arithmetic) (host : endianness)
  (replies : list Stereo.SinkReply) :
  admissible fa ->
  Forall (fun block =>
            Z.of_nat (length block) = 48000 /\
            Forall (fun v => exists t, -29204 <= t <= 29203 /\
                      bytes_in_memory host v = big_endian_bytes (to_uint16 t))
                   block)
         (BitDepthConv_main fa host replies) /\
  Forall (fun block =>
            Z.of_nat (length block) = 48000 /\
            Forall (fun v => exists t, -32767 <= t <= 32767 /\
                      bytes_in_memory host v = big_endian_bytes (to_uint16 t))
                   block)
         (Mono_main fa host replies).
Proof.
  intros Hfa. destruct (length_mono_buffers fa) as [L1 L2].
  unfold BitDepthConv_main, Mono_main. split.
  - exact (whole_buffer_blocks host (BitDepthConv_synthesis fa) (-29204) 29203
             _ replies L1 (fun u => bitdepth_buffer_elements fa u Hfa)).
  - exact (whole_buffer_blocks host (Mono_synthesis fa) (-32767) 32767
             _ replies L2 (fun u => mono_buffer_elements fa u Hfa)).
Qed.

Lemma mono_main_blocks_witness :
  Forall (fun block =>
            Z.of_nat (length block) = 48000 /\
            Forall (fun v => exists t, -29204 <= t <= 29203 /\
                      bytes_in_memory BigEndian v
                      = big_endian_bytes (to_uint16 t))
                   block)
         (BitDepthConv_main exact_arithmetic BigEndian
            [ {| Stereo.written := 48000; Stereo.recovered := 0 |} ]) /\
  Forall (fun block =>
            Z.of_nat (length block) = 48000 /\
            Forall (fun v => exists t, -32767 <= t <= 32767 /\
                      bytes_in_memory BigEndian v
                      = big_endian_bytes (to_uint16 t))
                   block)
         (Mono_main exact_arithmetic BigEndian
            [ {| Stereo.written := 48000; Stereo.recovered := 0 |} ]).
Proof.
  apply mono_main_blocks. exact exact_arithmetic_admissible.
Defined.

End ProgramFacts.
